(** * The mobile overlay optimizer of swap-app: a model of
      [src/utils/mobileModal.js] (class [MobileModalOptimizer]) and the
      properties of its registry, scroll lock and close sequence.

    The optimizer is written as functions on a [State] that holds the two
    fields of the instance ([activeModals], [originalBodyStyles]) and what
    its methods read and write on the page: the body's attributes and
    inline style, the marker class and [data-*] attributes it sets on
    elements, the listeners it adds, the events it dispatches, the
    viewport width, and the pending timeouts with a clock.  The structure
    of the document (classes, [role], children) is read but never changed
    by the optimizer, apart from the indicator it inserts, and comes with
    the elements handed to it.  Values written to styles are kept as
    written.  The computed style of the body is the browser's business
    and is a parameter.  One instance is modelled; the static
    [optimizeModal], which builds a further instance, is not. *)

From stdpp Require Import base list strings gmap fin_maps.
From Stdlib Require Import ZArith Lia.

Local Open Scope string_scope.
Local Open Scope list_scope.

(** ** The part of the DOM the optimizer reads *)

(** An element of the document tree.  A JavaScript reference to a node is
    modelled by the node together with its identity [eid]; [===],
    [includes] and [indexOf] compare identities.  [classList] and [role]
    are what the optimizer's selectors look at, [displayNone] is whether
    the computed [display] of the element is ['none'], [children] are the
    element children (text nodes never match a selector). *)
#[warnings="-register-all"]
Inductive Element : Type :=
  mkElement (eid : nat) (classList : list string) (role : option string)
            (displayNone : bool) (children : list Element).

Definition eid (e : Element) : nat :=
  match e with mkElement i _ _ _ _ => i end.
Definition classList (e : Element) : list string :=
  match e with mkElement _ c _ _ _ => c end.
Definition role (e : Element) : option string :=
  match e with mkElement _ _ r _ _ => r end.
Definition displayNone (e : Element) : bool :=
  match e with mkElement _ _ _ d _ => d end.
Definition children (e : Element) : list Element :=
  match e with mkElement _ _ _ _ c => c end.

(** A node handed to the mutation callback: an element
    ([nodeType === Node.ELEMENT_NODE]) or anything else (text, comment). *)
Inductive Node : Type :=
  | ElementNode (e : Element)
  | OtherNode (nid : nat).

(** The selectors of the source are class selectors ([.modal]) and
    attribute selectors on [role] ([[role="dialog"]]). *)
Inductive Selector : Type :=
  | ByClass (c : string)
  | ByRole (r : string).

Definition contains (e : Element) (c : string) : bool :=
  bool_decide (c ∈ classList e).

Definition matches (e : Element) (sel : Selector) : bool :=
  match sel with
  | ByClass c => contains e c
  | ByRole r => bool_decide (role e = Some r)
  end.

Definition matchesAny (sels : list Selector) (e : Element) : bool :=
  existsb (matches e) sels.

(** The proper descendants of an element, in document order. *)
Fixpoint descendants (e : Element) : list Element :=
  match e with
  | mkElement _ _ _ _ cs => flat_map (fun c => c :: descendants c) cs
  end.

(** [element.querySelectorAll(sels.join(', '))] *)
Definition querySelectorAll (e : Element) (sels : list Selector) : list Element :=
  List.filter (matchesAny sels) (descendants e).

(** [element.querySelector(sels.join(', '))] *)
Definition querySelector (e : Element) (sels : list Selector) : option Element :=
  head (querySelectorAll e sels).

(** ** Arrays of node references *)

Definition sameNode (a b : Element) : bool := bool_decide (eid a = eid b).

(** [arr.includes(e)] *)
Definition includes (arr : list Element) (e : Element) : bool :=
  existsb (sameNode e) arr.

(** [arr.indexOf(e)]: the first index holding [e], or [-1]. *)
Definition indexOf (arr : list Element) (e : Element) : Z :=
  match list_find (fun x => eid x = eid e) arr with
  | Some (i, _) => Z.of_nat i
  | None => (-1)%Z
  end.

(** [arr.splice(start, 1)]: a negative [start] counts from the end. *)
Definition splice1 (start : Z) (arr : list Element) : list Element :=
  let len := Z.of_nat (length arr) in
  let from := if (start <? 0)%Z then Z.max (len + start) 0 else Z.min start len in
  delete (Z.to_nat from) arr.

(** [arr[arr.length - 1]] *)
Definition lastOf (arr : list Element) : option Element :=
  arr !! (length arr - 1).

(** ** Timers, listeners and the state of the page *)

(** The two closures handed to [setTimeout]. *)
Inductive Callback : Type :=
  | ShowContent (content : nat)   (* modalContent.style.transform = 'translateY(0) !important' *)
  | DoClose (modal : Element).    (* this.doCloseModal(modal) *)

Record Timer : Type := mkTimer { due : Z; callback : Callback }.

(** The closures handed to [addEventListener]. *)
Inductive Handler : Type :=
  | OnCloseButton (modal : Element)
  | OnBackdrop (backdrop : nat) (modal : Element)
  | OnCloseSignal (modal : Element).

Record Listener : Type :=
  mkListener { target : nat; eventType : string; handler : Handler }.

(** What the mutation callback did with a node (a record kept beside the
    state so that the order of handling can be stated). *)
Inductive Handling : Type :=
  | Addition (id : nat)
  | Removal (id : nat).

Record State : Type := mkState {
  activeModals : list Element;               (* this.activeModals *)
  originalBodyStyles : gmap string string;   (* this.originalBodyStyles *)
  bodyAttrs : gmap string string;            (* attributes of document.body *)
  bodyStyle : gmap string string;            (* document.body.style *)
  optimized : gset nat;                      (* elements carrying 'mobile-modal-optimized' *)
  marks : gset (nat * string);               (* data-* attributes set on elements *)
  styleWrites : list (nat * string * string);(* writes to element.style, oldest first *)
  indicators : list nat;                     (* parents that received a '.modal-indicator' *)
  listeners : list Listener;                 (* addEventListener calls, oldest first *)
  dispatched : list (nat * string);          (* dispatchEvent calls, oldest first *)
  innerWidth : Z;                            (* window.innerWidth *)
  clock : Z;                                 (* current time, ms *)
  timers : list Timer;                       (* pending timeouts, earliest first *)
  handled : list Handling
}.

Definition setActiveModals v s :=
  mkState v (originalBodyStyles s) (bodyAttrs s) (bodyStyle s) (optimized s)
    (marks s) (styleWrites s) (indicators s) (listeners s) (dispatched s)
    (innerWidth s) (clock s) (timers s) (handled s).
Definition setOriginalBodyStyles v s :=
  mkState (activeModals s) v (bodyAttrs s) (bodyStyle s) (optimized s)
    (marks s) (styleWrites s) (indicators s) (listeners s) (dispatched s)
    (innerWidth s) (clock s) (timers s) (handled s).
Definition setBodyAttrs v s :=
  mkState (activeModals s) (originalBodyStyles s) v (bodyStyle s) (optimized s)
    (marks s) (styleWrites s) (indicators s) (listeners s) (dispatched s)
    (innerWidth s) (clock s) (timers s) (handled s).
Definition setBodyStyle v s :=
  mkState (activeModals s) (originalBodyStyles s) (bodyAttrs s) v (optimized s)
    (marks s) (styleWrites s) (indicators s) (listeners s) (dispatched s)
    (innerWidth s) (clock s) (timers s) (handled s).
Definition setOptimized v s :=
  mkState (activeModals s) (originalBodyStyles s) (bodyAttrs s) (bodyStyle s) v
    (marks s) (styleWrites s) (indicators s) (listeners s) (dispatched s)
    (innerWidth s) (clock s) (timers s) (handled s).
Definition setMarks v s :=
  mkState (activeModals s) (originalBodyStyles s) (bodyAttrs s) (bodyStyle s)
    (optimized s) v (styleWrites s) (indicators s) (listeners s) (dispatched s)
    (innerWidth s) (clock s) (timers s) (handled s).
Definition setStyleWrites v s :=
  mkState (activeModals s) (originalBodyStyles s) (bodyAttrs s) (bodyStyle s)
    (optimized s) (marks s) v (indicators s) (listeners s) (dispatched s)
    (innerWidth s) (clock s) (timers s) (handled s).
Definition setIndicators v s :=
  mkState (activeModals s) (originalBodyStyles s) (bodyAttrs s) (bodyStyle s)
    (optimized s) (marks s) (styleWrites s) v (listeners s) (dispatched s)
    (innerWidth s) (clock s) (timers s) (handled s).
Definition setListeners v s :=
  mkState (activeModals s) (originalBodyStyles s) (bodyAttrs s) (bodyStyle s)
    (optimized s) (marks s) (styleWrites s) (indicators s) v (dispatched s)
    (innerWidth s) (clock s) (timers s) (handled s).
Definition setDispatched v s :=
  mkState (activeModals s) (originalBodyStyles s) (bodyAttrs s) (bodyStyle s)
    (optimized s) (marks s) (styleWrites s) (indicators s) (listeners s) v
    (innerWidth s) (clock s) (timers s) (handled s).
Definition setInnerWidth v s :=
  mkState (activeModals s) (originalBodyStyles s) (bodyAttrs s) (bodyStyle s)
    (optimized s) (marks s) (styleWrites s) (indicators s) (listeners s)
    (dispatched s) v (clock s) (timers s) (handled s).
Definition setClock v s :=
  mkState (activeModals s) (originalBodyStyles s) (bodyAttrs s) (bodyStyle s)
    (optimized s) (marks s) (styleWrites s) (indicators s) (listeners s)
    (dispatched s) (innerWidth s) v (timers s) (handled s).
Definition setTimers v s :=
  mkState (activeModals s) (originalBodyStyles s) (bodyAttrs s) (bodyStyle s)
    (optimized s) (marks s) (styleWrites s) (indicators s) (listeners s)
    (dispatched s) (innerWidth s) (clock s) v (handled s).
Definition setHandled v s :=
  mkState (activeModals s) (originalBodyStyles s) (bodyAttrs s) (bodyStyle s)
    (optimized s) (marks s) (styleWrites s) (indicators s) (listeners s)
    (dispatched s) (innerWidth s) (clock s) (timers s) v.

(** [element.style.prop = value] and each declaration of
    [element.style.cssText += ...] are recorded as written. *)
Definition writeStyles (id : nat) (decls : list (string * string)) (s : State) : State :=
  setStyleWrites (styleWrites s ++ map (fun d => (id, d.1, d.2)) decls) s.

(** [setTimeout(cb, delay)]: the queue is kept ordered by due time, a new
    timer going behind those that are due no later. *)
Fixpoint enqueue (t : Timer) (q : list Timer) : list Timer :=
  match q with
  | [] => [t]
  | u :: q' => if (due u <=? due t)%Z then u :: enqueue t q' else t :: q
  end.

Definition setTimeout (cb : Callback) (delay : Z) (s : State) : State :=
  setTimers (enqueue (mkTimer (clock s + delay) cb) (timers s)) s.

(** ** The optimizer *)

Definition modalSelectors : list Selector :=
  [ByClass "modal"; ByClass "popup"; ByClass "drawer"; ByClass "dialog";
   ByRole "dialog"; ByRole "alertdialog";
   ByClass "el-dialog"; ByClass "el-drawer"; ByClass "el-message-box"].

(** The shorter selector list of [checkForModalRemoval]. *)
Definition removalSelectors : list Selector :=
  [ByClass "modal"; ByClass "popup"; ByClass "drawer"; ByRole "dialog"].

(** The selector list of [checkExistingModals]. *)
Definition existingSelectors : list Selector :=
  [ByClass "modal"; ByClass "popup"; ByClass "drawer"; ByRole "dialog";
   ByClass "el-dialog"; ByClass "el-drawer"].

Definition contentSelectors : list Selector :=
  [ByClass "modal-content"; ByClass "modal-body"; ByClass "drawer-body";
   ByClass "el-dialog__body"; ByClass "el-drawer__body";
   ByClass "content"; ByClass "body"].

Definition scrollSelectors : list Selector :=
  [ByClass "modal-body"; ByClass "drawer-body"; ByClass "scroll-content";
   ByClass "el-dialog__body"; ByClass "el-drawer__body"].

Definition trackedProperties : list string :=
  ["position"; "top"; "left"; "right"; "bottom"; "overflow"; "height"; "width"].

(** The styles [preventBackgroundScroll] writes on the body. *)
Definition lockedStyles : list (string * string) :=
  [("position", "fixed"); ("top", "0"); ("left", "0"); ("right", "0");
   ("bottom", "0"); ("overflow", "hidden"); ("height", "100vh");
   ("width", "100vw")].

Definition mobileContentStyles : list (string * string) :=
  [("max-width", "100vw !important"); ("max-height", "90vh !important");
   ("width", "100vw !important"); ("margin", "0 !important");
   ("border-radius", "0 !important"); ("position", "fixed !important");
   ("bottom", "0 !important"); ("left", "0 !important");
   ("right", "0 !important"); ("top", "auto !important");
   ("transform", "translateY(100%) !important");
   ("transition", "transform 0.3s cubic-bezier(0.4, 0, 0.2, 1) !important")].

Definition desktopContentStyles : list (string * string) :=
  [("max-width", "90vw !important"); ("max-height", "90vh !important");
   ("position", "fixed !important"); ("top", "50% !important");
   ("left", "50% !important");
   ("transform", "translate(-50%, -50%) !important");
   ("border-radius", "16px !important")].

Definition scrollStyles : list (string * string) :=
  [("-webkit-overflow-scrolling", "touch"); ("overscroll-behavior", "contain");
   ("max-height", "calc(90vh - 120px)"); ("overflow-y", "auto")].

(** [for (const selector of selectors) { const c = modal.querySelector(selector); if (c) return c }] *)
Fixpoint firstMatch (modal : Element) (sels : list Selector) : option Element :=
  match sels with
  | [] => None
  | sel :: rest =>
      match querySelector modal [sel] with
      | Some c => Some c
      | None => firstMatch modal rest
      end
  end.

Definition findModalContent (modal : Element) : Element :=
  default modal (firstMatch modal contentSelectors).

Definition findScrollableContent (modal : Element) : option Element :=
  firstMatch modal scrollSelectors.

Definition hasBodyAttribute (name : string) (s : State) : bool :=
  bool_decide (is_Some (bodyAttrs s !! name)).

Definition isMobile (s : State) : bool := (innerWidth s <=? 768)%Z.

Section Optimizer.

(** [window.getComputedStyle(document.body)], which the browser
    resolves from the body's attributes and inline style. *)
Variable getComputedStyle :
  gmap string string -> gmap string string -> string -> string.

Definition saveBodyStyles (s : State) : State :=
  if bool_decide (size (originalBodyStyles s) = 0) then
    let computedStyle := getComputedStyle (bodyAttrs s) (bodyStyle s) in
    setOriginalBodyStyles
      (list_to_map (map (fun p => (p, computedStyle p)) trackedProperties)) s
  else s.

Definition preventBackgroundScroll (s : State) : State :=
  if negb (hasBodyAttribute "data-modal-open" s) then
    let s := setBodyAttrs (<["data-modal-open" := "true"]> (bodyAttrs s)) s in
    setBodyStyle
      (foldl (fun st d => <[d.1 := d.2]> st) (bodyStyle s) lockedStyles) s
  else s.

Definition restoreBodyStyles (s : State) : State :=
  if hasBodyAttribute "data-modal-open" s then
    let s := setBodyAttrs (delete "data-modal-open" (bodyAttrs s)) s in
    let s :=
      setBodyStyle
        (map_fold (fun property value st => <[property := value]> st)
                  (bodyStyle s) (originalBodyStyles s)) s in
    setOriginalBodyStyles ∅ s
  else s.

(** [modalContent.querySelector('.modal-indicator')]: an indicator that
    was in the markup, or one inserted earlier below [modalContent]. *)
Definition hasIndicator (modalContent : Element) (s : State) : bool :=
  existsb (fun d => contains d "modal-indicator") (descendants modalContent)
  || existsb (fun d => bool_decide (eid d ∈ indicators s))
             (modalContent :: descendants modalContent).

Definition addTopIndicator (modalContent : Element) (s : State) : State :=
  if hasIndicator modalContent s then s
  else
    let header :=
      querySelector modalContent
        [ByClass "modal-header"; ByClass "drawer-header"; ByClass "el-dialog__header"] in
    match header with
    | Some h => setIndicators (indicators s ++ [eid h]) s
    | None => setIndicators (indicators s ++ [eid modalContent]) s
    end.

Definition setModalStyles (modal : Element) (s : State) : State :=
  let modalContent := findModalContent modal in
  if isMobile s then
    let s := writeStyles (eid modalContent) mobileContentStyles s in
    let s := setTimeout (ShowContent (eid modalContent)) 10 s in
    addTopIndicator modalContent s
  else
    writeStyles (eid modalContent) desktopContentStyles s.

Definition addBackdropClose (modal : Element) (s : State) : State :=
  match querySelector modal
          [ByClass "modal-mask"; ByClass "modal-backdrop"; ByClass "el-overlay"] with
  | None => s
  | Some backdrop =>
      if negb (bool_decide ((eid backdrop, "data-backdrop-close") ∈ marks s)) then
        let s := setMarks ({[ (eid backdrop, "data-backdrop-close") ]} ∪ marks s) s in
        setListeners
          (listeners s ++ [mkListener (eid backdrop) "click" (OnBackdrop (eid backdrop) modal)]) s
      else s
  end.

Definition optimizeModalScroll (modal : Element) (s : State) : State :=
  match findScrollableContent modal with
  | Some scrollableContent => writeStyles (eid scrollableContent) scrollStyles s
  | None => s
  end.

Definition applyModalOptimizations (modal : Element) (s : State) : State :=
  let s := setOptimized ({[ eid modal ]} ∪ optimized s) s in
  let s := setModalStyles modal s in
  let s := preventBackgroundScroll s in
  let s := addBackdropClose modal s in
  optimizeModalScroll modal s.

Definition wireCloseButton (modal : Element) (s : State) (button : Element) : State :=
  if negb (bool_decide ((eid button, "data-close-listener") ∈ marks s)) then
    let s := setMarks ({[ (eid button, "data-close-listener") ]} ∪ marks s) s in
    setListeners (listeners s ++ [mkListener (eid button) "click" (OnCloseButton modal)]) s
  else s.

Definition setupModalCloseListeners (modal : Element) (s : State) : State :=
  let closeButtons :=
    querySelectorAll modal
      [ByClass "modal-close"; ByClass "close-btn";
       ByClass "el-dialog__close"; ByClass "el-drawer__close"] in
  let s := foldl (wireCloseButton modal) s closeButtons in
  setListeners (listeners s ++ [mkListener (eid modal) "close" (OnCloseSignal modal)]) s.

Definition optimizeModal (modal : Element) (s : State) : State :=
  if includes (activeModals s) modal then s
  else
    let s := setActiveModals (activeModals s ++ [modal]) s in
    let s := saveBodyStyles s in
    let s := applyModalOptimizations modal s in
    setupModalCloseListeners modal s.

Definition registerIfNew (s : State) (modal : Element) : State :=
  if negb (includes (activeModals s) modal) then optimizeModal modal s else s.

Definition checkForModal (element : Element) (s : State) : State :=
  let isModal :=
    matchesAny modalSelectors element
    || (contains element "modal" || contains element "popup"
        || contains element "drawer") in
  let s :=
    if isModal && negb (includes (activeModals s) element)
    then optimizeModal element s else s in
  let childModals := querySelectorAll element modalSelectors in
  foldl registerIfNew s childModals.

Definition dropIfRegistered (s : State) (modal : Element) : State :=
  let modalIndex := indexOf (activeModals s) modal in
  if (-1 <? modalIndex)%Z
  then setActiveModals (splice1 modalIndex (activeModals s)) s
  else s.

Definition checkForModalRemoval (element : Element) (s : State) : State :=
  let index := indexOf (activeModals s) element in
  let s :=
    if (-1 <? index)%Z then
      let s := restoreBodyStyles s in
      setActiveModals (splice1 index (activeModals s)) s
    else s in
  let childModals := querySelectorAll element removalSelectors in
  foldl dropIfRegistered s childModals.

Definition checkExistingModals (document : Element) (s : State) : State :=
  let existingModals := querySelectorAll document existingSelectors in
  foldl (fun s modal =>
           if negb (includes (activeModals s) modal) && negb (displayNone modal)
           then optimizeModal modal s else s)
        s existingModals.

Definition doCloseModal (modal : Element) (s : State) : State :=
  let index := indexOf (activeModals s) modal in
  let s :=
    if (-1 <? index)%Z
    then setActiveModals (splice1 index (activeModals s)) s else s in
  let s := setOptimized (optimized s ∖ {[ eid modal ]}) s in
  let s :=
    if bool_decide (length (activeModals s) = 0)
    then restoreBodyStyles s else s in
  setDispatched (dispatched s ++ [(eid modal, "closed")]) s.

(** [findModalContent] never returns a falsy value, so the second
    conjunct of the source's test is always true. *)
Definition closeModal (modal : Element) (s : State) : State :=
  let modalContent := findModalContent modal in
  if isMobile s then
    let s := writeStyles (eid modalContent)
               [("transform", "translateY(100%) !important")] s in
    setTimeout (DoClose modal) 300 s
  else doCloseModal modal s.

(** The document's [keydown] listener. *)
Definition keydown (key : string) (s : State) : State :=
  if bool_decide (key = "Escape") && bool_decide (0 < length (activeModals s)) then
    match lastOf (activeModals s) with
    | Some lastModal => closeModal lastModal s
    | None => s
    end
  else s.

(** The mutation callback. *)
Record MutationRecord : Type :=
  mkMutation { addedNodes : list Node; removedNodes : list Node }.

Definition onAdded (s : State) (node : Node) : State :=
  match node with
  | ElementNode e =>
      checkForModal e (setHandled (handled s ++ [Addition (eid e)]) s)
  | OtherNode _ => s
  end.

Definition onRemoved (s : State) (node : Node) : State :=
  match node with
  | ElementNode e =>
      checkForModalRemoval e (setHandled (handled s ++ [Removal (eid e)]) s)
  | OtherNode _ => s
  end.

Definition onMutation (s : State) (mutation : MutationRecord) : State :=
  let s := foldl onAdded s (addedNodes mutation) in
  foldl onRemoved s (removedNodes mutation).

Definition onMutations (mutations : list MutationRecord) (s : State) : State :=
  foldl onMutation s mutations.

(** An event of type [ty] reaching the element [current], with
    [e.target] the element [tgt]: the listeners registered on [current]
    run in the order of their registration. *)
Definition runHandler (tgt : nat) (s : State) (l : Listener) : State :=
  match handler l with
  | OnCloseButton modal => closeModal modal s
  | OnBackdrop backdrop modal =>
      if bool_decide (tgt = backdrop) then closeModal modal s else s
  | OnCloseSignal modal => closeModal modal s
  end.

Definition dispatch (ty : string) (current tgt : nat) (s : State) : State :=
  foldl (runHandler tgt) s
    (List.filter
       (fun l => bool_decide (target l = current) && bool_decide (eventType l = ty))
       (listeners s)).

(** Running the timers. *)
Definition runCallback (cb : Callback) (s : State) : State :=
  match cb with
  | ShowContent content =>
      writeStyles content [("transform", "translateY(0) !important")] s
  | DoClose modal => doCloseModal modal s
  end.

(** The timers of [q] that are due by [deadline] fire in order, each at
    its due time.  No callback sets a timer, so the queue only shrinks. *)
Fixpoint runTimers (deadline : Z) (q : list Timer) (s : State) : State :=
  match q with
  | [] => s
  | t :: q' =>
      if (due t <=? deadline)%Z
      then runTimers deadline q'
             (runCallback (callback t) (setTimers q' (setClock (due t) s)))
      else s
  end.

(** [ms] milliseconds pass with no other event. *)
Definition advance (ms : Z) (s : State) : State :=
  let deadline := (clock s + ms)%Z in
  setClock deadline (runTimers deadline (timers s) s).

(** [new MobileModalOptimizer()] on a page whose body has the given
    attributes and inline style. *)
Definition initialState (attrs style : gmap string string) (width : Z) : State :=
  mkState [] ∅ attrs style ∅ ∅ [] [] [] [] width 0 [] [].

Definition construct (document : Element)
    (attrs style : gmap string string) (width : Z) : State :=
  checkExistingModals document (initialState attrs style width).

End Optimizer.

(** * Notions used in the statements *)

(** The registry without the first reference to [e]. *)
Fixpoint removeFirst (e : Element) (arr : list Element) : list Element :=
  match arr with
  | [] => []
  | x :: rest => if bool_decide (eid x = eid e) then rest else x :: removeFirst e rest
  end.

Definition ids (arr : list Element) : list nat := map eid arr.

Definition lockAttr : string := "data-modal-open".

(** The browser computes back a value that was computed and then written
    into the inline style. *)
Definition computedValuesStick
    (getComputedStyle : gmap string string -> gmap string string -> string -> string) : Prop :=
  forall attrs inline inline' p,
    inline' !! p = Some (getComputedStyle attrs inline p) ->
    getComputedStyle attrs inline' p = getComputedStyle attrs inline p.

(** The fields no listener wiring touches. *)
Definition wiringFrame (s : State) :=
  (activeModals s, originalBodyStyles s, bodyAttrs s, bodyStyle s, optimized s,
   styleWrites s, indicators s, dispatched s, innerWidth s, clock s, timers s,
   handled s).

(** The fields only registration, removal and close touch. *)
Definition registryFrame (s : State) :=
  (activeModals s, originalBodyStyles s, dispatched s, innerWidth s, clock s,
   handled s).

(** The fields that hold the listener wiring. *)
Definition listenerFrame (s : State) := (marks s, listeners s).

Definition closeMark (id : nat) : nat * string := (id, "data-close-listener").

(** What the close sequence and the removal handling act on. *)
Definition core (s : State) :=
  (activeModals s, originalBodyStyles s, bodyAttrs s, bodyStyle s, optimized s,
   dispatched s).

(** What they leave alone. *)
Definition loopFrame (s : State) :=
  (innerWidth s, clock s, timers s, listeners s, marks s, styleWrites s,
   indicators s, handled s).

Definition closedEvent (m : Element) : nat * string := (eid m, "closed").

(** The registry without the first reference to each node of [l]. *)
Definition removeAll (l arr : list Element) : list Element :=
  foldl (fun arr m => removeFirst m arr) arr l.

(** The identities of the element nodes among [nodes]. *)
Definition elementIds (nodes : list Node) : list nat :=
  flat_map (fun n => match n with ElementNode e => [eid e] | OtherNode _ => [] end) nodes.

(** [n] is [X] or an element with [X] below it. *)
Definition mentions (X : Element) (n : Node) : Prop :=
  match n with
  | ElementNode e => eid X = eid e \/ eid X ∈ ids (descendants e)
  | OtherNode _ => False
  end.

(** The body carries the lock attribute exactly when the registry is not
    empty. *)
Definition lockInvariant (s : State) : Prop :=
  hasBodyAttribute lockAttr s = true <-> activeModals s ≠ [].

Section Steps.

Variable getComputedStyle :
  gmap string string -> gmap string string -> string -> string.

(** The events that open and close overlays: a call of [optimizeModal],
    the handling of an added node, a key press, an event reaching a
    wired element, and the passing of time. *)
Inductive opensOrCloses : State -> State -> Prop :=
  | oc_optimize m s : opensOrCloses s (optimizeModal getComputedStyle m s)
  | oc_added e s : opensOrCloses s (checkForModal getComputedStyle e s)
  | oc_keydown key s : opensOrCloses s (keydown key s)
  | oc_dispatch ty current tgt s : opensOrCloses s (dispatch ty current tgt s)
  | oc_advance d s : opensOrCloses s (advance d s).

End Steps.

(** * A concrete page *)

(** A browser that computes each tracked property from the body's inline
    declaration when there is one, and to the initial value otherwise. *)
Definition initialValue (p : string) : string :=
  if bool_decide (p = "position") then "static"
  else if bool_decide (p = "overflow") then "visible" else "auto".

Definition inlineCascade (attrs inline : gmap string string) (p : string) : string :=
  match inline !! p with
  | Some v => if bool_decide (v = "") then initialValue p else v
  | None => initialValue p
  end.

Definition closeButton : Element := mkElement 3 ["modal-close"] None false [].

(** [<div class="modal"><div class="modal-content"><button class="modal-close"/></div></div>] *)
Definition sheet : Element :=
  mkElement 1 ["modal"] None false
    [mkElement 2 ["modal-content"] None false [closeButton]].

(** [<div role="dialog"/>] *)
Definition dialog : Element := mkElement 5 [] (Some "dialog") false [].

(** [<div class="wrapper">] around [sheet]. *)
Definition wrapper : Element := mkElement 7 ["wrapper"] None false [sheet].

Definition desktopPage : State := initialState ∅ ∅ 1024.

Definition mobilePage : State := initialState ∅ ∅ 375.

Definition desktopWithSheet : State := optimizeModal inlineCascade sheet desktopPage.

Definition desktopWithBoth : State := optimizeModal inlineCascade dialog desktopWithSheet.

(** The sheet open on a mobile page, its entrance timer already run. *)
Definition mobileWithSheet : State :=
  advance 10 (optimizeModal inlineCascade sheet mobilePage).

(** The two overlays open on a mobile page, the entrance timers run. *)
Definition mobileWithBoth : State :=
  advance 10 (optimizeModal inlineCascade dialog mobileWithSheet).



(** A page whose body has an inline [position]. *)
Definition styledPage : State :=
  initialState ∅ (<["position" := "relative"]> ∅) 1024.

(** * The events of the page *)

Section Events.

Variable getComputedStyle :
  gmap string string -> gmap string string -> string -> string.

(** Everything that can happen to the optimizer once it is constructed: a
    call of [optimizeModal], a mutation batch, a key press, an event
    reaching an element, the passing of time, and a change of the
    viewport width. *)
Inductive happens : State -> State -> Prop :=
  | hp_optimize m s : happens s (optimizeModal getComputedStyle m s)
  | hp_mutations batch s : happens s (onMutations getComputedStyle batch s)
  | hp_keydown key s : happens s (keydown key s)
  | hp_dispatch ty current tgt s : happens s (dispatch ty current tgt s)
  | hp_advance d s : happens s (advance d s)
  | hp_resize w s : happens s (setInnerWidth w s).

End Events.

(** The snapshot is there exactly while the body is locked, and then
    holds the tracked properties. *)
Definition snapshotInvariant (s : State) : Prop :=
  if hasBodyAttribute lockAttr s
  then dom (originalBodyStyles s) = list_to_set trackedProperties
  else originalBodyStyles s = ∅.

Definition registryDistinct (s : State) : Prop := NoDup (ids (activeModals s)).

(** The body as the scroll lock sees it. *)
Definition bodyPart (s : State) :=
  (bodyAttrs s, bodyStyle s, originalBodyStyles s).

(** The backdrop [addBackdropClose] looks for and the close buttons
    [setupModalCloseListeners] looks for. *)
Definition backdropOf (modal : Element) : option Element :=
  querySelector modal
    [ByClass "modal-mask"; ByClass "modal-backdrop"; ByClass "el-overlay"].

Definition closeButtonsOf (modal : Element) : list Element :=
  querySelectorAll modal
    [ByClass "modal-close"; ByClass "close-btn";
     ByClass "el-dialog__close"; ByClass "el-drawer__close"].

Definition backdropMark (id : nat) : nat * string := (id, "data-backdrop-close").

(** The listeners of [s] that an event of type [ty] reaching [current]
    runs. *)
Definition listening (ty : string) (current : nat) (s : State) : list Listener :=
  List.filter
    (fun l => bool_decide (target l = current) && bool_decide (eventType l = ty))
    (listeners s).

(** * More of the concrete page *)

(** A drawer with a backdrop, a header, a close button and a scrollable
    body. *)
Definition drawerMask : Element := mkElement 11 ["modal-mask"] None false [].
Definition drawerClose : Element := mkElement 14 ["close-btn"] None false [].
Definition drawerBody : Element := mkElement 15 ["drawer-body"] None false [].
Definition drawerContent : Element :=
  mkElement 12 ["modal-content"] None false
    [mkElement 13 ["drawer-header"] None false [drawerClose]; drawerBody].
Definition drawer : Element :=
  mkElement 10 ["drawer"] None false [drawerMask; drawerContent].

(** An Element Plus dialog that is in the document but not displayed. *)
Definition hiddenDialog : Element := mkElement 20 ["el-dialog"] None true [].

(** A document with [sheet] and [hiddenDialog] in it. *)
Definition page : Element := mkElement 0 ["app"] None false [sheet; hiddenDialog].

Definition mobileWithDrawer : State := optimizeModal inlineCascade drawer mobilePage.

(** * The image optimizer

    [MobileAssetOptimizer], the second class of [mobileModal.js], as far
    as it works on one image: an image is its content attributes, its
    class list, the three sizes the code reads and the listeners the code
    adds.  [img.src = v] and [img.srcset = v] set the content attribute;
    reading [img.src] gives the URL the browser resolves the attribute
    to, which is a parameter, as is [btoa].  The quality and the
    connection type are the values the class passes around. *)

From stdpp Require Import pretty.
From Stdlib Require Import Ascii.

Module Assets.

(** The closures handed to [img.addEventListener]. *)
Inductive ImageHandler : Type :=
  | MarkLoaded     (* classList.add('loaded'); classList.remove('loading') *)
  | MarkError      (* classList.add('error'); classList.remove('loading') *)
  | Fallback.      (* this.handleImageError(img) *)

Record Image : Type := mkImage {
  attributes : gmap string string;
  classNames : gset string;
  offsetWidth : Z;
  offsetHeight : Z;
  naturalWidth : Z;
  handlers : list (string * ImageHandler)
}.

Definition setAttributes v img :=
  mkImage v (classNames img) (offsetWidth img) (offsetHeight img)
    (naturalWidth img) (handlers img).
Definition setClassNames v img :=
  mkImage (attributes img) v (offsetWidth img) (offsetHeight img)
    (naturalWidth img) (handlers img).
Definition setHandlers v img :=
  mkImage (attributes img) (classNames img) (offsetWidth img) (offsetHeight img)
    (naturalWidth img) v.

Definition getAttribute (name : string) (img : Image) : option string :=
  attributes img !! name.
Definition hasAttribute (name : string) (img : Image) : bool :=
  bool_decide (is_Some (attributes img !! name)).
Definition setAttribute (name value : string) (img : Image) : Image :=
  setAttributes (<[name := value]> (attributes img)) img.
Definition removeAttribute (name : string) (img : Image) : Image :=
  setAttributes (delete name (attributes img)) img.
Definition addClass (c : string) (img : Image) : Image :=
  setClassNames ({[c]} ∪ classNames img) img.
Definition removeClass (c : string) (img : Image) : Image :=
  setClassNames (classNames img ∖ {[c]}) img.
Definition addEventListener (ty : string) (h : ImageHandler) (img : Image) : Image :=
  setHandlers (handlers img ++ [(ty, h)]) img.

(** A string in a condition: [null] and [''] are falsy. *)
Definition truthy (v : option string) : bool :=
  match v with
  | Some s => negb (bool_decide (s = ""))
  | None => false
  end.

(** [a || b] on numbers. *)
Definition orElse (a b : Z) : Z := if (a =? 0)%Z then b else a.

(** [s.includes(needle)] *)
Fixpoint includesString (needle s : string) : bool :=
  String.prefix needle s
  || match s with
     | EmptyString => false
     | String _ rest => includesString needle rest
     end.

Definition lowerAscii (c : ascii) : ascii :=
  let n := nat_of_ascii c in
  if (65 <=? n)%nat && (n <=? 90)%nat then ascii_of_nat (n + 32) else c.

Fixpoint lowerString (s : string) : string :=
  match s with
  | EmptyString => EmptyString
  | String c rest => String (lowerAscii c) (lowerString rest)
  end.

(** Whether the whole of [s] matches [\.(jpg|jpeg|png)] without regard to
    case. *)
Definition isImageExtension (s : string) : bool :=
  bool_decide (lowerString s ∈ [".jpg"; ".jpeg"; ".png"]).

(** [s.replace(/\.(jpg|jpeg|png)$/i, '.webp')]: the match, if any, is at
    the first position from which the rest of [s] is such an extension. *)
Fixpoint replaceExtension (s : string) : string :=
  if isImageExtension s then ".webp"
  else match s with
       | EmptyString => EmptyString
       | String c rest => String c (replaceExtension rest)
       end.

Inductive Quality : Type := high | medium | low.

(** The values of [this.connectionType]; [noType] is [null] or
    [undefined]. *)
Inductive ConnectionType : Type :=
  | slow2g | conn2g | conn3g | conn4g | unknownType | noType.

(** [qualityMap[this.connectionType] || 'medium'] *)
Definition getQualityForConnection (connectionType : ConnectionType) : Quality :=
  match connectionType with
  | conn4g => high
  | conn3g => medium
  | conn2g => low
  | slow2g => low
  | unknownType => medium
  | noType => medium
  end.

Definition quote : string := String "034"%char "".
Definition newline : string := String "010"%char "".

Section Browser.

(** The URL that reading [img.src] gives for the value of the [src]
    attribute, and [btoa]. *)
Variable resolveURL : string -> string.
Variable btoa : string -> string.

(** [img.src], read. *)
Definition src (img : Image) : string :=
  match getAttribute "src" img with
  | Some v => resolveURL v
  | None => ""
  end.

Definition loadImage (img : Image) : Image :=
  let dataSrc := getAttribute "data-src" img in
  let dataSrcset := getAttribute "data-srcset" img in
  let img :=
    match dataSrc with
    | Some v => if truthy dataSrc
                then removeAttribute "data-src" (setAttribute "src" v img) else img
    | None => img
    end in
  let img :=
    match dataSrcset with
    | Some v => if truthy dataSrcset
                then removeAttribute "data-srcset" (setAttribute "srcset" v img) else img
    | None => img
    end in
  let img := addClass "loaded" img in
  let img := addEventListener "load" MarkLoaded img in
  addEventListener "error" MarkError img.

Definition setResponsiveSize (img : Image) : Image :=
  if negb (hasAttribute "sizes" img) then
    let width := orElse (offsetWidth img) (orElse (naturalWidth img) 300) in
    setAttribute "sizes"
      ("(max-width: 768px) " +:+ pretty (Z.min width 400) +:+ "px, "
       +:+ pretty (Z.min width 800) +:+ "px") img
  else img.

Definition convertToWebP (img : Image) : Image :=
  let src := src img in
  if negb (bool_decide (src = ""))
     && negb (includesString ".webp" src) && negb (includesString "data:" src)
  then setAttribute "data-webp-src" (replaceExtension src) img
  else img.

Definition compressDataURLImage (img : Image) (quality : Z) : Image :=
  setAttribute "data-quality" (pretty quality) img.

Definition updateImageQuality (img : Image) (quality : Quality) : Image :=
  let qualityValue :=
    match quality with high => 90 | medium => 75 | low => 60 end%Z in
  if negb (bool_decide (src img = "")) && String.prefix "data:" (src img)
  then compressDataURLImage img qualityValue
  else img.

Definition getFallbackImage (img : Image) : string :=
  let width := orElse (offsetWidth img) 100 in
  let height := orElse (offsetHeight img) 100 in
  "data:image/svg+xml;base64,"
  +:+ btoa
       (newline
        +:+ "      <svg width=" +:+ quote +:+ pretty width +:+ quote
        +:+ " height=" +:+ quote +:+ pretty height +:+ quote
        +:+ " xmlns=" +:+ quote +:+ "http://www.w3.org/2000/svg" +:+ quote +:+ ">"
        +:+ newline
        +:+ "        <rect width=" +:+ quote +:+ "100%" +:+ quote
        +:+ " height=" +:+ quote +:+ "100%" +:+ quote
        +:+ " fill=" +:+ quote +:+ "#f0f0f0" +:+ quote +:+ "/>" +:+ newline
        +:+ "        <text x=" +:+ quote +:+ "50%" +:+ quote
        +:+ " y=" +:+ quote +:+ "50%" +:+ quote
        +:+ " text-anchor=" +:+ quote +:+ "middle" +:+ quote
        +:+ " dy=" +:+ quote +:+ ".3em" +:+ quote
        +:+ " fill=" +:+ quote +:+ "#999" +:+ quote
        +:+ " font-size=" +:+ quote +:+ "14" +:+ quote +:+ ">Image</text>" +:+ newline
        +:+ "      </svg>" +:+ newline +:+ "    ").

Definition handleImageError (img : Image) : Image :=
  let img := addClass "error" img in
  if negb (hasAttribute "data-fallback-src" img) then
    let fallbackSrc := getFallbackImage img in
    if truthy (Some fallbackSrc)
    then setAttribute "data-fallback-src" fallbackSrc
           (setAttribute "src" fallbackSrc img)
    else img
  else img.

Definition optimizeImage (img : Image) (quality : Quality) (webPSupported : bool) : Image :=
  let img := addClass "loading" img in
  let img := setResponsiveSize img in
  let img := if webPSupported then convertToWebP img else img in
  let img := updateImageQuality img quality in
  let img := addEventListener "error" Fallback img in
  addEventListener "load" MarkLoaded img.

(** An event of type [ty] on the image: its listeners for [ty] run in the
    order they were added. *)
Definition runHandler (img : Image) (h : string * ImageHandler) : Image :=
  match h.2 with
  | MarkLoaded => removeClass "loading" (addClass "loaded" img)
  | MarkError => removeClass "loading" (addClass "error" img)
  | Fallback => handleImageError img
  end.

Definition dispatchEvent (ty : string) (img : Image) : Image :=
  foldl runHandler img
    (List.filter (fun h => bool_decide (h.1 = ty)) (handlers img)).

(** The images of the document by identity, and the targets of the
    lazy-load [IntersectionObserver]. *)
Record Document : Type := mkDocument {
  images : gmap nat Image;
  observed : gset nat
}.

Record Entry : Type := mkEntry { entryTarget : nat; isIntersecting : bool }.

(** [observeLazyImages]: every [img[data-src], img[data-srcset]] is
    observed. *)
Definition observeLazyImages (doc : Document) : Document :=
  mkDocument (images doc)
    (observed doc
     ∪ dom (filter (fun kv => hasAttribute "data-src" kv.2 = true
                              \/ hasAttribute "data-srcset" kv.2 = true)
              (images doc))).

(** The callback of the lazy-load observer. *)
Definition onIntersection (doc : Document) (entries : list Entry) : Document :=
  foldl (fun doc entry =>
           if isIntersecting entry then
             mkDocument (alter loadImage (entryTarget entry) (images doc))
                        (observed doc ∖ {[entryTarget entry]})
           else doc)
        doc entries.

End Browser.

End Assets.

(** Two images with the same attributes and classes. *)
Definition sameData (a b : Assets.Image) : Prop :=
  Assets.attributes a = Assets.attributes b
  /\ Assets.classNames a = Assets.classNames b.

(** Whether some entry reports the image [id] as intersecting. *)
Definition intersects (id : nat) (entries : list Assets.Entry) : bool :=
  existsb (fun e => bool_decide (Assets.entryTarget e = id) && Assets.isIntersecting e)
    entries.

(** ** Concrete images *)

(** URLs are resolved against [https://swap.example/]; a [data:] URL is
    absolute already. *)
Definition againstBase (v : string) : string :=
  if String.prefix "data:" v then v else "https://swap.example/" +:+ v.

(** The statements below hold for any encoding; the concrete cases take
    the text itself for its encoding. *)
Definition plainText (s : string) : string := s.

(** [<img data-src="img/coin.PNG" alt="coin">], laid out 320 by 240. *)
Definition lazyCoin : Assets.Image :=
  Assets.mkImage (<["data-src" := "img/coin.PNG"]> (<["alt" := "coin"]> ∅)) ∅
    320 240 0 [].

(** [<img src="img/logo.JPG">], laid out 120 by 40. *)
Definition logo : Assets.Image :=
  Assets.mkImage (<["src" := "img/logo.JPG"]> ∅) ∅ 120 40 120 [].

(** A document with these two images; the observer observes the lazy
    one. *)
Definition gallery : Assets.Document :=
  Assets.observeLazyImages
    (Assets.mkDocument (<[1 := lazyCoin]> (<[2 := logo]> ∅)) ∅).

(** * Properties *)

(** ** The registry as an array *)

Lemma includes_ids arr e : includes arr e = true <-> eid e ∈ ids arr.
Proof.
  unfold includes, ids, sameNode. induction arr as [|x arr IH]; simpl.
  - split; [discriminate | intros H; inversion H].
  - rewrite orb_true_iff, IH, elem_of_cons, bool_decide_eq_true. tauto.
Qed.

Lemma includes_false_ids arr e : includes arr e = false <-> eid e ∉ ids arr.
Proof.
  rewrite <- includes_ids. destruct (includes arr e); split; congruence.
Qed.

Lemma indexOf_cons x arr e :
  indexOf (x :: arr) e =
  if bool_decide (eid x = eid e) then 0%Z
  else if (-1 <? indexOf arr e)%Z then (indexOf arr e + 1)%Z else (-1)%Z.
Proof.
  unfold indexOf. simpl. case_decide as Hx.
  - rewrite bool_decide_eq_true_2 by done. reflexivity.
  - rewrite bool_decide_eq_false_2 by done.
    destruct (list_find _ arr) as [[i y]|]; simpl.
    + replace (-1 <? Z.of_nat i)%Z with true by (symmetry; apply Z.ltb_lt; lia).
      lia.
    + reflexivity.
Qed.

Lemma indexOf_range arr e :
  (-1 <= indexOf arr e < Z.of_nat (length arr))%Z.
Proof.
  induction arr as [|x arr IH].
  - unfold indexOf; simpl; lia.
  - rewrite indexOf_cons. simpl length. case_bool_decide; [lia|].
    destruct (-1 <? indexOf arr e)%Z eqn:E; [apply Z.ltb_lt in E|]; lia.
Qed.

Lemma indexOf_includes arr e : (-1 <? indexOf arr e)%Z = includes arr e.
Proof.
  induction arr as [|x arr IH]; [reflexivity|].
  rewrite indexOf_cons. unfold includes in *. simpl. unfold sameNode at 1.
  case_bool_decide as Hx.
  - rewrite bool_decide_eq_true_2 by done. reflexivity.
  - rewrite bool_decide_eq_false_2 by congruence. simpl. rewrite <- IH.
    destruct (-1 <? indexOf arr e)%Z eqn:E; [|reflexivity].
    apply Z.ltb_lt in E. apply Z.ltb_lt. lia.
Qed.

Lemma splice1_index (i : nat) arr :
  i <= length arr -> splice1 (Z.of_nat i) arr = delete i arr.
Proof.
  intros Hi. unfold splice1.
  replace (Z.of_nat i <? 0)%Z with false by (symmetry; apply Z.ltb_ge; lia).
  rewrite Z.min_l by lia. rewrite Nat2Z.id. reflexivity.
Qed.

(** The source's [indexOf]/[splice] pair removes the first reference. *)
Lemma splice_indexOf arr e :
  (if (-1 <? indexOf arr e)%Z then splice1 (indexOf arr e) arr else arr)
  = removeFirst e arr.
Proof.
  induction arr as [|x arr IH]; [reflexivity|].
  rewrite indexOf_cons. simpl removeFirst. case_bool_decide as Hx.
  - reflexivity.
  - pose proof (indexOf_range arr e) as Hr.
    destruct (-1 <? indexOf arr e)%Z eqn:E.
    + apply Z.ltb_lt in E.
      replace (-1 <? indexOf arr e + 1)%Z with true by (symmetry; apply Z.ltb_lt; lia).
      rewrite <- IH.
      replace (indexOf arr e + 1)%Z with (Z.of_nat (S (Z.to_nat (indexOf arr e)))) by lia.
      rewrite splice1_index by (simpl; lia). simpl.
      f_equal.
      replace (indexOf arr e) with (Z.of_nat (Z.to_nat (indexOf arr e))) at 2 by lia.
      rewrite splice1_index by lia. reflexivity.
    + simpl. rewrite <- IH. reflexivity.
Qed.

Lemma removeFirst_absent e arr : eid e ∉ ids arr -> removeFirst e arr = arr.
Proof.
  induction arr as [|x arr IH]; simpl; [done|]. intros H.
  apply not_elem_of_cons in H as [H1 H2].
  rewrite bool_decide_eq_false_2 by congruence. by rewrite IH.
Qed.

Lemma ids_removeFirst_subset e arr i : i ∈ ids (removeFirst e arr) -> i ∈ ids arr.
Proof.
  induction arr as [|x arr IH]; simpl; [done|].
  case_bool_decide; simpl; rewrite ?elem_of_cons; intuition.
Qed.

Lemma NoDup_removeFirst e arr : NoDup (ids arr) -> NoDup (ids (removeFirst e arr)).
Proof.
  induction arr as [|x arr IH]; simpl; [done|].
  intros H. apply NoDup_cons in H as [H1 H2].
  case_bool_decide; [done|]. simpl. apply NoDup_cons. split; [|auto].
  intros Hin. apply H1. by eapply ids_removeFirst_subset.
Qed.

Lemma removeFirst_gone e arr : NoDup (ids arr) -> eid e ∉ ids (removeFirst e arr).
Proof.
  induction arr as [|x arr IH]; simpl; [inversion 2|].
  intros H. apply NoDup_cons in H as [H1 H2].
  case_bool_decide as Hx; [by rewrite <- Hx|].
  simpl. apply not_elem_of_cons. split; [congruence | auto].
Qed.

Lemma removeFirst_last arr e :
  eid e ∉ ids arr -> removeFirst e (arr ++ [e]) = arr.
Proof.
  induction arr as [|x arr IH]; simpl.
  - intros _. by rewrite bool_decide_eq_true_2.
  - intros H. apply not_elem_of_cons in H as [H1 H2].
    rewrite bool_decide_eq_false_2 by congruence. by rewrite IH.
Qed.

Lemma lastOf_snoc arr e : lastOf (arr ++ [e]) = Some e.
Proof.
  unfold lastOf. rewrite length_app. simpl.
  replace (length arr + 1 - 1) with (length arr + 0) by lia.
  by rewrite lookup_app_r, Nat.add_0_r, Nat.sub_diag by lia.
Qed.

(** ** The scroll lock and the style snapshot *)

Lemma restore_fold_union (saved style : gmap string string) :
  map_fold (fun property value st => <[property := value]> st) style saved
  = saved ∪ style.
Proof.
  apply (map_fold_weak_ind (fun r m => r = m ∪ style)).
  - by rewrite (left_id_L ∅ (∪)).
  - intros i x m r _ ->. by rewrite insert_union_l.
Qed.

Lemma trackedProperties_NoDup : NoDup trackedProperties.
Proof. apply (bool_decide_unpack _). vm_compute. exact I. Qed.

Lemma snapshot_lookup (computedStyle : string -> string) p :
  p ∈ trackedProperties ->
  (list_to_map (map (fun p => (p, computedStyle p)) trackedProperties)
     : gmap string string) !! p = Some (computedStyle p).
Proof.
  intros Hp. apply elem_of_list_to_map_1.
  - unfold fmap. rewrite map_map. apply trackedProperties_NoDup.
  - apply list_elem_of_In, in_map_iff. exists p. split; [done|].
    by apply list_elem_of_In.
Qed.

Lemma snapshot_size (computedStyle : string -> string) :
  size (list_to_map (map (fun p => (p, computedStyle p)) trackedProperties)
          : gmap string string) = 8.
Proof.
  assert (Hnd : NoDup (map (fun p => (p, computedStyle p)) trackedProperties).*1).
  { unfold fmap. rewrite map_map. apply trackedProperties_NoDup. }
  rewrite <- length_map_to_list.
  rewrite (Permutation_length (map_to_list_to_map _ Hnd)). reflexivity.
Qed.

Lemma hasBodyAttribute_true s :
  hasBodyAttribute lockAttr s = true <-> is_Some (bodyAttrs s !! lockAttr).
Proof. unfold hasBodyAttribute. apply bool_decide_eq_true. Qed.

Lemma hasBodyAttribute_false s :
  hasBodyAttribute lockAttr s = false <-> bodyAttrs s !! lockAttr = None.
Proof.
  unfold hasBodyAttribute. rewrite bool_decide_eq_false.
  rewrite <- eq_None_not_Some. reflexivity.
Qed.

Lemma preventBackgroundScroll_locks s :
  hasBodyAttribute lockAttr (preventBackgroundScroll s) = true.
Proof.
  unfold preventBackgroundScroll. fold lockAttr.
  destruct (hasBodyAttribute lockAttr s) eqn:E; simpl; [done|].
  apply hasBodyAttribute_true. simpl. rewrite lookup_insert_eq. eauto.
Qed.

Lemma restoreBodyStyles_unlocks s :
  hasBodyAttribute lockAttr (restoreBodyStyles s) = false.
Proof.
  unfold restoreBodyStyles. fold lockAttr.
  destruct (hasBodyAttribute lockAttr s) eqn:E; simpl; [|done].
  apply hasBodyAttribute_false. simpl. apply lookup_delete_eq.
Qed.

Lemma preventBackgroundScroll_locked s :
  hasBodyAttribute lockAttr s = true -> preventBackgroundScroll s = s.
Proof. unfold preventBackgroundScroll. fold lockAttr. by intros ->. Qed.

Lemma restoreBodyStyles_unlocked s :
  hasBodyAttribute lockAttr s = false -> restoreBodyStyles s = s.
Proof. unfold restoreBodyStyles. fold lockAttr. by intros ->. Qed.

Lemma restoreBodyStyles_locked s :
  hasBodyAttribute lockAttr s = true ->
  restoreBodyStyles s =
  setOriginalBodyStyles ∅
    (setBodyStyle (originalBodyStyles s ∪ bodyStyle s)
       (setBodyAttrs (delete lockAttr (bodyAttrs s)) s)).
Proof.
  unfold restoreBodyStyles. fold lockAttr. intros ->. simpl.
  by rewrite restore_fold_union.
Qed.

Section Lock.

Variable getComputedStyle :
  gmap string string -> gmap string string -> string -> string.

Lemma saveBodyStyles_body s :
  bodyAttrs (saveBodyStyles getComputedStyle s) = bodyAttrs s
  /\ bodyStyle (saveBodyStyles getComputedStyle s) = bodyStyle s
  /\ activeModals (saveBodyStyles getComputedStyle s) = activeModals s.
Proof. unfold saveBodyStyles. by case_bool_decide. Qed.

(** What the round trip leaves in the inline style.  On a body whose
    snapshot is empty, capturing the snapshot ([saveBodyStyles]), locking
    ([preventBackgroundScroll]) and restoring ([restoreBodyStyles]) leaves
    every tracked property [p] of the body's inline style at the value
    [getComputedStyle] reported for [p] before the capture, whatever the
    inline declaration of [p] was, and discards the snapshot; when no lock
    session was open before, the body's attributes are as before too, and
    the value computed for [p] is the one computed before the capture as
    soon as the browser computes a written-back value to itself. *)
Lemma round_trip_writes_computed_values s p :
  size (originalBodyStyles s) = 0 ->
  p ∈ trackedProperties ->
  let before := getComputedStyle (bodyAttrs s) (bodyStyle s) in
  let s' := restoreBodyStyles
              (preventBackgroundScroll (saveBodyStyles getComputedStyle s)) in
  bodyStyle s' !! p = Some (before p)
  /\ originalBodyStyles s' = ∅
  /\ (hasBodyAttribute lockAttr s = false ->
      bodyAttrs s' = bodyAttrs s
      /\ (computedValuesStick getComputedStyle ->
          getComputedStyle (bodyAttrs s') (bodyStyle s') p = before p)).
Proof.
  intros Hempty Hp before s'.
  assert (Hsaved : originalBodyStyles
                     (preventBackgroundScroll (saveBodyStyles getComputedStyle s)) !! p
                   = Some (before p)).
  { unfold preventBackgroundScroll, saveBodyStyles.
    rewrite bool_decide_eq_true_2 by done.
    destruct (negb _); simpl; by apply snapshot_lookup. }
  assert (Hstyle : bodyStyle s' !! p = Some (before p)).
  { subst s'. rewrite restoreBodyStyles_locked by apply preventBackgroundScroll_locks.
    simpl. by apply lookup_union_Some_l. }
  assert (Hattrs : hasBodyAttribute lockAttr s = false -> bodyAttrs s' = bodyAttrs s).
  { intros Hfree. subst s'.
    rewrite restoreBodyStyles_locked by apply preventBackgroundScroll_locks.
    simpl. unfold preventBackgroundScroll, saveBodyStyles. fold lockAttr.
    rewrite bool_decide_eq_true_2 by done.
    replace (hasBodyAttribute lockAttr (setOriginalBodyStyles _ s))
      with (hasBodyAttribute lockAttr s) by reflexivity.
    rewrite Hfree. simpl. apply delete_insert_id.
    by apply hasBodyAttribute_false. }
  split; [exact Hstyle|]. split.
  - subst s'. by rewrite restoreBodyStyles_locked by apply preventBackgroundScroll_locks.
  - intros Hfree. split; [auto|]. intros Hstick.
    rewrite (Hattrs Hfree). by apply Hstick.
Qed.

End Lock.

Lemma saveBodyStyles_twice getComputedStyle s :
  saveBodyStyles getComputedStyle (saveBodyStyles getComputedStyle s)
  = saveBodyStyles getComputedStyle s.
Proof.
  unfold saveBodyStyles.
  destruct (bool_decide (size (originalBodyStyles s) = 0)) eqn:E.
  - change (originalBodyStyles (setOriginalBodyStyles ?v s)) with v.
    by rewrite snapshot_size.
  - by rewrite E.
Qed.

(** C7. [preventBackgroundScroll] on a body that already carries the lock
    attribute changes nothing, [restoreBodyStyles] on a body without it
    changes nothing, and either operation applied twice is the same as
    applied once.  The same holds with the capture in front: a second
    [saveBodyStyles] changes nothing, and capture followed by
    [preventBackgroundScroll] leaves the attributes and the style of a
    locked body as they are. *)
Theorem lock_operations_redundant (s t : State) :
  (hasBodyAttribute lockAttr s = true -> preventBackgroundScroll s = s)
  /\ (hasBodyAttribute lockAttr t = false -> restoreBodyStyles t = t)
  /\ preventBackgroundScroll (preventBackgroundScroll s) = preventBackgroundScroll s
  /\ restoreBodyStyles (restoreBodyStyles s) = restoreBodyStyles s
  /\ (forall getComputedStyle,
        saveBodyStyles getComputedStyle (saveBodyStyles getComputedStyle s)
        = saveBodyStyles getComputedStyle s
        /\ (hasBodyAttribute lockAttr s = true ->
            let s' := preventBackgroundScroll (saveBodyStyles getComputedStyle s) in
            bodyAttrs s' = bodyAttrs s /\ bodyStyle s' = bodyStyle s)).
Proof.
  split; [apply preventBackgroundScroll_locked|].
  split; [apply restoreBodyStyles_unlocked|]. split; [|split].
  - apply preventBackgroundScroll_locked, preventBackgroundScroll_locks.
  - apply restoreBodyStyles_unlocked, restoreBodyStyles_unlocks.
  - intros getComputedStyle. split; [apply saveBodyStyles_twice|].
    intros Hlocked s'. subst s'.
    destruct (saveBodyStyles_body getComputedStyle s) as (Ha & Hs & _).
    rewrite preventBackgroundScroll_locked; [done|].
    unfold hasBodyAttribute in *. by rewrite Ha.
Qed.

(** ** What each method leaves alone *)

Ltac split_branches :=
  repeat first
    [ progress simpl
    | match goal with
      | |- context [if ?b then _ else _] => destruct b
      | |- context [match ?o with Some _ => _ | None => _ end] => destruct o
      end ].

Lemma foldl_invariant {A} (P : State -> Prop) (f : State -> A -> State) l s :
  (forall s x, P s -> P (f s x)) -> P s -> P (foldl f s l).
Proof. intros Hf. revert s. induction l; simpl; auto. Qed.

Lemma wireCloseButton_frame m s b :
  wiringFrame (wireCloseButton m s b) = wiringFrame s.
Proof. unfold wireCloseButton. by split_branches. Qed.

Lemma setupModalCloseListeners_frame m s :
  wiringFrame (setupModalCloseListeners m s) = wiringFrame s.
Proof.
  unfold setupModalCloseListeners.
  change (wiringFrame (foldl (wireCloseButton m) s
            (querySelectorAll m [ByClass "modal-close"; ByClass "close-btn";
               ByClass "el-dialog__close"; ByClass "el-drawer__close"]))
          = wiringFrame s).
  apply (foldl_invariant (fun s' => wiringFrame s' = wiringFrame s)); [|done].
  intros s' b <-. apply wireCloseButton_frame.
Qed.

Lemma addBackdropClose_frame m s :
  wiringFrame (addBackdropClose m s) = wiringFrame s.
Proof. unfold addBackdropClose. by split_branches. Qed.

Lemma wiring_registry s s' :
  wiringFrame s = wiringFrame s' -> registryFrame s = registryFrame s'.
Proof. unfold wiringFrame, registryFrame. intros [=]. congruence. Qed.

Lemma wiring_bodyAttrs s s' :
  wiringFrame s = wiringFrame s' -> bodyAttrs s = bodyAttrs s'.
Proof. unfold wiringFrame. intros [=]. congruence. Qed.

Lemma preventBackgroundScroll_frame s :
  registryFrame (preventBackgroundScroll s) = registryFrame s.
Proof. unfold preventBackgroundScroll. by split_branches. Qed.

Lemma setModalStyles_frame m s :
  registryFrame (setModalStyles m s) = registryFrame s.
Proof. unfold setModalStyles, addTopIndicator. by split_branches. Qed.

Lemma optimizeModalScroll_frame m s :
  wiringFrame (optimizeModalScroll m s)
  = wiringFrame (setStyleWrites (styleWrites (optimizeModalScroll m s)) s).
Proof. unfold optimizeModalScroll. by split_branches. Qed.

Lemma applyModalOptimizations_frame m s :
  registryFrame (applyModalOptimizations m s) = registryFrame s.
Proof.
  unfold applyModalOptimizations.
  rewrite (wiring_registry _ _ (optimizeModalScroll_frame _ _)).
  change (registryFrame (setStyleWrites ?w ?s0)) with (registryFrame s0).
  rewrite (wiring_registry _ _ (addBackdropClose_frame _ _)).
  rewrite preventBackgroundScroll_frame, setModalStyles_frame. reflexivity.
Qed.

Lemma applyModalOptimizations_locks m s :
  hasBodyAttribute lockAttr (applyModalOptimizations m s) = true.
Proof.
  unfold applyModalOptimizations, hasBodyAttribute.
  rewrite (wiring_bodyAttrs _ _ (optimizeModalScroll_frame _ _)).
  change (bodyAttrs (setStyleWrites ?w ?s0)) with (bodyAttrs s0).
  rewrite (wiring_bodyAttrs _ _ (addBackdropClose_frame _ _)).
  apply preventBackgroundScroll_locks.
Qed.

Lemma registry_activeModals s s' :
  registryFrame s = registryFrame s' -> activeModals s = activeModals s'.
Proof. unfold registryFrame. intros [=]. congruence. Qed.

Lemma wiring_activeModals s s' :
  wiringFrame s = wiringFrame s' -> activeModals s = activeModals s'.
Proof. intros H. by apply registry_activeModals, wiring_registry. Qed.

Lemma listenerFrame_prevent s :
  listenerFrame (preventBackgroundScroll s) = listenerFrame s.
Proof. unfold preventBackgroundScroll. by split_branches. Qed.

Lemma listenerFrame_setModalStyles m s :
  listenerFrame (setModalStyles m s) = listenerFrame s.
Proof. unfold setModalStyles, addTopIndicator. by split_branches. Qed.

Lemma listenerFrame_scroll m s :
  listenerFrame (optimizeModalScroll m s) = listenerFrame s.
Proof. unfold optimizeModalScroll. by split_branches. Qed.

Lemma listenerFrame_listeners s s' :
  listenerFrame s = listenerFrame s' -> listeners s = listeners s'.
Proof. unfold listenerFrame. intros [=]. congruence. Qed.

(** ** Registration *)

(** Wiring the close buttons adds at most one listener per button. *)
Lemma wireCloseButtons_listeners m btns : forall s,
  exists added,
    listeners (foldl (wireCloseButton m) s btns) = listeners s ++ added
    /\ NoDup added
    /\ forall l, l ∈ added ->
         handler l = OnCloseButton m /\ eventType l = "click"
         /\ closeMark (target l) ∉ marks s.
Proof.
  induction btns as [|b btns IH]; intros s; simpl.
  - exists []. rewrite app_nil_r. split; [done|]. split; [constructor|].
    intros l Hl. inversion Hl.
  - unfold wireCloseButton at 2. fold (closeMark (eid b)).
    case_bool_decide as Hb; simpl.
    + apply IH.
    + destruct (IH (setListeners
                      (listeners s ++ [mkListener (eid b) "click" (OnCloseButton m)])
                      (setMarks ({[closeMark (eid b)]} ∪ marks s) s)))
        as (added & Hl & Hnd & Hall).
      exists (mkListener (eid b) "click" (OnCloseButton m) :: added).
      split; [rewrite Hl; simpl; by rewrite <- app_assoc|].
      split.
      * apply NoDup_cons. split; [|done]. intros Hin.
        destruct (Hall _ Hin) as (_ & _ & Hm). simpl in Hm.
        apply Hm, elem_of_union_l, elem_of_singleton. reflexivity.
      * intros l [->|Hin]%elem_of_cons; [done|].
        destruct (Hall _ Hin) as (? & ? & Hm). simpl in Hm.
        split; [done|]. split; [done|].
        intros Hin'. by apply Hm, elem_of_union_r.
Qed.

Section Registration.

Variable getComputedStyle :
  gmap string string -> gmap string string -> string -> string.

Lemma optimizeModal_registered m s :
  includes (activeModals s) m = true -> optimizeModal getComputedStyle m s = s.
Proof. unfold optimizeModal. by intros ->. Qed.

Lemma optimizeModal_new m s :
  includes (activeModals s) m = false ->
  activeModals (optimizeModal getComputedStyle m s) = activeModals s ++ [m].
Proof.
  unfold optimizeModal. intros ->.
  rewrite (wiring_activeModals _ _ (setupModalCloseListeners_frame _ _)).
  rewrite (registry_activeModals _ _ (applyModalOptimizations_frame _ _)).
  by rewrite (proj2 (proj2 (saveBodyStyles_body _ _))).
Qed.

Lemma optimizeModal_includes m s :
  includes (activeModals (optimizeModal getComputedStyle m s)) m = true.
Proof.
  destruct (includes (activeModals s) m) eqn:E.
  - by rewrite optimizeModal_registered.
  - rewrite optimizeModal_new by done. apply includes_ids.
    unfold ids. rewrite map_app. set_solver.
Qed.

Lemma optimizeModal_NoDup m s :
  NoDup (ids (activeModals s)) -> NoDup (ids (activeModals (optimizeModal getComputedStyle m s))).
Proof.
  intros Hnd. destruct (includes (activeModals s) m) eqn:E.
  - by rewrite optimizeModal_registered.
  - rewrite optimizeModal_new by done. unfold ids. rewrite map_app.
    apply NoDup_app. split; [done|]. split; [|apply NoDup_singleton].
    intros i Hi [->|[]%elem_of_nil]%elem_of_cons.
    apply includes_false_ids in E. done.
Qed.

Lemma optimizeModal_listeners m s :
  includes (activeModals s) m = false ->
  exists wired,
    listeners (optimizeModal getComputedStyle m s)
    = listeners s ++ wired ++ [mkListener (eid m) "close" (OnCloseSignal m)]
    /\ NoDup wired
    /\ forall l, l ∈ wired ->
         eventType l = "click"
         /\ (handler l = OnCloseButton m \/ handler l = OnBackdrop (target l) m).
Proof.
  unfold optimizeModal. intros ->.
  unfold setupModalCloseListeners. simpl.
  match goal with
  | |- context [foldl (wireCloseButton m) ?s0 ?btns] =>
      destruct (wireCloseButtons_listeners m btns s0) as (added & -> & Hnd & Hall)
  end.
  unfold applyModalOptimizations.
  rewrite (listenerFrame_listeners _ _ (listenerFrame_scroll _ _)).
  match goal with
  | |- context [addBackdropClose m ?s0] =>
      assert (Hbd : exists bd,
                 listeners (addBackdropClose m s0) = listeners s ++ bd
                 /\ NoDup bd
                 /\ forall l, l ∈ bd ->
                      eventType l = "click" /\ handler l = OnBackdrop (target l) m)
  end.
  { unfold addBackdropClose.
    match goal with
    | |- context [listeners (match ?q with _ => _ end)] => destruct q as [b|]
    end.
    - destruct (negb _); simpl.
      + exists [mkListener (eid b) "click" (OnBackdrop (eid b) m)].
        split; [|split; [apply NoDup_singleton|]].
        * f_equal.
          rewrite (listenerFrame_listeners _ _ (listenerFrame_prevent _)).
          rewrite (listenerFrame_listeners _ _ (listenerFrame_setModalStyles _ _)).
          unfold saveBodyStyles. by case_bool_decide.
        * intros l [->|[]%elem_of_nil]%elem_of_cons. done.
      + exists []. rewrite app_nil_r. split; [|split; [constructor|]].
        * rewrite (listenerFrame_listeners _ _ (listenerFrame_prevent _)).
          rewrite (listenerFrame_listeners _ _ (listenerFrame_setModalStyles _ _)).
          unfold saveBodyStyles. by case_bool_decide.
        * intros l Hl. inversion Hl.
    - exists []. rewrite app_nil_r. split; [|split; [constructor|]].
      + rewrite (listenerFrame_listeners _ _ (listenerFrame_prevent _)).
        rewrite (listenerFrame_listeners _ _ (listenerFrame_setModalStyles _ _)).
        unfold saveBodyStyles. by case_bool_decide.
      + intros l Hl. inversion Hl. }
  destruct Hbd as (bd & -> & Hbnd & Hball).
  exists (bd ++ added). split; [by rewrite <- !app_assoc|]. split.
  - apply NoDup_app. split; [done|]. split; [|done].
    intros l Hl1 Hl2. destruct (Hball _ Hl1) as [_ H1].
    destruct (Hall _ Hl2) as (H2 & _). congruence.
  - intros l [Hl|Hl]%elem_of_app.
    + destruct (Hball _ Hl). auto.
    + destruct (Hall _ Hl) as (? & ? & _). auto.
Qed.

(** C6. A second call of [optimizeModal] on the same root changes
    nothing.  After the two calls the root is in the registry, once when
    the registry had no duplicates; when the root was registered before
    the calls nothing was done at all, and otherwise the calls appended
    the root and attached one set of listeners: pairwise distinct click
    listeners (one per close button not yet wired, one for the backdrop
    if it was not yet wired) and one listener for the root's ['close']
    signal. *)
Theorem optimizeModal_twice m s :
  let s2 := optimizeModal getComputedStyle m (optimizeModal getComputedStyle m s) in
  s2 = optimizeModal getComputedStyle m s
  /\ eid m ∈ ids (activeModals s2)
  /\ (NoDup (ids (activeModals s)) -> NoDup (ids (activeModals s2)))
  /\ (includes (activeModals s) m = true -> s2 = s)
  /\ (includes (activeModals s) m = false ->
      activeModals s2 = activeModals s ++ [m]
      /\ exists wired,
           listeners s2
           = listeners s ++ wired ++ [mkListener (eid m) "close" (OnCloseSignal m)]
           /\ NoDup wired
           /\ forall l, l ∈ wired ->
                eventType l = "click"
                /\ (handler l = OnCloseButton m
                    \/ handler l = OnBackdrop (target l) m)).
Proof.
  intros s2.
  assert (Hidem : s2 = optimizeModal getComputedStyle m s).
  { apply optimizeModal_registered, optimizeModal_includes. }
  rewrite Hidem. split; [done|].
  split; [apply includes_ids, optimizeModal_includes|].
  split; [apply optimizeModal_NoDup|].
  split; [apply optimizeModal_registered|].
  intros Hnew. split; [by apply optimizeModal_new|].
  by apply optimizeModal_listeners.
Qed.

End Registration.

(** ** The close sequence *)

Lemma core_activeModals s s' : core s = core s' -> activeModals s = activeModals s'.
Proof. unfold core. intros [=]. congruence. Qed.

Lemma core_dispatched s s' : core s = core s' -> dispatched s = dispatched s'.
Proof. unfold core. intros [=]. congruence. Qed.

Lemma core_optimized s s' : core s = core s' -> optimized s = optimized s'.
Proof. unfold core. intros [=]. congruence. Qed.

Lemma core_bodyAttrs s s' : core s = core s' -> bodyAttrs s = bodyAttrs s'.
Proof. unfold core. intros [=]. congruence. Qed.

Lemma loopFrame_timers s s' : loopFrame s = loopFrame s' -> timers s = timers s'.
Proof. unfold loopFrame. intros [=]. congruence. Qed.

Lemma loopFrame_innerWidth s s' :
  loopFrame s = loopFrame s' -> innerWidth s = innerWidth s'.
Proof. unfold loopFrame. intros [=]. congruence. Qed.

Lemma setActiveModals_id s : setActiveModals (activeModals s) s = s.
Proof. by destruct s. Qed.

Lemma restoreBodyStyles_activeModals s :
  activeModals (restoreBodyStyles s) = activeModals s.
Proof. unfold restoreBodyStyles. by split_branches. Qed.

Lemma restoreBodyStyles_loopFrame s :
  loopFrame (restoreBodyStyles s) = loopFrame s.
Proof. unfold restoreBodyStyles. by split_branches. Qed.

Lemma restoreBodyStyles_core s s' :
  core s = core s' -> core (restoreBodyStyles s) = core (restoreBodyStyles s').
Proof.
  destruct s, s'. unfold core. simpl. intros [= -> -> -> -> -> ->].
  unfold restoreBodyStyles, hasBodyAttribute. by split_branches.
Qed.

(** [doCloseModal], with the index arithmetic folded away. *)
Lemma doCloseModal_unfold m s :
  doCloseModal m s =
  let s1 := setOptimized (optimized s ∖ {[eid m]})
              (setActiveModals (removeFirst m (activeModals s)) s) in
  let s2 := if bool_decide (length (activeModals s1) = 0)
            then restoreBodyStyles s1 else s1 in
  setDispatched (dispatched s2 ++ [closedEvent m]) s2.
Proof.
  unfold doCloseModal. rewrite <- splice_indexOf.
  destruct (-1 <? indexOf (activeModals s) m)%Z; [reflexivity|].
  by rewrite setActiveModals_id.
Qed.

Lemma doCloseModal_activeModals m s :
  activeModals (doCloseModal m s) = removeFirst m (activeModals s).
Proof.
  rewrite doCloseModal_unfold. simpl.
  case_bool_decide; [|done]. by rewrite restoreBodyStyles_activeModals.
Qed.

Lemma doCloseModal_dispatched m s :
  dispatched (doCloseModal m s) = dispatched s ++ [closedEvent m].
Proof.
  rewrite doCloseModal_unfold. simpl. case_bool_decide; [|done].
  unfold restoreBodyStyles. by split_branches.
Qed.

Lemma doCloseModal_optimized m s :
  optimized (doCloseModal m s) = optimized s ∖ {[eid m]}.
Proof.
  rewrite doCloseModal_unfold. simpl. case_bool_decide; [|done].
  unfold restoreBodyStyles. by split_branches.
Qed.

Lemma doCloseModal_loopFrame m s :
  loopFrame (doCloseModal m s) = loopFrame s.
Proof.
  rewrite doCloseModal_unfold. simpl. case_bool_decide; [|done].
  unfold restoreBodyStyles. by split_branches.
Qed.

Lemma doCloseModal_unlocks_when_empty m s :
  removeFirst m (activeModals s) = [] ->
  hasBodyAttribute lockAttr (doCloseModal m s) = false.
Proof.
  intros Hempty. rewrite doCloseModal_unfold. simpl. rewrite Hempty. simpl.
  apply restoreBodyStyles_unlocks.
Qed.

Lemma doCloseModal_body_when_others m s :
  removeFirst m (activeModals s) ≠ [] ->
  bodyAttrs (doCloseModal m s) = bodyAttrs s
  /\ bodyStyle (doCloseModal m s) = bodyStyle s
  /\ originalBodyStyles (doCloseModal m s) = originalBodyStyles s.
Proof.
  intros Hne. rewrite doCloseModal_unfold. simpl.
  rewrite bool_decide_eq_false_2; [done|].
  by rewrite length_zero_iff_nil.
Qed.

Lemma doCloseModal_core m s s' :
  core s = core s' -> core (doCloseModal m s) = core (doCloseModal m s').
Proof.
  intros H. rewrite !doCloseModal_unfold.
  assert (Hc : forall x y, core x = core y ->
            core (setDispatched (dispatched x ++ [closedEvent m]) x)
            = core (setDispatched (dispatched y ++ [closedEvent m]) y)).
  { intros x y. unfold core. simpl. intros [=]. congruence. }
  apply Hc. simpl.
  assert (Ha : activeModals s' = activeModals s)
    by (revert H; unfold core; intros [=]; congruence).
  rewrite Ha.
  assert (H1 : core (setOptimized (optimized s ∖ {[eid m]})
                       (setActiveModals (removeFirst m (activeModals s)) s))
               = core (setOptimized (optimized s' ∖ {[eid m]})
                       (setActiveModals (removeFirst m (activeModals s)) s'))).
  { revert H. unfold core. simpl. intros [=]. congruence. }
  case_bool_decide; [by apply restoreBodyStyles_core | done].
Qed.

(** ** Timers *)

Lemma runCallback_core cb s s' :
  core s = core s' -> core (runCallback cb s) = core (runCallback cb s').
Proof. destruct cb; simpl; [done | apply doCloseModal_core]. Qed.

Lemma runTimers_core deadline q : forall s s',
  core s = core s' ->
  core (runTimers deadline q s) = core (runTimers deadline q s').
Proof.
  induction q as [|t q IH]; intros s s' H; simpl; [done|].
  destruct (due t <=? deadline)%Z; [|done].
  apply IH, runCallback_core. exact H.
Qed.

(** A timer that is not yet due does not take part. *)
Lemma runTimers_enqueue_later deadline t q : forall s s',
  (deadline < due t)%Z -> core s = core s' ->
  core (runTimers deadline (enqueue t q) s) = core (runTimers deadline q s').
Proof.
  induction q as [|u q IH]; intros s s' Hlt H; simpl.
  - by replace (due t <=? deadline)%Z with false by (symmetry; apply Z.leb_gt; lia).
  - destruct (due u <=? due t)%Z eqn:Hut; simpl.
    + destruct (due u <=? deadline)%Z; [|done].
      apply IH; [done|]. apply runCallback_core. exact H.
    + apply Z.leb_gt in Hut.
      replace (due t <=? deadline)%Z with false by (symmetry; apply Z.leb_gt; lia).
      by replace (due u <=? deadline)%Z with false by (symmetry; apply Z.leb_gt; lia).
Qed.

(** At its due time a timer fires behind all timers due by then. *)
Lemma runTimers_enqueue_due t q : forall s s',
  core s = core s' ->
  core (runTimers (due t) (enqueue t q) s)
  = core (runCallback (callback t) (runTimers (due t) q s')).
Proof.
  induction q as [|u q IH]; intros s s' H; simpl.
  - rewrite Z.leb_refl. apply runCallback_core. exact H.
  - destruct (due u <=? due t)%Z eqn:Hut; simpl.
    + rewrite Hut. apply IH, runCallback_core. exact H.
    + rewrite Z.leb_refl. simpl. rewrite Hut.
      apply runCallback_core. exact H.
Qed.

Lemma runTimers_due deadline t q s :
  (due t <= deadline)%Z ->
  runTimers deadline (t :: q) s
  = runTimers deadline q (runCallback (callback t) (setTimers q (setClock (due t) s))).
Proof. intros H. simpl. by rewrite (proj2 (Z.leb_le _ _) H). Qed.

Lemma runTimers_later deadline t q s :
  (deadline < due t)%Z -> runTimers deadline (t :: q) s = s.
Proof. intros H. simpl. by rewrite (proj2 (Z.leb_gt _ _) H). Qed.

(** No callback sets a timer, which is what [runTimers] relies on. *)
Lemma runCallback_timers cb s : timers (runCallback cb s) = timers s.
Proof.
  destruct cb; [done|].
  apply loopFrame_timers, doCloseModal_loopFrame.
Qed.

Lemma advance_idle d s : timers s = [] -> advance d s = setClock (clock s + d) s.
Proof. unfold advance. by intros ->. Qed.

Lemma closeModal_mobile m s :
  isMobile s = true ->
  closeModal m s =
  setTimeout (DoClose m) 300
    (writeStyles (eid (findModalContent m))
       [("transform", "translateY(100%) !important")] s).
Proof. unfold closeModal. by intros ->. Qed.

Lemma closeModal_desktop m s :
  isMobile s = false -> closeModal m s = doCloseModal m s.
Proof. unfold closeModal. by intros ->. Qed.

(** The one pending close of an otherwise idle page, 300 ms later. *)
Lemma advance_close_idle m s :
  isMobile s = true -> timers s = [] ->
  advance 300 (closeModal m s) =
  setClock (clock s + 300)
    (doCloseModal m
       (setTimers []
          (setClock (clock s + 300)
             (closeModal m s)))).
Proof.
  intros Hm Hq. rewrite closeModal_mobile by done.
  unfold advance, setTimeout. simpl. rewrite Hq. simpl.
  by rewrite Z.leb_refl.
Qed.

(** C3. With a mobile-width viewport at the time of the trigger,
    [closeModal] itself changes neither the registry, nor the snapshot, the
    body's attributes and style, the marker classes or the dispatched
    events; at any time less than 300 ms later these are what they would
    be had the close not been triggered (unchanged, when no other timer is
    pending), and at 300 ms [doCloseModal] has run.  With a desktop-width
    viewport [closeModal] is [doCloseModal]: the overlay leaves the
    registry and loses its marker class at once, and the body is unlocked
    at once when no other overlay remains. *)
Theorem close_deferred_on_mobile m s :
  (isMobile s = true ->
     core (closeModal m s) = core s
     /\ (forall d, (0 <= d < 300)%Z ->
           (core (advance d (closeModal m s)) = core (advance d s))
           /\ (timers s = [] -> core (advance d (closeModal m s)) = core s))
     /\ core (advance 300 (closeModal m s)) = core (doCloseModal m (advance 300 s))
     /\ (timers s = [] ->
           core (advance 300 (closeModal m s)) = core (doCloseModal m s)))
  /\ (isMobile s = false ->
        closeModal m s = doCloseModal m s
        /\ activeModals (closeModal m s) = removeFirst m (activeModals s)
        /\ (eid m ∉ optimized (closeModal m s))
        /\ (removeFirst m (activeModals s) = [] ->
              hasBodyAttribute lockAttr (closeModal m s) = false)).
Proof.
  split.
  - intros Hm. rewrite closeModal_mobile by done.
    set (t := mkTimer (clock s + 300) (DoClose m)).
    set (s0 := writeStyles _ _ s).
    assert (H0 : core s0 = core s) by reflexivity.
    split; [done|]. split; [|split].
    + intros d Hd.
      assert (Hgen : core (advance d (setTimeout (DoClose m) 300 s0))
                     = core (advance d s)).
      { unfold advance. simpl.
        change (core (runTimers (clock s + d) (enqueue t (timers s))
                        (setTimeout (DoClose m) 300 s0))
                = core (runTimers (clock s + d) (timers s) s)).
        apply runTimers_enqueue_later; [simpl; lia | done]. }
      split; [done|]. intros Hq. rewrite Hgen. by rewrite advance_idle.
    + unfold advance. simpl.
      change (core (runTimers (due t) (enqueue t (timers s))
                      (setTimeout (DoClose m) 300 s0))
              = core (doCloseModal m (setClock (clock s + 300)
                        (runTimers (clock s + 300) (timers s) s)))).
      rewrite (runTimers_enqueue_due t (timers s) _ s) by done.
      simpl. by apply doCloseModal_core.
    + intros Hq.
      change (core (advance 300 (setTimeout (DoClose m) 300 s0))
              = core (doCloseModal m s)).
      unfold advance. simpl.
      change (core (runTimers (due t) (enqueue t (timers s))
                      (setTimeout (DoClose m) 300 s0))
              = core (doCloseModal m s)).
      rewrite (runTimers_enqueue_due t (timers s) _ s) by done.
      rewrite Hq. simpl. reflexivity.
  - intros Hd. rewrite closeModal_desktop by done.
    split; [done|]. split; [apply doCloseModal_activeModals|].
    split; [|apply doCloseModal_unlocks_when_empty].
    rewrite doCloseModal_optimized.
    intros [_ Hn]%elem_of_difference. by apply Hn, elem_of_singleton.
Qed.

(** The state of an otherwise idle mobile page 300 ms after a close
    trigger. *)
Lemma advance_close_idle_fields m s :
  isMobile s = true -> timers s = [] ->
  let s1 := advance 300 (closeModal m s) in
  activeModals s1 = removeFirst m (activeModals s)
  /\ dispatched s1 = dispatched s ++ [closedEvent m]
  /\ optimized s1 = optimized s ∖ {[eid m]}
  /\ isMobile s1 = true
  /\ timers s1 = [].
Proof.
  intros Hm Hq s1. subst s1. rewrite advance_close_idle by done.
  set (s0 := setTimers [] (setClock (clock s + 300) (closeModal m s))).
  assert (Hcore : core s0 = core s).
  { subst s0. by rewrite closeModal_mobile. }
  assert (Hw : innerWidth s0 = innerWidth s).
  { subst s0. by rewrite closeModal_mobile. }
  split; [|split; [|split; [|split]]].
  - change (activeModals (doCloseModal m s0) = removeFirst m (activeModals s)).
    by rewrite doCloseModal_activeModals, (core_activeModals _ _ Hcore).
  - change (dispatched (doCloseModal m s0) = dispatched s ++ [closedEvent m]).
    by rewrite doCloseModal_dispatched, (core_dispatched _ _ Hcore).
  - change (optimized (doCloseModal m s0) = optimized s ∖ {[eid m]}).
    by rewrite doCloseModal_optimized, (core_optimized _ _ Hcore).
  - unfold isMobile in *.
    change ((innerWidth (doCloseModal m s0) <=? 768)%Z = true).
    by rewrite (loopFrame_innerWidth _ _ (doCloseModal_loopFrame _ _)), Hw.
  - change (timers (doCloseModal m s0) = []).
    by rewrite (loopFrame_timers _ _ (doCloseModal_loopFrame _ _)).
Qed.

(** ** The Escape key *)

Lemma keydown_escape_top l B s :
  activeModals s = l ++ [B] -> keydown "Escape" s = closeModal B s.
Proof.
  intros H. unfold keydown. rewrite H, lastOf_snoc.
  rewrite bool_decide_eq_true_2 by done.
  rewrite bool_decide_eq_true_2; [done|]. rewrite length_app. simpl. lia.
Qed.

Lemma keydown_empty key s : activeModals s = [] -> keydown key s = s.
Proof.
  intros H. unfold keydown. rewrite H.
  by destruct (bool_decide (key = "Escape")).
Qed.

Lemma NoDup_ids_snoc arr e :
  NoDup (ids (arr ++ [e])) -> NoDup (ids arr) /\ eid e ∉ ids arr.
Proof.
  unfold ids. rewrite map_app. intros (H1 & H2 & _)%NoDup_app.
  split; [done|]. intros Hin. apply (H2 _ Hin). simpl. apply list_elem_of_here.
Qed.

(** C4. With [A] and then [B] on top of the registry, Escape runs the
    close sequence on [B]: once it has completed (at once on a
    desktop-width viewport, after 300 ms on an otherwise idle mobile-width
    one) [B] alone has left the registry and received ['closed'], and [A]
    still carries its marker class; the next Escape runs the close
    sequence on [A], which then leaves as well.  Any key pressed while the
    registry is empty changes nothing. *)
Theorem escape_is_lifo l A B s :
  activeModals s = l ++ [A; B] ->
  NoDup (ids (l ++ [A; B])) ->
  keydown "Escape" s = closeModal B s
  /\ (isMobile s = false ->
        let s1 := keydown "Escape" s in
        activeModals s1 = l ++ [A]
        /\ dispatched s1 = dispatched s ++ [closedEvent B]
        /\ (eid A ∈ optimized s -> eid A ∈ optimized s1)
        /\ keydown "Escape" s1 = closeModal A s1
        /\ activeModals (keydown "Escape" s1) = l
        /\ dispatched (keydown "Escape" s1)
           = dispatched s ++ [closedEvent B; closedEvent A])
  /\ (isMobile s = true -> timers s = [] ->
        let s1 := advance 300 (keydown "Escape" s) in
        activeModals s1 = l ++ [A]
        /\ dispatched s1 = dispatched s ++ [closedEvent B]
        /\ (eid A ∈ optimized s -> eid A ∈ optimized s1)
        /\ keydown "Escape" s1 = closeModal A s1
        /\ activeModals (advance 300 (keydown "Escape" s1)) = l
        /\ dispatched (advance 300 (keydown "Escape" s1))
           = dispatched s ++ [closedEvent B; closedEvent A])
  /\ (forall s0 key, activeModals s0 = [] -> keydown key s0 = s0).
Proof.
  intros Hreg Hnd.
  assert (Hreg' : activeModals s = (l ++ [A]) ++ [B]) by by rewrite <- app_assoc.
  replace (l ++ [A; B]) with ((l ++ [A]) ++ [B]) in Hnd by by rewrite <- app_assoc.
  apply NoDup_ids_snoc in Hnd as [Hnd HB].
  apply NoDup_ids_snoc in Hnd as [Hnd HA].
  assert (HAB : eid A ≠ eid B).
  { intros Heq. apply HB. unfold ids. rewrite map_app, <- Heq. simpl.
    apply elem_of_app. right. apply list_elem_of_here. }
  assert (Hkey : keydown "Escape" s = closeModal B s)
    by by apply (keydown_escape_top (l ++ [A])).
  split; [exact Hkey|]. split; [|split; [|intros; by apply keydown_empty]].
  - intros Hd s1. subst s1. rewrite Hkey, closeModal_desktop by done.
    assert (H1 : activeModals (doCloseModal B s) = l ++ [A]).
    { by rewrite doCloseModal_activeModals, Hreg', removeFirst_last. }
    assert (Hd1 : isMobile (doCloseModal B s) = false).
    { unfold isMobile in *.
      by rewrite (loopFrame_innerWidth _ _ (doCloseModal_loopFrame _ _)). }
    split; [exact H1|]. split; [apply doCloseModal_dispatched|].
    split.
    { rewrite doCloseModal_optimized. intros Hin.
      apply elem_of_difference. split; [done|].
      by intros Heq%elem_of_singleton. }
    rewrite (keydown_escape_top l A) by done.
    split; [done|]. rewrite closeModal_desktop by done.
    rewrite doCloseModal_activeModals, doCloseModal_dispatched, H1.
    rewrite doCloseModal_dispatched, removeFirst_last by done.
    by rewrite <- app_assoc.
  - intros Hm Hq s1. subst s1. rewrite Hkey.
    destruct (advance_close_idle_fields B s Hm Hq) as (H1 & H2 & H3 & H4 & H5).
    rewrite Hreg', removeFirst_last in H1 by done.
    split; [exact H1|]. split; [exact H2|]. split.
    { rewrite H3. intros Hin. apply elem_of_difference. split; [done|].
      by intros Heq%elem_of_singleton. }
    rewrite (keydown_escape_top l A) by done. split; [done|].
    destruct (advance_close_idle_fields A _ H4 H5) as (G1 & G2 & _).
    rewrite G1, G2, H1, H2, removeFirst_last by done.
    by rewrite <- app_assoc.
Qed.

(** ** Closing what is not registered *)

Lemma doCloseModal_isMobile m s : isMobile (doCloseModal m s) = isMobile s.
Proof.
  unfold isMobile.
  by rewrite (loopFrame_innerWidth _ _ (doCloseModal_loopFrame _ _)).
Qed.

(** Two Escape presses [d] ms apart on an otherwise idle mobile page, and
    the page 300 ms after the second. *)
Lemma double_escape_mobile l m d s :
  isMobile s = true -> timers s = [] -> activeModals s = l ++ [m] ->
  (0 <= d < 300)%Z ->
  exists s1 s2,
    advance 300 (keydown "Escape" (advance d (keydown "Escape" s)))
    = setClock (clock s + d + 300) (doCloseModal m s2)
    /\ core s2 = core (doCloseModal m s1)
    /\ core s1 = core s.
Proof.
  intros Hm Hq Hreg Hd.
  rewrite (keydown_escape_top l m s) by done.
  rewrite (closeModal_mobile m s) by done.
  set (s0 := writeStyles _ _ s).
  set (t1 := mkTimer (clock s + 300) (DoClose m)).
  set (t2 := mkTimer (clock s + d + 300) (DoClose m)).
  assert (Hs1 : setTimeout (DoClose m) 300 s0 = setTimers [t1] s0).
  { unfold setTimeout. subst s0. simpl. by rewrite Hq. }
  rewrite Hs1.
  assert (Hadv : advance d (setTimers [t1] s0)
                 = setClock (clock s + d) (setTimers [t1] s0)).
  { unfold advance.
    change (timers (setTimers [t1] s0)) with [t1].
    change (clock (setTimers [t1] s0)) with (clock s).
    rewrite runTimers_later; [done|]. simpl. lia. }
  rewrite Hadv.
  rewrite (keydown_escape_top l m) by exact Hreg.
  rewrite closeModal_mobile by exact Hm.
  set (s0' := writeStyles _ _ (setClock _ _)).
  assert (Hs2 : setTimeout (DoClose m) 300 s0' = setTimers [t1; t2] s0').
  { unfold setTimeout. subst s0'. simpl.
    by replace (clock s + 300 <=? clock s + d + 300)%Z with true
      by (symmetry; apply Z.leb_le; lia). }
  rewrite Hs2. unfold advance.
  change (timers (setTimers [t1; t2] s0')) with [t1; t2].
  change (clock (setTimers [t1; t2] s0')) with (clock s + d)%Z.
  replace (clock s + d + 300)%Z with (due t2) by reflexivity.
  rewrite runTimers_due by (simpl; lia).
  rewrite runTimers_due by (simpl; lia).
  change (runTimers (due t2) [] ?x) with x.
  eexists _, _. split; [reflexivity|]. split; reflexivity.
Qed.

(** C10. [doCloseModal] on a node that is not in the registry leaves the
    registry as it is, strips the marker class from the node and
    dispatches ['closed'] on it.  Triggering the close sequence twice on
    one overlay dispatches ['closed'] twice: at once on a desktop-width
    viewport, and 300 ms after the second of two Escape presses less than
    300 ms apart on an otherwise idle mobile-width one. *)
Theorem close_of_unregistered m s :
  (includes (activeModals s) m = false ->
     activeModals (doCloseModal m s) = activeModals s
     /\ (eid m ∉ optimized (doCloseModal m s))
     /\ dispatched (doCloseModal m s) = dispatched s ++ [closedEvent m])
  /\ (isMobile s = false ->
        dispatched (closeModal m (closeModal m s))
        = dispatched s ++ [closedEvent m; closedEvent m])
  /\ (forall l d,
        isMobile s = true -> timers s = [] -> activeModals s = l ++ [m] ->
        (0 <= d < 300)%Z ->
        dispatched (advance 300 (keydown "Escape" (advance d (keydown "Escape" s))))
        = dispatched s ++ [closedEvent m; closedEvent m]).
Proof.
  split; [|split].
  - intros Hout. apply includes_false_ids in Hout.
    rewrite doCloseModal_activeModals, doCloseModal_optimized,
      doCloseModal_dispatched.
    split; [by apply removeFirst_absent|]. split; [|done].
    intros [_ Hn]%elem_of_difference. by apply Hn, elem_of_singleton.
  - intros Hd. rewrite (closeModal_desktop m s) by done.
    rewrite closeModal_desktop by by rewrite doCloseModal_isMobile.
    rewrite !doCloseModal_dispatched. by rewrite <- app_assoc.
  - intros l d Hm Hq Hreg Hd.
    destruct (double_escape_mobile l m d s Hm Hq Hreg Hd)
      as (s1 & s2 & -> & H2 & H1).
    change (dispatched (doCloseModal m s2)
            = dispatched s ++ [closedEvent m; closedEvent m]).
    rewrite doCloseModal_dispatched, (core_dispatched _ _ H2).
    rewrite doCloseModal_dispatched, (core_dispatched _ _ H1).
    by rewrite <- app_assoc.
Qed.

(** ** Removal from the tree *)

Lemma dropIfRegistered_unfold s m :
  dropIfRegistered s m = setActiveModals (removeFirst m (activeModals s)) s.
Proof.
  unfold dropIfRegistered. rewrite <- splice_indexOf.
  destruct (-1 <? indexOf (activeModals s) m)%Z; [done|].
  by rewrite setActiveModals_id.
Qed.

Lemma foldl_dropIfRegistered l : forall s,
  foldl dropIfRegistered s l = setActiveModals (removeAll l (activeModals s)) s.
Proof.
  induction l as [|m l IH]; intros s; simpl.
  - by rewrite setActiveModals_id.
  - rewrite IH, dropIfRegistered_unfold. reflexivity.
Qed.

Lemma checkForModalRemoval_unfold e s :
  checkForModalRemoval e s =
  let s1 := if includes (activeModals s) e
            then setActiveModals (removeFirst e (activeModals s)) (restoreBodyStyles s)
            else s in
  setActiveModals
    (removeAll (querySelectorAll e removalSelectors) (activeModals s1)) s1.
Proof.
  unfold checkForModalRemoval. rewrite foldl_dropIfRegistered.
  rewrite indexOf_includes.
  destruct (includes (activeModals s) e) eqn:E; [|done].
  rewrite restoreBodyStyles_activeModals.
  pose proof (splice_indexOf (activeModals s) e) as H.
  rewrite indexOf_includes, E in H. by rewrite H.
Qed.

Lemma ids_removeAll_subset l : forall arr i,
  i ∈ ids (removeAll l arr) -> i ∈ ids arr.
Proof.
  induction l as [|m l IH]; intros arr i; simpl; [done|].
  intros H. eapply ids_removeFirst_subset, IH, H.
Qed.

Lemma NoDup_removeAll l : forall arr,
  NoDup (ids arr) -> NoDup (ids (removeAll l arr)).
Proof.
  induction l as [|m l IH]; intros arr H; simpl; [done|].
  by apply IH, NoDup_removeFirst.
Qed.

Lemma removeAll_gone l : forall arr m,
  NoDup (ids arr) -> m ∈ l -> eid m ∉ ids (removeAll l arr).
Proof.
  induction l as [|x l IH]; intros arr m Hnd Hin; [inversion Hin|].
  simpl. apply elem_of_cons in Hin as [->|Hin].
  - intros H. apply ids_removeAll_subset in H. by apply removeFirst_gone in H.
  - by apply IH; [apply NoDup_removeFirst|].
Qed.

Lemma checkForModalRemoval_loopFrame e s :
  loopFrame (checkForModalRemoval e s) = loopFrame s.
Proof.
  rewrite checkForModalRemoval_unfold. simpl.
  destruct (includes (activeModals s) e); [|done].
  change (loopFrame (restoreBodyStyles s) = loopFrame s).
  apply restoreBodyStyles_loopFrame.
Qed.

Lemma checkForModalRemoval_dispatched e s :
  dispatched (checkForModalRemoval e s) = dispatched s.
Proof.
  rewrite checkForModalRemoval_unfold. simpl.
  destruct (includes (activeModals s) e); [|done].
  simpl. unfold restoreBodyStyles. by split_branches.
Qed.

Lemma checkForModalRemoval_ids e s i :
  i ∈ ids (activeModals (checkForModalRemoval e s)) -> i ∈ ids (activeModals s).
Proof.
  rewrite checkForModalRemoval_unfold. simpl. intros H%ids_removeAll_subset.
  destruct (includes (activeModals s) e); [|done].
  by apply ids_removeFirst_subset in H.
Qed.

Lemma checkForModalRemoval_NoDup e s :
  NoDup (ids (activeModals s)) ->
  NoDup (ids (activeModals (checkForModalRemoval e s))).
Proof.
  intros H. rewrite checkForModalRemoval_unfold. simpl. apply NoDup_removeAll.
  destruct (includes (activeModals s) e); [|done].
  by apply NoDup_removeFirst.
Qed.

Lemma checkForModalRemoval_gone e s :
  NoDup (ids (activeModals s)) ->
  eid e ∉ ids (activeModals (checkForModalRemoval e s)).
Proof.
  intros Hnd. rewrite checkForModalRemoval_unfold. simpl.
  intros H%ids_removeAll_subset.
  destruct (includes (activeModals s) e) eqn:E.
  - by apply removeFirst_gone in H.
  - by apply includes_false_ids in E.
Qed.

(** C9. The loop of [checkForModalRemoval] over the descendants of the
    removed node does not touch the body: after the call the body's
    attributes and style and the snapshot are what the handling of the
    removed node itself left, so they are unchanged when the removed node
    is not a registered root.  In that case the registry loses the
    registered descendants that match the removal selectors, and the lock
    attribute stays as it was even when the registry ends up empty. *)
Theorem descendant_removal_keeps_body element s :
  let s' := checkForModalRemoval element s in
  let root := if includes (activeModals s) element then restoreBodyStyles s else s in
  (bodyAttrs s' = bodyAttrs root /\ bodyStyle s' = bodyStyle root
   /\ originalBodyStyles s' = originalBodyStyles root)
  /\ (includes (activeModals s) element = false ->
        bodyAttrs s' = bodyAttrs s /\ bodyStyle s' = bodyStyle s
        /\ originalBodyStyles s' = originalBodyStyles s
        /\ activeModals s'
           = removeAll (querySelectorAll element removalSelectors) (activeModals s)
        /\ (NoDup (ids (activeModals s)) ->
            forall modal, modal ∈ querySelectorAll element removalSelectors ->
                          eid modal ∉ ids (activeModals s'))
        /\ (activeModals s' = [] ->
            hasBodyAttribute lockAttr s' = hasBodyAttribute lockAttr s)).
Proof.
  intros s' root. subst s' root. rewrite checkForModalRemoval_unfold.
  split.
  - simpl. by destruct (includes (activeModals s) element).
  - intros ->. simpl. repeat split.
    intros Hnd modal Hin. by apply removeAll_gone.
Qed.

(** ** The mutation callback *)

Lemma wiring_handled s s' : wiringFrame s = wiringFrame s' -> handled s = handled s'.
Proof. unfold wiringFrame. intros [=]. congruence. Qed.

Lemma registry_handled s s' : registryFrame s = registryFrame s' -> handled s = handled s'.
Proof. unfold registryFrame. intros [=]. congruence. Qed.

Lemma loopFrame_handled s s' : loopFrame s = loopFrame s' -> handled s = handled s'.
Proof. unfold loopFrame. intros [=]. congruence. Qed.

Lemma loopFrame_clock s s' : loopFrame s = loopFrame s' -> clock s = clock s'.
Proof. unfold loopFrame. intros [=]. congruence. Qed.

Lemma querySelectorAll_descendants e sels x :
  x ∈ querySelectorAll e sels -> x ∈ descendants e.
Proof.
  unfold querySelectorAll. rewrite !list_elem_of_In, filter_In. tauto.
Qed.

Section Watcher.

Variable getComputedStyle :
  gmap string string -> gmap string string -> string -> string.

Lemma optimizeModal_handled m s :
  handled (optimizeModal getComputedStyle m s) = handled s.
Proof.
  unfold optimizeModal. destruct (includes (activeModals s) m); [done|].
  rewrite (wiring_handled _ _ (setupModalCloseListeners_frame _ _)).
  rewrite (registry_handled _ _ (applyModalOptimizations_frame _ _)).
  unfold saveBodyStyles. by case_bool_decide.
Qed.

Lemma optimizeModal_ids m s i :
  i ∈ ids (activeModals (optimizeModal getComputedStyle m s)) ->
  i ∈ ids (activeModals s) \/ i = eid m.
Proof.
  destruct (includes (activeModals s) m) eqn:E.
  - rewrite optimizeModal_registered by done. auto.
  - rewrite optimizeModal_new by done. unfold ids. rewrite map_app. simpl.
    rewrite elem_of_app, list_elem_of_singleton. tauto.
Qed.

Lemma registerIfNew_optimizeModal s m :
  registerIfNew getComputedStyle s m = optimizeModal getComputedStyle m s.
Proof.
  unfold registerIfNew. destruct (includes (activeModals s) m) eqn:E; [|done].
  by rewrite optimizeModal_registered.
Qed.

Lemma checkForModal_handled e s :
  handled (checkForModal getComputedStyle e s) = handled s.
Proof.
  unfold checkForModal.
  apply (foldl_invariant (fun s' => handled s' = handled s)).
  - intros s' x <-. rewrite registerIfNew_optimizeModal.
    apply optimizeModal_handled.
  - destruct (_ && _); [apply optimizeModal_handled | done].
Qed.

Lemma checkForModal_NoDup e s :
  NoDup (ids (activeModals s)) ->
  NoDup (ids (activeModals (checkForModal getComputedStyle e s))).
Proof.
  intros H. unfold checkForModal.
  apply (foldl_invariant (fun s' => NoDup (ids (activeModals s')))).
  - intros s' x Hs'. rewrite registerIfNew_optimizeModal.
    by apply optimizeModal_NoDup.
  - destruct (_ && _); [by apply optimizeModal_NoDup | done].
Qed.

Lemma checkForModal_absent e s X :
  ~ mentions X (ElementNode e) ->
  eid X ∉ ids (activeModals s) ->
  eid X ∉ ids (activeModals (checkForModal getComputedStyle e s)).
Proof.
  simpl. intros Hm Hout. unfold checkForModal.
  set (children := querySelectorAll e modalSelectors).
  assert (Hch : forall x, x ∈ children -> eid X ≠ eid x).
  { intros x Hx%querySelectorAll_descendants Heq. apply Hm. right.
    rewrite Heq. unfold ids. apply list_elem_of_fmap. eauto. }
  clearbody children.
  match goal with
  | |- _ ∉ ids (activeModals (foldl _ ?s0 _)) =>
      assert (H0 : eid X ∉ ids (activeModals s0))
  end.
  { destruct (_ && _); [|done].
    intros [H|H]%optimizeModal_ids; [done|]. apply Hm. by left. }
  revert H0. generalize (if (matchesAny modalSelectors e
                              || (contains e "modal" || contains e "popup"
                                  || contains e "drawer"))
                             && negb (includes (activeModals s) e)
                          then optimizeModal getComputedStyle e s else s).
  induction children as [|x xs IH]; intros s0 H0; simpl; [done|].
  apply IH.
  - intros y Hy. apply Hch. by apply elem_of_cons; right.
  - rewrite registerIfNew_optimizeModal.
    intros [H|H]%optimizeModal_ids; [done|].
    apply (Hch x); [apply list_elem_of_here | done].
Qed.

Lemma onAdded_handled nodes : forall s,
  handled (foldl (onAdded getComputedStyle) s nodes)
  = handled s ++ map Addition (elementIds nodes).
Proof.
  induction nodes as [|n nodes IH]; intros s; simpl.
  - by rewrite app_nil_r.
  - rewrite IH. destruct n as [e|]; simpl; [|done].
    rewrite checkForModal_handled. simpl. by rewrite <- app_assoc.
Qed.

Lemma onRemoved_handled nodes : forall s,
  handled (foldl onRemoved s nodes)
  = handled s ++ map Removal (elementIds nodes).
Proof.
  induction nodes as [|n nodes IH]; intros s; simpl.
  - by rewrite app_nil_r.
  - rewrite IH. destruct n as [e|]; simpl; [|done].
    rewrite (loopFrame_handled _ _ (checkForModalRemoval_loopFrame _ _)).
    simpl. by rewrite <- app_assoc.
Qed.

Lemma onAdded_NoDup nodes : forall s,
  NoDup (ids (activeModals s)) ->
  NoDup (ids (activeModals (foldl (onAdded getComputedStyle) s nodes))).
Proof.
  induction nodes as [|n nodes IH]; intros s H; simpl; [done|].
  apply IH. destruct n as [e|]; simpl; [|done]. by apply checkForModal_NoDup.
Qed.

Lemma onRemoved_NoDup nodes : forall s,
  NoDup (ids (activeModals s)) ->
  NoDup (ids (activeModals (foldl onRemoved s nodes))).
Proof.
  induction nodes as [|n nodes IH]; intros s H; simpl; [done|].
  apply IH. destruct n as [e|]; simpl; [|done].
  by apply checkForModalRemoval_NoDup.
Qed.

Lemma onRemoved_absent nodes X : forall s,
  eid X ∉ ids (activeModals s) ->
  eid X ∉ ids (activeModals (foldl onRemoved s nodes)).
Proof.
  induction nodes as [|n nodes IH]; intros s H; simpl; [done|].
  apply IH. destruct n as [e|]; simpl; [|done].
  intros Hin. by apply checkForModalRemoval_ids in Hin.
Qed.

Lemma onRemoved_gone nodes X s :
  NoDup (ids (activeModals s)) ->
  ElementNode X ∈ nodes ->
  eid X ∉ ids (activeModals (foldl onRemoved s nodes)).
Proof.
  intros Hnd (before & after & ->)%list_elem_of_split.
  rewrite foldl_app. simpl. apply onRemoved_absent.
  apply checkForModalRemoval_gone. simpl.
  change (NoDup (ids (activeModals (foldl onRemoved s before)))).
  by apply onRemoved_NoDup.
Qed.

Lemma onAdded_absent nodes X : forall s,
  (forall n, n ∈ nodes -> ~ mentions X n) ->
  eid X ∉ ids (activeModals s) ->
  eid X ∉ ids (activeModals (foldl (onAdded getComputedStyle) s nodes)).
Proof.
  induction nodes as [|n nodes IH]; intros s Hm H; simpl; [done|].
  apply IH; [intros n' Hn'; apply Hm; by apply elem_of_cons; right|].
  destruct n as [e|]; simpl; [|done].
  apply checkForModal_absent; [|done].
  apply Hm, list_elem_of_here.
Qed.

Lemma onMutation_NoDup m s :
  NoDup (ids (activeModals s)) ->
  NoDup (ids (activeModals (onMutation getComputedStyle s m))).
Proof. intros H. unfold onMutation. by apply onRemoved_NoDup, onAdded_NoDup. Qed.

Lemma onMutations_NoDup batch : forall s,
  NoDup (ids (activeModals s)) ->
  NoDup (ids (activeModals (onMutations getComputedStyle batch s))).
Proof.
  unfold onMutations. induction batch as [|m batch IH]; intros s H; simpl; [done|].
  by apply IH, onMutation_NoDup.
Qed.

Lemma onMutations_absent batch X : forall s,
  (forall m n, m ∈ batch -> n ∈ addedNodes m -> ~ mentions X n) ->
  eid X ∉ ids (activeModals s) ->
  eid X ∉ ids (activeModals (onMutations getComputedStyle batch s)).
Proof.
  unfold onMutations.
  induction batch as [|m batch IH]; intros s Hm H; simpl; [done|].
  apply IH.
  - intros m' n Hm' Hn. apply (Hm m' n); [by apply elem_of_cons; right | done].
  - unfold onMutation. apply onRemoved_absent, onAdded_absent; [|done].
    intros n Hn. apply (Hm m n); [apply list_elem_of_here | done].
Qed.

End Watcher.

Section Batches.

Variable getComputedStyle :
  gmap string string -> gmap string string -> string -> string.

(** C8. When the mutation callback is handed the removal of a registered
    overlay root, the root is out of the registry when the callback
    returns; the callback sets no timer, lets no time pass and
    dispatches no event, so no ['closed'] reaches the root. *)
Theorem direct_removal_is_immediate X s :
  NoDup (ids (activeModals s)) ->
  includes (activeModals s) X = true ->
  let s' := onMutations getComputedStyle [mkMutation [] [ElementNode X]] s in
  includes (activeModals s') X = false
  /\ timers s' = timers s
  /\ clock s' = clock s
  /\ dispatched s' = dispatched s.
Proof.
  intros Hnd Hin s'. subst s'. unfold onMutations, onMutation. simpl.
  split; [|split; [|split]].
  - apply includes_false_ids. by apply checkForModalRemoval_gone.
  - by rewrite (loopFrame_timers _ _ (checkForModalRemoval_loopFrame _ _)).
  - by rewrite (loopFrame_clock _ _ (checkForModalRemoval_loopFrame _ _)).
  - by rewrite checkForModalRemoval_dispatched.
Qed.

(** C2, as the code has it.  The records of a batch are handled one
    after the other, and within a record every added element is handled
    before every removed element.  An element that a record lists as
    removed is therefore out of the registry once that record has been
    handled, whether or not the same record added it; it is out of the
    registry after the whole batch when no later record of the batch
    adds it, or an element containing it, again. *)
Theorem additions_before_removals_per_record s pre m post X :
  NoDup (ids (activeModals s)) ->
  ElementNode X ∈ removedNodes m ->
  let sm := onMutations getComputedStyle pre s in
  handled (onMutation getComputedStyle sm m)
  = handled sm ++ map Addition (elementIds (addedNodes m))
               ++ map Removal (elementIds (removedNodes m))
  /\ includes (activeModals (onMutation getComputedStyle sm m)) X = false
  /\ ((forall m' n, m' ∈ post -> n ∈ addedNodes m' -> ~ mentions X n) ->
      includes
        (activeModals (onMutations getComputedStyle (pre ++ m :: post) s)) X
      = false).
Proof.
  intros Hnd Hrem sm.
  assert (Hsm : NoDup (ids (activeModals sm))) by by apply onMutations_NoDup.
  assert (Hgone : eid X ∉ ids (activeModals (onMutation getComputedStyle sm m))).
  { unfold onMutation. apply onRemoved_gone; [|done]. by apply onAdded_NoDup. }
  split; [|split].
  - unfold onMutation. by rewrite onRemoved_handled, onAdded_handled, <- app_assoc.
  - by apply includes_false_ids.
  - intros Hlater. apply includes_false_ids.
    unfold onMutations. rewrite foldl_app. simpl.
    by apply (onMutations_absent getComputedStyle post X).
Qed.

End Batches.

(** ** The lock flag and the registry *)

Lemma lockInvariant_core s s' : core s = core s' -> lockInvariant s -> lockInvariant s'.
Proof.
  intros H. unfold lockInvariant, hasBodyAttribute.
  by rewrite (core_bodyAttrs _ _ H), (core_activeModals _ _ H).
Qed.

Lemma removeFirst_nonempty e arr : removeFirst e arr ≠ [] -> arr ≠ [].
Proof. by destruct arr. Qed.

Lemma doCloseModal_lockInvariant m s :
  lockInvariant s -> lockInvariant (doCloseModal m s).
Proof.
  intros Hinv. unfold lockInvariant. rewrite doCloseModal_activeModals.
  destruct (decide (removeFirst m (activeModals s) = [])) as [He|Hne].
  - rewrite doCloseModal_unlocks_when_empty by done. by rewrite He.
  - destruct (doCloseModal_body_when_others m s Hne) as (Ha & _).
    unfold hasBodyAttribute. rewrite Ha.
    split; [done|]. intros _. apply Hinv. by eapply removeFirst_nonempty.
Qed.

Lemma closeModal_lockInvariant m s :
  lockInvariant s -> lockInvariant (closeModal m s).
Proof.
  intros Hinv. destruct (isMobile s) eqn:E.
  - rewrite closeModal_mobile by done. by apply (lockInvariant_core s).
  - rewrite closeModal_desktop by done. by apply doCloseModal_lockInvariant.
Qed.

Lemma runTimers_lockInvariant deadline q : forall s,
  lockInvariant s -> lockInvariant (runTimers deadline q s).
Proof.
  induction q as [|t q IH]; intros s H; simpl; [done|].
  destruct (due t <=? deadline)%Z; [|done]. apply IH.
  destruct (callback t); simpl.
  - by apply (lockInvariant_core s).
  - apply doCloseModal_lockInvariant. by apply (lockInvariant_core s).
Qed.

Lemma advance_lockInvariant d s : lockInvariant s -> lockInvariant (advance d s).
Proof.
  intros H. unfold advance.
  apply (lockInvariant_core (runTimers (clock s + d) (timers s) s)); [done|].
  by apply runTimers_lockInvariant.
Qed.

Lemma keydown_lockInvariant key s : lockInvariant s -> lockInvariant (keydown key s).
Proof.
  intros H. unfold keydown. destruct (_ && _); [|done].
  destruct (lastOf _); [|done]. by apply closeModal_lockInvariant.
Qed.

Lemma dispatch_lockInvariant ty current tgt s :
  lockInvariant s -> lockInvariant (dispatch ty current tgt s).
Proof.
  intros H. unfold dispatch. apply foldl_invariant; [|done].
  intros s' l Hs'. unfold runHandler.
  destruct (handler l); try case_bool_decide; auto using closeModal_lockInvariant.
Qed.

Section LockInvariant.

Variable getComputedStyle :
  gmap string string -> gmap string string -> string -> string.

Lemma optimizeModal_lockInvariant m s :
  lockInvariant s -> lockInvariant (optimizeModal getComputedStyle m s).
Proof.
  intros Hinv. destruct (includes (activeModals s) m) eqn:E.
  - by rewrite optimizeModal_registered.
  - unfold lockInvariant. rewrite optimizeModal_new by done.
    split; [intros _; by destruct (activeModals s)|]. intros _.
    unfold optimizeModal. rewrite E. unfold hasBodyAttribute.
    rewrite (wiring_bodyAttrs _ _ (setupModalCloseListeners_frame _ _)).
    apply applyModalOptimizations_locks.
Qed.

Lemma checkForModal_lockInvariant e s :
  lockInvariant s -> lockInvariant (checkForModal getComputedStyle e s).
Proof.
  intros H. unfold checkForModal. apply foldl_invariant.
  - intros s' x Hs'. rewrite registerIfNew_optimizeModal.
    by apply optimizeModal_lockInvariant.
  - destruct (_ && _); [by apply optimizeModal_lockInvariant | done].
Qed.

(** Opening and closing keep the lock flag in step with the registry;
    only the handling of removed nodes does not. *)
Lemma lockInvariant_opensOrCloses s s' :
  lockInvariant s -> rtc (opensOrCloses getComputedStyle) s s' -> lockInvariant s'.
Proof.
  intros H Hsteps. induction Hsteps as [|s1 s2 s3 Hstep _ IH]; [done|].
  apply IH. destruct Hstep;
    auto using optimizeModal_lockInvariant, checkForModal_lockInvariant,
      keydown_lockInvariant, dispatch_lockInvariant, advance_lockInvariant.
Qed.

End LockInvariant.

(** ** The properties on the concrete page *)

Ltac by_evaluation := vm_compute; first [reflexivity | lia | done].
Ltac decided := apply (bool_decide_unpack _); vm_compute; exact I.

Lemma initialValue_nonempty p : initialValue p ≠ "".
Proof. unfold initialValue. by repeat case_bool_decide. Qed.

Lemma inlineCascade_sticks : computedValuesStick inlineCascade.
Proof.
  intros attrs inline inline' p H. unfold inlineCascade at 1. rewrite H.
  rewrite bool_decide_eq_false_2; [done|].
  unfold inlineCascade. destruct (inline !! p) as [v|];
    [case_bool_decide|]; auto using initialValue_nonempty.
Qed.

(** C1, at the inputs where the code breaks it.  Open [sheet], open
    [dialog], then remove [sheet] from the tree: the lock attribute is
    gone while [dialog] is still registered.  Add [wrapper] (which
    registers [sheet] below it), then remove [wrapper]: the registry is
    empty while the lock attribute is still set. *)
Theorem lock_flag_lost_on_removal :
  let s := onMutations inlineCascade
             [mkMutation [ElementNode sheet] []; mkMutation [ElementNode dialog] [];
              mkMutation [] [ElementNode sheet]] desktopPage in
  let s' := onMutations inlineCascade
              [mkMutation [ElementNode wrapper] []; mkMutation [] [ElementNode wrapper]]
              desktopPage in
  (ids (activeModals s) = [eid dialog] /\ hasBodyAttribute lockAttr s = false)
  /\ (activeModals s' = [] /\ hasBodyAttribute lockAttr s' = true).
Proof. vm_compute. auto. Qed.

(** C2 as stated fails on a batch of two records, the first removing the
    registered [sheet] and the second adding it again (the node was moved):
    the removal is handled before the addition, and [sheet], removed and
    added within the batch, is in the registry after the batch. *)
Lemma batch_handles_removal_before_addition :
  let s := onMutations inlineCascade
             [mkMutation [] [ElementNode sheet]; mkMutation [ElementNode sheet] []]
             desktopWithSheet in
  handled s = [Removal (eid sheet); Addition (eid sheet)]
  /\ includes (activeModals s) sheet = true.
Proof. vm_compute. auto. Qed.

(** A record that adds and removes [sheet], on the empty desktop page. *)
Lemma additions_before_removals_witness :
  let m := mkMutation [ElementNode sheet] [ElementNode sheet] in
  NoDup (ids (activeModals desktopPage))
  /\ ElementNode sheet ∈ removedNodes m
  /\ includes (activeModals (onMutation inlineCascade desktopPage m)) sheet = false
  /\ includes (activeModals (onMutations inlineCascade ([] ++ m :: []) desktopPage)) sheet
     = false.
Proof.
  intros m.
  assert (H1 : NoDup (ids (activeModals desktopPage))) by decided.
  assert (H2 : ElementNode sheet ∈ removedNodes m) by (simpl; apply list_elem_of_here).
  destruct (additions_before_removals_per_record inlineCascade desktopPage [] m [] sheet H1 H2)
    as (_ & Hrec & Hbatch).
  split; [exact H1|]. split; [exact H2|]. split; [exact Hrec|].
  apply Hbatch. intros m' n Hm'. inversion Hm'.
Defined.

(** Closing [sheet], on the mobile page and on the desktop page. *)
Lemma close_deferred_on_mobile_witness :
  (isMobile mobileWithSheet = true /\ timers mobileWithSheet = []
   /\ core (advance 100 (closeModal sheet mobileWithSheet)) = core mobileWithSheet
   /\ core (advance 300 (closeModal sheet mobileWithSheet))
      = core (doCloseModal sheet mobileWithSheet))
  /\ (isMobile desktopWithSheet = false
      /\ closeModal sheet desktopWithSheet = doCloseModal sheet desktopWithSheet
      /\ hasBodyAttribute lockAttr (closeModal sheet desktopWithSheet) = false).
Proof.
  assert (Hm : isMobile mobileWithSheet = true) by by_evaluation.
  assert (Hq : timers mobileWithSheet = []) by by_evaluation.
  assert (Hd : isMobile desktopWithSheet = false) by by_evaluation.
  destruct (close_deferred_on_mobile sheet mobileWithSheet) as [Hmobile _].
  destruct (close_deferred_on_mobile sheet desktopWithSheet) as [_ Hdesktop].
  destruct (Hmobile Hm) as (_ & Hbefore & _ & Hafter).
  destruct (Hdesktop Hd) as (Hnow & _ & _ & Hunlock).
  split.
  - split; [exact Hm|]. split; [exact Hq|]. split; [|exact (Hafter Hq)].
    apply (Hbefore 100%Z); [lia | exact Hq].
  - split; [exact Hd|]. split; [exact Hnow|]. apply Hunlock. by_evaluation.
Defined.

(** Escape with [sheet] and [dialog] open, on the desktop and on the mobile page. *)
Lemma escape_is_lifo_witness :
  (activeModals desktopWithBoth = [] ++ [sheet; dialog]
   /\ NoDup (ids ([] ++ [sheet; dialog]))
   /\ isMobile desktopWithBoth = false
   /\ activeModals (keydown "Escape" desktopWithBoth) = [] ++ [sheet]
   /\ activeModals (keydown "Escape" (keydown "Escape" desktopWithBoth)) = [])
  /\ (activeModals mobileWithBoth = [] ++ [sheet; dialog]
      /\ isMobile mobileWithBoth = true /\ timers mobileWithBoth = []
      /\ activeModals (advance 300 (keydown "Escape" mobileWithBoth)) = [] ++ [sheet]).
Proof.
  assert (Hnd : NoDup (ids ([] ++ [sheet; dialog]))) by decided.
  assert (Hd : activeModals desktopWithBoth = [] ++ [sheet; dialog]) by by_evaluation.
  assert (Hm : activeModals mobileWithBoth = [] ++ [sheet; dialog]) by by_evaluation.
  assert (Hwd : isMobile desktopWithBoth = false) by by_evaluation.
  assert (Hwm : isMobile mobileWithBoth = true) by by_evaluation.
  assert (Hq : timers mobileWithBoth = []) by by_evaluation.
  destruct (escape_is_lifo [] sheet dialog desktopWithBoth Hd Hnd) as (_ & Hdesk & _ & _).
  destruct (escape_is_lifo [] sheet dialog mobileWithBoth Hm Hnd) as (_ & _ & Hmob & _).
  destruct (Hdesk Hwd) as (H1 & _ & _ & _ & H2 & _).
  destruct (Hmob Hwm Hq) as (H3 & _).
  repeat split; assumption.
Defined.

(** The general law at [position] on a body with [position: relative],
    where the computed value is the declared one. *)
Example round_trip_of_a_computed_declaration :
  let s' := restoreBodyStyles
              (preventBackgroundScroll (saveBodyStyles inlineCascade styledPage)) in
  bodyStyle s' !! "position" = Some "relative"
  /\ inlineCascade (bodyAttrs s') (bodyStyle s') "position" = "relative".
Proof.
  assert (H1 : size (originalBodyStyles styledPage) = 0) by by_evaluation.
  assert (H2 : "position" ∈ trackedProperties) by decided.
  assert (H3 : hasBodyAttribute lockAttr styledPage = false) by by_evaluation.
  destruct (round_trip_writes_computed_values inlineCascade styledPage "position" H1 H2)
    as (Hstyle & _ & Hrest).
  destruct (Hrest H3) as [_ Hcomputed].
  split; [exact Hstyle | exact (Hcomputed inlineCascade_sticks)].
Qed.


(** The guard of [optimizeModal] is the registry: once an overlay has been
    closed, registering it again attaches a second ['close'] listener to
    its root. *)
Remark close_signal_wired_again_after_close :
  let s := optimizeModal inlineCascade sheet
             (doCloseModal sheet desktopWithSheet) in
  length (List.filter (fun l => bool_decide (eventType l = "close")) (listeners s)) = 2.
Proof. by_evaluation. Qed.

(** Registering [sheet] twice, on the empty page and on a page where it is open. *)
Lemma optimizeModal_twice_witness :
  (NoDup (ids (activeModals desktopPage))
   /\ includes (activeModals desktopPage) sheet = false
   /\ activeModals
        (optimizeModal inlineCascade sheet (optimizeModal inlineCascade sheet desktopPage))
      = [sheet])
  /\ (includes (activeModals desktopWithSheet) sheet = true
      /\ optimizeModal inlineCascade sheet
           (optimizeModal inlineCascade sheet desktopWithSheet)
         = desktopWithSheet).
Proof.
  assert (H1 : NoDup (ids (activeModals desktopPage))) by decided.
  assert (H2 : includes (activeModals desktopPage) sheet = false) by by_evaluation.
  assert (H3 : includes (activeModals desktopWithSheet) sheet = true) by by_evaluation.
  destruct (optimizeModal_twice inlineCascade sheet desktopPage)
    as (_ & _ & _ & _ & Hnew).
  destruct (optimizeModal_twice inlineCascade sheet desktopWithSheet)
    as (_ & _ & _ & Hold & _).
  destruct (Hnew H2) as [Hreg _].
  split; [split; [exact H1|split; [exact H2 | exact Hreg]]|].
  split; [exact H3 | exact (Hold H3)].
Defined.

(** Locking the locked page and restoring the unlocked one. *)
Lemma lock_operations_redundant_witness :
  hasBodyAttribute lockAttr desktopWithSheet = true
  /\ hasBodyAttribute lockAttr desktopPage = false
  /\ preventBackgroundScroll desktopWithSheet = desktopWithSheet
  /\ restoreBodyStyles desktopPage = desktopPage
  /\ bodyStyle (preventBackgroundScroll (saveBodyStyles inlineCascade desktopWithSheet))
     = bodyStyle desktopWithSheet.
Proof.
  assert (H1 : hasBodyAttribute lockAttr desktopWithSheet = true) by by_evaluation.
  assert (H2 : hasBodyAttribute lockAttr desktopPage = false) by by_evaluation.
  destruct (lock_operations_redundant desktopWithSheet desktopPage)
    as (Hlocked & Hunlocked & _ & _ & Hengage).
  destruct (Hengage inlineCascade) as [_ Hbody].
  split; [exact H1|]. split; [exact H2|].
  split; [exact (Hlocked H1)|]. split; [exact (Hunlocked H2)|].
  exact (proj2 (Hbody H1)).
Defined.

(** Removing the open [sheet] from the tree. *)
Lemma direct_removal_is_immediate_witness :
  NoDup (ids (activeModals desktopWithSheet))
  /\ includes (activeModals desktopWithSheet) sheet = true
  /\ let s' := onMutations inlineCascade [mkMutation [] [ElementNode sheet]]
                 desktopWithSheet in
     includes (activeModals s') sheet = false
     /\ dispatched s' = dispatched desktopWithSheet.
Proof.
  assert (H1 : NoDup (ids (activeModals desktopWithSheet))) by decided.
  assert (H2 : includes (activeModals desktopWithSheet) sheet = true) by by_evaluation.
  destruct (direct_removal_is_immediate inlineCascade sheet desktopWithSheet H1 H2)
    as (Hgone & _ & _ & Hquiet).
  split; [exact H1|]. split; [exact H2|]. split; [exact Hgone | exact Hquiet].
Defined.

(** Removing [wrapper] while [sheet], below it, is open. *)
Lemma descendant_removal_keeps_body_witness :
  includes (activeModals desktopWithSheet) wrapper = false
  /\ NoDup (ids (activeModals desktopWithSheet))
  /\ sheet ∈ querySelectorAll wrapper removalSelectors
  /\ let s' := checkForModalRemoval wrapper desktopWithSheet in
     bodyAttrs s' = bodyAttrs desktopWithSheet
     /\ (eid sheet ∉ ids (activeModals s'))
     /\ hasBodyAttribute lockAttr s' = hasBodyAttribute lockAttr desktopWithSheet.
Proof.
  assert (H1 : includes (activeModals desktopWithSheet) wrapper = false) by by_evaluation.
  assert (H2 : NoDup (ids (activeModals desktopWithSheet))) by decided.
  assert (H3 : sheet ∈ querySelectorAll wrapper removalSelectors)
    by (vm_compute; apply list_elem_of_here).
  assert (H4 : activeModals (checkForModalRemoval wrapper desktopWithSheet) = [])
    by by_evaluation.
  destruct (descendant_removal_keeps_body wrapper desktopWithSheet) as [_ Hdesc].
  destruct (Hdesc H1) as (Hattrs & _ & _ & _ & Hgone & Hlock).
  split; [exact H1|]. split; [exact H2|]. split; [exact H3|].
  split; [exact Hattrs|]. split; [exact (Hgone H2 sheet H3) | exact (Hlock H4)].
Defined.

(** Closing [dialog], which is not open, and closing [sheet] twice. *)
Lemma close_of_unregistered_witness :
  (includes (activeModals desktopWithSheet) dialog = false
   /\ activeModals (doCloseModal dialog desktopWithSheet) = activeModals desktopWithSheet
   /\ dispatched (doCloseModal dialog desktopWithSheet)
      = dispatched desktopWithSheet ++ [closedEvent dialog])
  /\ (isMobile desktopWithSheet = false
      /\ dispatched (closeModal sheet (closeModal sheet desktopWithSheet))
         = dispatched desktopWithSheet ++ [closedEvent sheet; closedEvent sheet])
  /\ (isMobile mobileWithSheet = true /\ timers mobileWithSheet = []
      /\ activeModals mobileWithSheet = [] ++ [sheet]
      /\ dispatched
           (advance 300
              (keydown "Escape" (advance 100 (keydown "Escape" mobileWithSheet))))
         = dispatched mobileWithSheet ++ [closedEvent sheet; closedEvent sheet]).
Proof.
  assert (H1 : includes (activeModals desktopWithSheet) dialog = false) by by_evaluation.
  assert (H2 : isMobile desktopWithSheet = false) by by_evaluation.
  assert (H3 : isMobile mobileWithSheet = true) by by_evaluation.
  assert (H4 : timers mobileWithSheet = []) by by_evaluation.
  assert (H5 : activeModals mobileWithSheet = [] ++ [sheet]) by by_evaluation.
  destruct (close_of_unregistered dialog desktopWithSheet) as (Hout & _ & _).
  destruct (close_of_unregistered sheet desktopWithSheet) as (_ & Htwice & _).
  destruct (close_of_unregistered sheet mobileWithSheet) as (_ & _ & Hkeys).
  destruct (Hout H1) as (Hreg & _ & Hev).
  split; [split; [exact H1 | split; [exact Hreg | exact Hev]]|].
  split; [split; [exact H2 | exact (Htwice H2)]|].
  split; [exact H3|]. split; [exact H4|]. split; [exact H5|].
  apply (Hkeys [] 100%Z H3 H4 H5). lia.
Defined.

(** * Further properties *)

(** ** What every event keeps *)

Section ClosePaths.

(** A property of the registry, the snapshot, the body, the marker
    classes and the dispatched events that [doCloseModal] keeps is kept
    along every path into [doCloseModal]. *)
Variable P : State -> Prop.
Hypothesis P_core : forall s s', core s = core s' -> P s -> P s'.
Hypothesis P_close : forall m s, P s -> P (doCloseModal m s).

Lemma closeModal_keeps m s : P s -> P (closeModal m s).
Proof.
  intros H. destruct (isMobile s) eqn:E.
  - rewrite closeModal_mobile by done. by apply (P_core s).
  - rewrite closeModal_desktop by done. by apply P_close.
Qed.

Lemma runTimers_keeps deadline q : forall s, P s -> P (runTimers deadline q s).
Proof.
  induction q as [|t q IH]; intros s H; simpl; [done|].
  destruct (due t <=? deadline)%Z; [|done]. apply IH.
  destruct (callback t); simpl.
  - by apply (P_core s).
  - apply P_close. by apply (P_core s).
Qed.

Lemma advance_keeps d s : P s -> P (advance d s).
Proof.
  intros H. unfold advance.
  apply (P_core (runTimers (clock s + d) (timers s) s)); [done|].
  by apply runTimers_keeps.
Qed.

Lemma keydown_keeps key s : P s -> P (keydown key s).
Proof.
  intros H. unfold keydown. destruct (_ && _); [|done].
  destruct (lastOf _); [|done]. by apply closeModal_keeps.
Qed.

Lemma dispatch_keeps ty current tgt s : P s -> P (dispatch ty current tgt s).
Proof.
  intros H. unfold dispatch. apply foldl_invariant; [|done].
  intros s' l Hs'. unfold runHandler.
  destruct (handler l); try case_bool_decide; auto using closeModal_keeps.
Qed.

Variable getComputedStyle :
  gmap string string -> gmap string string -> string -> string.
Hypothesis P_open : forall m s, P s -> P (optimizeModal getComputedStyle m s).
Hypothesis P_remove : forall e s, P s -> P (checkForModalRemoval e s).

Lemma checkForModal_keeps e s : P s -> P (checkForModal getComputedStyle e s).
Proof.
  intros H. unfold checkForModal. apply foldl_invariant.
  - intros s' x Hs'. rewrite registerIfNew_optimizeModal. by apply P_open.
  - destruct (_ && _); [by apply P_open | done].
Qed.

Lemma checkExistingModals_keeps document s :
  P s -> P (checkExistingModals getComputedStyle document s).
Proof.
  intros H. unfold checkExistingModals. apply foldl_invariant; [|done].
  intros s' x Hs'. destruct (_ && _); [by apply P_open | done].
Qed.

Lemma onMutations_keeps batch s : P s -> P (onMutations getComputedStyle batch s).
Proof.
  intros H. unfold onMutations. apply foldl_invariant; [|done].
  intros s1 m H1. unfold onMutation. apply foldl_invariant.
  - intros s2 [e|] H2; simpl; [|done].
    apply P_remove. by apply (P_core s2).
  - apply foldl_invariant; [|done].
    intros s2 [e|] H2; simpl; [|done].
    apply checkForModal_keeps. by apply (P_core s2).
Qed.

Lemma happens_keeps s s' : P s -> rtc (happens getComputedStyle) s s' -> P s'.
Proof.
  intros H Hsteps. induction Hsteps as [|s1 s2 s3 Hstep _ IH]; [done|].
  apply IH. destruct Hstep;
    auto using onMutations_keeps, keydown_keeps, dispatch_keeps, advance_keeps.
  by apply (P_core s).
Qed.

End ClosePaths.

(** ** The registry holds no node twice *)

Lemma registryDistinct_core s s' :
  core s = core s' -> registryDistinct s -> registryDistinct s'.
Proof. unfold registryDistinct. intros H. by rewrite (core_activeModals _ _ H). Qed.

Lemma registryDistinct_close m s :
  registryDistinct s -> registryDistinct (doCloseModal m s).
Proof.
  unfold registryDistinct. rewrite doCloseModal_activeModals.
  apply NoDup_removeFirst.
Qed.

Section Reachable.

Variable getComputedStyle :
  gmap string string -> gmap string string -> string -> string.

(** X1. Whatever the document the optimizer is constructed on and
    whatever happens afterwards (calls of [optimizeModal], mutation
    batches, key presses, events, time, resizes), no node is in the
    registry twice. *)
Theorem registry_never_holds_a_node_twice document attrs style width s :
  rtc (happens getComputedStyle)
      (construct getComputedStyle document attrs style width) s ->
  NoDup (ids (activeModals s)).
Proof.
  apply (happens_keeps registryDistinct registryDistinct_core
           registryDistinct_close getComputedStyle).
  - intros m s0. apply optimizeModal_NoDup.
  - intros e s0. apply checkForModalRemoval_NoDup.
  - unfold construct.
    apply (checkExistingModals_keeps registryDistinct getComputedStyle).
    + intros m s0. apply optimizeModal_NoDup.
    + constructor.
Qed.

End Reachable.

(** ** The snapshot lives as long as the lock *)

Lemma snapshotInvariant_same s s' :
  originalBodyStyles s = originalBodyStyles s' -> bodyAttrs s = bodyAttrs s' ->
  snapshotInvariant s -> snapshotInvariant s'.
Proof. unfold snapshotInvariant, hasBodyAttribute. by intros -> ->. Qed.

Lemma core_originalBodyStyles s s' :
  core s = core s' -> originalBodyStyles s = originalBodyStyles s'.
Proof. unfold core. intros [=]. congruence. Qed.

Lemma snapshotInvariant_core s s' :
  core s = core s' -> snapshotInvariant s -> snapshotInvariant s'.
Proof.
  intros H. apply snapshotInvariant_same;
    [by apply core_originalBodyStyles | by apply core_bodyAttrs].
Qed.

Lemma snapshotInvariant_restore s :
  snapshotInvariant s -> snapshotInvariant (restoreBodyStyles s).
Proof.
  intros H. destruct (hasBodyAttribute lockAttr s) eqn:E.
  - unfold snapshotInvariant. rewrite restoreBodyStyles_unlocks.
    by rewrite restoreBodyStyles_locked.
  - by rewrite restoreBodyStyles_unlocked.
Qed.

Lemma bodyPart_attrs s s' : bodyPart s = bodyPart s' -> bodyAttrs s = bodyAttrs s'.
Proof. unfold bodyPart. intros [=]. congruence. Qed.

Lemma bodyPart_style s s' : bodyPart s = bodyPart s' -> bodyStyle s = bodyStyle s'.
Proof. unfold bodyPart. intros [=]. congruence. Qed.

Lemma bodyPart_snapshot s s' :
  bodyPart s = bodyPart s' -> originalBodyStyles s = originalBodyStyles s'.
Proof. unfold bodyPart. intros [=]. congruence. Qed.

Lemma restoreBodyStyles_bodyPart s s' :
  bodyPart s = bodyPart s' ->
  bodyPart (restoreBodyStyles s) = bodyPart (restoreBodyStyles s').
Proof.
  destruct s, s'. unfold bodyPart. simpl. intros [= -> -> ->].
  unfold restoreBodyStyles, hasBodyAttribute. by split_branches.
Qed.

(** The body after [doCloseModal]: restored when the registry has become
    empty, untouched otherwise. *)
Lemma doCloseModal_bodyPart m s :
  bodyPart (doCloseModal m s)
  = if bool_decide (removeFirst m (activeModals s) = [])
    then bodyPart (restoreBodyStyles s) else bodyPart s.
Proof.
  rewrite doCloseModal_unfold. simpl.
  destruct (removeFirst m (activeModals s)) as [|x rest] eqn:E; simpl;
    [by apply restoreBodyStyles_bodyPart | done].
Qed.

Lemma snapshotInvariant_close m s :
  snapshotInvariant s -> snapshotInvariant (doCloseModal m s).
Proof.
  intros H. pose proof (doCloseModal_bodyPart m s) as Hb.
  case_bool_decide.
  - apply (snapshotInvariant_same (restoreBodyStyles s));
      [symmetry; by apply bodyPart_snapshot
      |symmetry; by apply bodyPart_attrs
      |by apply snapshotInvariant_restore].
  - apply (snapshotInvariant_same s);
      [symmetry; by apply bodyPart_snapshot
      |symmetry; by apply bodyPart_attrs | done].
Qed.

Lemma snapshotInvariant_remove e s :
  snapshotInvariant s -> snapshotInvariant (checkForModalRemoval e s).
Proof.
  intros H. rewrite checkForModalRemoval_unfold. simpl.
  destruct (includes (activeModals s) e).
  - apply (snapshotInvariant_same (restoreBodyStyles s)); [done..|].
    by apply snapshotInvariant_restore.
  - by apply (snapshotInvariant_same s).
Qed.

Lemma wiring_bodyStyle s s' : wiringFrame s = wiringFrame s' -> bodyStyle s = bodyStyle s'.
Proof. unfold wiringFrame. intros [=]. congruence. Qed.

Lemma wiring_originalBodyStyles s s' :
  wiringFrame s = wiringFrame s' -> originalBodyStyles s = originalBodyStyles s'.
Proof. unfold wiringFrame. intros [=]. congruence. Qed.

Lemma registry_originalBodyStyles s s' :
  registryFrame s = registryFrame s' -> originalBodyStyles s = originalBodyStyles s'.
Proof. unfold registryFrame. intros [=]. congruence. Qed.

Lemma snapshot_dom (computedStyle : string -> string) :
  dom (list_to_map (map (fun p => (p, computedStyle p)) trackedProperties)
         : gmap string string)
  = list_to_set trackedProperties.
Proof.
  by rewrite dom_list_to_map_L.
Qed.

Section Snapshot.

Variable getComputedStyle :
  gmap string string -> gmap string string -> string -> string.

Lemma optimizeModal_originalBodyStyles m s :
  includes (activeModals s) m = false ->
  originalBodyStyles (optimizeModal getComputedStyle m s)
  = originalBodyStyles (saveBodyStyles getComputedStyle s).
Proof.
  intros Hnew. unfold optimizeModal. rewrite Hnew.
  rewrite (wiring_originalBodyStyles _ _ (setupModalCloseListeners_frame _ _)).
  rewrite (registry_originalBodyStyles _ _ (applyModalOptimizations_frame _ _)).
  unfold saveBodyStyles. simpl. by case_bool_decide.
Qed.

Lemma optimizeModal_locks m s :
  includes (activeModals s) m = false ->
  hasBodyAttribute lockAttr (optimizeModal getComputedStyle m s) = true.
Proof.
  intros Hnew. unfold optimizeModal. rewrite Hnew. unfold hasBodyAttribute.
  rewrite (wiring_bodyAttrs _ _ (setupModalCloseListeners_frame _ _)).
  apply applyModalOptimizations_locks.
Qed.

Lemma snapshotInvariant_open m s :
  snapshotInvariant s -> snapshotInvariant (optimizeModal getComputedStyle m s).
Proof.
  intros H. destruct (includes (activeModals s) m) eqn:E.
  - by rewrite optimizeModal_registered.
  - unfold snapshotInvariant. rewrite optimizeModal_locks by done.
    rewrite optimizeModal_originalBodyStyles by done.
    unfold saveBodyStyles. case_bool_decide as Hsize; simpl.
    + apply snapshot_dom.
    + unfold snapshotInvariant in H.
      destruct (hasBodyAttribute lockAttr s); [done|].
      rewrite H in Hsize. by rewrite map_size_empty in Hsize.
Qed.

(** X2. On a page whose body does not carry the lock attribute when the
    optimizer is constructed, whatever happens afterwards the snapshot is
    empty while the body is unlocked and holds exactly the eight tracked
    properties while it is locked: a restore always finds the snapshot of
    its session, and no snapshot outlives the lock. *)
Theorem snapshot_lives_with_the_lock document attrs style width s :
  attrs !! lockAttr = None ->
  rtc (happens getComputedStyle)
      (construct getComputedStyle document attrs style width) s ->
  (hasBodyAttribute lockAttr s = true ->
     dom (originalBodyStyles s) = list_to_set trackedProperties)
  /\ (hasBodyAttribute lockAttr s = false -> originalBodyStyles s = ∅).
Proof.
  intros Hfree Hsteps.
  assert (Hinv : snapshotInvariant s).
  { revert Hsteps.
    apply (happens_keeps snapshotInvariant snapshotInvariant_core
             snapshotInvariant_close getComputedStyle snapshotInvariant_open
             snapshotInvariant_remove).
    unfold construct.
    apply (checkExistingModals_keeps snapshotInvariant getComputedStyle
             snapshotInvariant_open).
    unfold snapshotInvariant.
    replace (hasBodyAttribute lockAttr (initialState attrs style width))
      with false; [done|].
    symmetry. by apply hasBodyAttribute_false. }
  unfold snapshotInvariant in Hinv.
  split; intros Hl; by rewrite Hl in Hinv.
Qed.

End Snapshot.

(** ** The lock flag on the paths that open and close *)

Section LockFlag.

Variable getComputedStyle :
  gmap string string -> gmap string string -> string -> string.

(** X3. On a page whose body does not carry the lock attribute when the
    optimizer is constructed, as long as overlays are only opened and
    closed (calls of [optimizeModal], added nodes, key presses, events
    reaching wired elements, time passing) and no node is reported as
    removed, the body carries the lock attribute exactly when the registry
    is not empty. *)
Theorem lock_flag_tracks_registry_without_removals document attrs style width s :
  attrs !! lockAttr = None ->
  rtc (opensOrCloses getComputedStyle)
      (construct getComputedStyle document attrs style width) s ->
  (hasBodyAttribute lockAttr s = true <-> activeModals s ≠ []).
Proof.
  intros Hfree. apply (lockInvariant_opensOrCloses getComputedStyle).
  unfold construct.
  apply (checkExistingModals_keeps lockInvariant getComputedStyle
           (optimizeModal_lockInvariant getComputedStyle)).
  unfold lockInvariant.
  replace (hasBodyAttribute lockAttr (initialState attrs style width)) with false
    by (symmetry; by apply hasBodyAttribute_false).
  simpl. split; [discriminate | done].
Qed.

End LockFlag.

(** ** Finding the content region *)

Lemma querySelectorAll_matches e sels x :
  x ∈ querySelectorAll e sels <-> x ∈ descendants e /\ matchesAny sels x = true.
Proof. unfold querySelectorAll. by rewrite !list_elem_of_In, filter_In. Qed.

Lemma querySelector_None e sels :
  querySelector e sels = None <->
  forall d, d ∈ descendants e -> matchesAny sels d = false.
Proof.
  unfold querySelector. rewrite head_None. split.
  - intros Hnil d Hd. destruct (matchesAny sels d) eqn:E; [|done].
    assert (Hin : d ∈ querySelectorAll e sels) by by apply querySelectorAll_matches.
    rewrite Hnil in Hin. inversion Hin.
  - intros Hall. destruct (querySelectorAll e sels) as [|x l] eqn:E; [done|].
    assert (Hin : x ∈ querySelectorAll e sels) by (rewrite E; apply list_elem_of_here).
    apply querySelectorAll_matches in Hin as [Hd Hm]. by rewrite (Hall x Hd) in Hm.
Qed.

Lemma querySelector_Some e sels c :
  querySelector e sels = Some c -> c ∈ descendants e /\ matchesAny sels c = true.
Proof.
  unfold querySelector. intros H. apply querySelectorAll_matches.
  destruct (querySelectorAll e sels) as [|x l]; simplify_eq/=.
  apply list_elem_of_here.
Qed.

Lemma matchesAny_single sel d : matchesAny [sel] d = matches d sel.
Proof. unfold matchesAny. simpl. by rewrite orb_false_r. Qed.

Lemma matchesAny_In sels d :
  matchesAny sels d = true <-> exists sel, sel ∈ sels /\ matches d sel = true.
Proof.
  unfold matchesAny. rewrite existsb_exists.
  by setoid_rewrite list_elem_of_In.
Qed.

Lemma firstMatch_None m sels :
  firstMatch m sels = None <->
  forall d, d ∈ descendants m -> matchesAny sels d = false.
Proof.
  induction sels as [|sel rest IH]; simpl.
  - split; [done | by intros _].
  - destruct (querySelector m [sel]) as [c|] eqn:E.
    + split; [done|]. intros Hall. apply querySelector_Some in E as [Hc Hm].
      rewrite matchesAny_single in Hm. specialize (Hall c Hc).
      unfold matchesAny in Hall. simpl in Hall. by rewrite Hm in Hall.
    + rewrite IH. rewrite querySelector_None in E. split.
      * intros Hall d Hd. specialize (E d Hd). rewrite matchesAny_single in E.
        specialize (Hall d Hd). unfold matchesAny in *. simpl. by rewrite E.
      * intros Hall d Hd. specialize (Hall d Hd).
        unfold matchesAny in *. simpl in Hall. by apply orb_false_elim in Hall as [_ ?].
Qed.

(** The selector found first in the list decides, not the position in the
    document. *)
Lemma firstMatch_Some m sels c :
  firstMatch m sels = Some c ->
  c ∈ descendants m
  /\ exists before sel after,
       sels = before ++ sel :: after
       /\ matches c sel = true
       /\ querySelector m [sel] = Some c
       /\ forall d, d ∈ descendants m -> matchesAny before d = false.
Proof.
  induction sels as [|sel rest IH]; simpl; [done|].
  destruct (querySelector m [sel]) as [c'|] eqn:E.
  - intros [= ->]. pose proof (querySelector_Some _ _ _ E) as [Hc Hm].
    rewrite matchesAny_single in Hm. split; [done|].
    exists [], sel, rest. by repeat split.
  - intros H. destruct (IH H) as (Hc & before & sel' & after & -> & Hm & Hq & Hb).
    split; [done|]. exists (sel :: before), sel', after.
    repeat split; try done.
    intros d Hd. rewrite querySelector_None in E. specialize (E d Hd).
    rewrite matchesAny_single in E. specialize (Hb d Hd).
    unfold matchesAny in *. simpl. by rewrite E.
Qed.

(** X4. [findModalContent] never fails: it returns the overlay root
    itself exactly when no descendant matches a content selector, and
    otherwise a descendant matching one.  The order of the selector list
    decides: when some descendant has class [modal-content], the result
    is the first such descendant, wherever the descendants matching the
    later selectors are. *)
Theorem findModalContent_falls_back_to_root modal :
  ((forall d, d ∈ descendants modal -> matchesAny contentSelectors d = false) ->
     findModalContent modal = modal)
  /\ (forall d, d ∈ descendants modal -> matchesAny contentSelectors d = true ->
        findModalContent modal ∈ descendants modal
        /\ matchesAny contentSelectors (findModalContent modal) = true)
  /\ (forall d, d ∈ descendants modal -> contains d "modal-content" = true ->
        querySelector modal [ByClass "modal-content"] = Some (findModalContent modal)).
Proof.
  unfold findModalContent. split; [|split].
  - intros Hnone. apply firstMatch_None in Hnone. by rewrite Hnone.
  - intros d Hd Hm.
    destruct (firstMatch modal contentSelectors) as [c|] eqn:E.
    + change (default modal (Some c)) with c.
      destruct (firstMatch_Some _ _ _ E)
        as (Hc & before & sel & after & Hsels & Hmatch & _).
      split; [done|]. apply matchesAny_In. exists sel. split; [|done].
      rewrite Hsels. apply elem_of_app. right. apply list_elem_of_here.
    + rewrite firstMatch_None in E. by rewrite (E d Hd) in Hm.
  - intros d Hd Hm. unfold contentSelectors. simpl.
    destruct (querySelector modal [ByClass "modal-content"]) as [c|] eqn:E; [done|].
    rewrite querySelector_None in E. specialize (E d Hd).
    rewrite matchesAny_single in E. simpl in E. by rewrite Hm in E.
Qed.

(** X5. The scrollable region has no fallback: [optimizeModalScroll]
    writes nothing when no descendant matches a scroll selector (it never
    styles the overlay root), and otherwise writes its four declarations
    to one descendant that matches a scroll selector. *)
Theorem optimizeModalScroll_needs_a_region modal s :
  ((forall d, d ∈ descendants modal -> matchesAny scrollSelectors d = false) ->
     optimizeModalScroll modal s = s)
  /\ (forall d, d ∈ descendants modal -> matchesAny scrollSelectors d = true ->
        exists c, c ∈ descendants modal
                  /\ matchesAny scrollSelectors c = true
                  /\ optimizeModalScroll modal s = writeStyles (eid c) scrollStyles s).
Proof.
  unfold optimizeModalScroll, findScrollableContent. split.
  - intros Hnone. apply firstMatch_None in Hnone. by rewrite Hnone.
  - intros d Hd Hm.
    destruct (firstMatch modal scrollSelectors) as [c|] eqn:E.
    + destruct (firstMatch_Some _ _ _ E)
        as (Hc & before & sel & after & Hsels & Hmatch & _).
      exists c. split; [done|]. split; [|done].
      apply matchesAny_In. exists sel. split; [|done].
      rewrite Hsels. apply elem_of_app. right. apply list_elem_of_here.
    + rewrite firstMatch_None in E. by rewrite (E d Hd) in Hm.
Qed.

(** ** Detecting overlays among added nodes *)

Lemma includes_app l k x : includes (l ++ k) x = includes l x || includes k x.
Proof. unfold includes. apply existsb_app. Qed.

Lemma includes_self x : includes [x] x = true.
Proof. unfold includes, sameNode. simpl. by rewrite bool_decide_eq_true_2. Qed.

Lemma foldl_fixed {A} (f : State -> A -> State) l s :
  (forall x, x ∈ l -> f s x = s) -> foldl f s l = s.
Proof.
  induction l as [|x l IH]; intros H; simpl; [done|].
  rewrite (H x) by apply list_elem_of_here. apply IH.
  intros y Hy. apply H. by apply elem_of_cons; right.
Qed.

(** The test on [classList] in [checkForModal] adds nothing to the test
    on the selectors. *)
Lemma isModal_by_selectors e :
  matchesAny modalSelectors e
  || (contains e "modal" || contains e "popup" || contains e "drawer")
  = matchesAny modalSelectors e.
Proof.
  unfold matchesAny, modalSelectors. simpl.
  by destruct (contains e "modal"), (contains e "popup"), (contains e "drawer");
    simpl; rewrite ?orb_false_r, ?orb_true_r.
Qed.

Section Detection.

Variable getComputedStyle :
  gmap string string -> gmap string string -> string -> string.

Lemma optimizeModal_activeModals m s :
  activeModals (optimizeModal getComputedStyle m s)
  = activeModals s ++ (if includes (activeModals s) m then [] else [m]).
Proof.
  destruct (includes (activeModals s) m) eqn:E.
  - rewrite optimizeModal_registered by done. by rewrite app_nil_r.
  - by rewrite optimizeModal_new.
Qed.

Lemma optimizeModal_keeps_included m s x :
  includes (activeModals s) x = true ->
  includes (activeModals (optimizeModal getComputedStyle m s)) x = true.
Proof. intros H. by rewrite optimizeModal_activeModals, includes_app, H. Qed.

(** Registering the nodes of [l] one after the other: all of them end up
    registered, behind what was registered. *)
Lemma registerAll l : forall s,
  let s' := foldl (registerIfNew getComputedStyle) s l in
  (forall x, includes (activeModals s) x = true -> includes (activeModals s') x = true)
  /\ (forall d, d ∈ l -> includes (activeModals s') d = true)
  /\ exists added,
       activeModals s' = activeModals s ++ added
       /\ forall x, x ∈ added -> includes (activeModals s) x = false /\ x ∈ l.
Proof.
  induction l as [|d l IH]; intros s; simpl.
  - split; [done|]. split; [intros d Hd; inversion Hd|].
    exists []. split; [by rewrite app_nil_r|]. intros x Hx. inversion Hx.
  - rewrite registerIfNew_optimizeModal.
    destruct (IH (optimizeModal getComputedStyle d s)) as (Hkeep & Hall & added & Hadd & Hnew).
    split; [|split].
    + intros x Hx. by apply Hkeep, optimizeModal_keeps_included.
    + intros x [->|Hx]%elem_of_cons; [|by apply Hall].
      apply Hkeep, optimizeModal_includes.
    + rewrite optimizeModal_activeModals in Hadd.
      exists ((if includes (activeModals s) d then [] else [d]) ++ added).
      split; [by rewrite Hadd, app_assoc|].
      intros x [Hx|Hx]%elem_of_app.
      * destruct (includes (activeModals s) d) eqn:E; [inversion Hx|].
        apply list_elem_of_singleton in Hx as ->.
        split; [done | apply list_elem_of_here].
      * destruct (Hnew x Hx) as [Hout Hin]. split; [|by apply elem_of_cons; right].
        destruct (includes (activeModals s) x) eqn:E; [|done].
        by rewrite (optimizeModal_keeps_included d s x E) in Hout.
Qed.

(** X6. After [checkForModal] on an added element, the element itself (if
    it matches an overlay selector) and every descendant matching one are
    registered.  What was registered keeps its place, the newly
    registered nodes go behind it and are only such nodes, and handling
    the same element again changes nothing. *)
Theorem checkForModal_registers_what_matches element s :
  let s' := checkForModal getComputedStyle element s in
  (matchesAny modalSelectors element = true ->
     includes (activeModals s') element = true)
  /\ (forall d, d ∈ descendants element -> matchesAny modalSelectors d = true ->
        includes (activeModals s') d = true)
  /\ (exists added,
        activeModals s' = activeModals s ++ added
        /\ forall x, x ∈ added ->
             includes (activeModals s) x = false
             /\ matchesAny modalSelectors x = true
             /\ (x = element \/ x ∈ descendants element))
  /\ checkForModal getComputedStyle element s' = s'.
Proof.
  intros s'. subst s'. unfold checkForModal. rewrite isModal_by_selectors.
  set (s0 := if matchesAny modalSelectors element
                && negb (includes (activeModals s) element)
             then optimizeModal getComputedStyle element s else s).
  destruct (registerAll (querySelectorAll element modalSelectors) s0)
    as (Hkeep & Hall & added & Hadd & Hnew).
  assert (H0 : activeModals s0
               = activeModals s
                 ++ (if matchesAny modalSelectors element
                        && negb (includes (activeModals s) element)
                     then [element] else [])).
  { subst s0. destruct (matchesAny modalSelectors element); simpl;
      [|by rewrite app_nil_r].
    destruct (includes (activeModals s) element) eqn:E; simpl;
      [by rewrite app_nil_r | by rewrite optimizeModal_new]. }
  assert (Hself : matchesAny modalSelectors element = true ->
                  includes (activeModals s0) element = true).
  { intros Hm. rewrite H0, Hm, includes_app. simpl.
    destruct (includes (activeModals s) element); [done|]. simpl.
    apply includes_self. }
  assert (Hkeep0 : forall x, includes (activeModals s) x = true ->
                             includes (activeModals s0) x = true).
  { intros x Hx. by rewrite H0, includes_app, Hx. }
  split; [intros Hm; by apply Hkeep, Hself|].
  split; [intros d Hd Hm; by apply Hall, querySelectorAll_matches|].
  split.
  - eexists. split; [rewrite Hadd, H0, <- app_assoc; reflexivity|].
    intros x [Hx|Hx]%elem_of_app.
    + destruct (matchesAny modalSelectors element) eqn:Hm; [|inversion Hx].
      destruct (includes (activeModals s) element) eqn:E; [inversion Hx|].
      apply list_elem_of_singleton in Hx as ->. auto.
    + destruct (Hnew x Hx) as [Hout [Hd Hm]%querySelectorAll_matches].
      split; [|auto].
      destruct (includes (activeModals s) x) eqn:E; [|done].
      by rewrite (Hkeep0 x E) in Hout.
  - set (s' := foldl (registerIfNew getComputedStyle) s0
                 (querySelectorAll element modalSelectors)) in *.
    replace (matchesAny modalSelectors element
             && negb (includes (activeModals s') element)) with false.
    + apply foldl_fixed. intros d Hd. unfold registerIfNew.
      by rewrite (Hall d Hd).
    + destruct (matchesAny modalSelectors element) eqn:Hm; [|done].
      simpl. by rewrite (Hkeep _ (Hself eq_refl)).
Qed.

End Detection.

(** ** The scan at construction *)

Section Construction.

Variable getComputedStyle :
  gmap string string -> gmap string string -> string -> string.

Lemma registerVisible l : forall s,
  let s' := foldl (fun s modal =>
                     if negb (includes (activeModals s) modal) && negb (displayNone modal)
                     then optimizeModal getComputedStyle modal s else s) s l in
  (forall x, includes (activeModals s) x = true -> includes (activeModals s') x = true)
  /\ (forall d, d ∈ l -> displayNone d = false -> includes (activeModals s') d = true)
  /\ exists added,
       activeModals s' = activeModals s ++ added
       /\ forall x, x ∈ added -> x ∈ l /\ displayNone x = false.
Proof.
  induction l as [|d l IH]; intros s; simpl.
  - split; [done|]. split; [intros d Hd; inversion Hd|].
    exists []. split; [by rewrite app_nil_r|]. intros x Hx. inversion Hx.
  - set (s1 := if negb (includes (activeModals s) d) && negb (displayNone d)
               then optimizeModal getComputedStyle d s else s).
    assert (H1 : activeModals s1
                 = activeModals s
                   ++ (if negb (includes (activeModals s) d) && negb (displayNone d)
                       then [d] else [])).
    { subst s1. destruct (includes (activeModals s) d) eqn:E; simpl;
        [by rewrite app_nil_r|].
      destruct (displayNone d); simpl;
        [by rewrite app_nil_r | by rewrite optimizeModal_new]. }
    destruct (IH s1) as (Hkeep & Hall & added & Hadd & Hnew).
    assert (Hkeep1 : forall x, includes (activeModals s) x = true ->
                               includes (activeModals s1) x = true).
    { intros x Hx. by rewrite H1, includes_app, Hx. }
    split; [|split].
    + intros x Hx. by apply Hkeep, Hkeep1.
    + intros x [->|Hx]%elem_of_cons Hvis; [|by apply Hall].
      apply Hkeep. rewrite H1, includes_app, Hvis.
      destruct (includes (activeModals s) d); [done|]. simpl. apply includes_self.
    + eexists. split; [rewrite Hadd, H1, <- app_assoc; reflexivity|].
      intros x [Hx|Hx]%elem_of_app.
      * destruct (includes (activeModals s) d); simpl in Hx; [inversion Hx|].
        destruct (displayNone d) eqn:Hd; simpl in Hx; [inversion Hx|].
        apply list_elem_of_singleton in Hx as ->.
        split; [apply list_elem_of_here | done].
      * destruct (Hnew x Hx). split; [by apply elem_of_cons; right | done].
Qed.

(** X7. A freshly constructed optimizer has registered every element of
    the document that matches one of the six selectors of the initial
    scan and is not [display: none], and nothing else: every registered
    node is such an element. *)
Theorem construct_registers_visible_overlays document attrs style width :
  let s := construct getComputedStyle document attrs style width in
  (forall d, d ∈ descendants document ->
             matchesAny existingSelectors d = true -> displayNone d = false ->
             includes (activeModals s) d = true)
  /\ (forall x, x ∈ activeModals s ->
                x ∈ descendants document
                /\ matchesAny existingSelectors x = true
                /\ displayNone x = false).
Proof.
  intros s. subst s. unfold construct, checkExistingModals.
  destruct (registerVisible (querySelectorAll document existingSelectors)
              (initialState attrs style width))
    as (_ & Hall & added & Hadd & Hnew).
  split.
  - intros d Hd Hm Hvis. apply Hall; [by apply querySelectorAll_matches | done].
  - intros x Hx. rewrite Hadd in Hx. simpl in Hx.
    destruct (Hnew x Hx) as [[Hd Hm]%querySelectorAll_matches Hvis]. auto.
Qed.

End Construction.

(** ** Removal and close touch one overlay *)

Lemma ids_removeFirst_other e arr i :
  i ≠ eid e -> i ∈ ids arr -> i ∈ ids (removeFirst e arr).
Proof.
  intros Hne. induction arr as [|x arr IH]; simpl; [done|].
  rewrite elem_of_cons. case_bool_decide; simpl; rewrite ?elem_of_cons;
    intuition congruence.
Qed.

Lemma ids_removeAll_other l : forall arr i,
  i ∉ ids l -> i ∈ ids arr -> i ∈ ids (removeAll l arr).
Proof.
  induction l as [|m l IH]; intros arr i Hout Hin; simpl; [done|].
  unfold ids in Hout. simpl in Hout. apply not_elem_of_cons in Hout as [Hne Hout].
  apply IH; [done|]. by apply ids_removeFirst_other.
Qed.

Lemma removeFirst_sublist e arr : removeFirst e arr `sublist_of` arr.
Proof.
  induction arr as [|x arr IH]; simpl; [constructor|].
  case_bool_decide; [by apply sublist_cons | by apply sublist_skip].
Qed.

Lemma removeAll_sublist l : forall arr, removeAll l arr `sublist_of` arr.
Proof.
  induction l as [|m l IH]; intros arr; simpl; [done|].
  etransitivity; [apply IH | apply removeFirst_sublist].
Qed.

(** X8. Handling a removed node and closing an overlay never take any
    other overlay out of the registry and never reorder it: a registered
    node that is neither the removed node nor one of its descendants
    matching the four removal selectors stays registered (so a registered
    descendant that matches only a selector outside that list, such as
    [.el-dialog], survives the removal of its ancestor), a registered
    node other than the closed one stays registered, and in both cases
    what remains is in the order it was in. *)
Theorem removal_and_close_are_local x s :
  eid x ∈ ids (activeModals s) ->
  (forall e, eid x ≠ eid e ->
             eid x ∉ ids (querySelectorAll e removalSelectors) ->
             eid x ∈ ids (activeModals (checkForModalRemoval e s)))
  /\ (forall m, eid x ≠ eid m -> eid x ∈ ids (activeModals (doCloseModal m s)))
  /\ (forall e, activeModals (checkForModalRemoval e s) `sublist_of` activeModals s)
  /\ (forall m, activeModals (doCloseModal m s) `sublist_of` activeModals s).
Proof.
  intros Hin. split; [|split; [|split]].
  - intros e Hne Hdesc. rewrite checkForModalRemoval_unfold. simpl.
    apply ids_removeAll_other; [done|].
    destruct (includes (activeModals s) e); [|done].
    by apply ids_removeFirst_other.
  - intros m Hne. rewrite doCloseModal_activeModals.
    by apply ids_removeFirst_other.
  - intros e. rewrite checkForModalRemoval_unfold. simpl.
    etransitivity; [apply removeAll_sublist|].
    destruct (includes (activeModals s) e); [|done].
    apply removeFirst_sublist.
  - intros m. rewrite doCloseModal_activeModals. apply removeFirst_sublist.
Qed.

Lemma removeAll_absent l : forall arr,
  (forall d, d ∈ l -> eid d ∉ ids arr) -> removeAll l arr = arr.
Proof.
  induction l as [|m l IH]; intros arr H; simpl; [done|].
  rewrite removeFirst_absent by apply H, list_elem_of_here.
  apply IH. intros d Hd. apply H. by apply elem_of_cons; right.
Qed.

(** X9. A removal reported for a node the optimizer does not know is a
    no-op: when neither the removed element nor any of its descendants
    matching the removal selectors is registered, [checkForModalRemoval]
    returns the state it was given; the mutation callback then only notes
    that it handled the node, and ignores a node that is not an element
    altogether. *)
Theorem removal_of_unknown_node_is_noop getComputedStyle e nid s :
  eid e ∉ ids (activeModals s) ->
  (forall d, d ∈ querySelectorAll e removalSelectors -> eid d ∉ ids (activeModals s)) ->
  checkForModalRemoval e s = s
  /\ onMutations getComputedStyle [mkMutation [] [ElementNode e]] s
     = setHandled (handled s ++ [Removal (eid e)]) s
  /\ onMutations getComputedStyle
       [mkMutation [OtherNode nid] [OtherNode nid]] s = s.
Proof.
  intros Hout Hdesc.
  assert (Hnoop : forall s0, activeModals s0 = activeModals s ->
                             checkForModalRemoval e s0 = s0).
  { intros s0 H0. rewrite checkForModalRemoval_unfold. simpl.
    rewrite H0. rewrite (proj2 (includes_false_ids _ _) Hout). rewrite H0.
    rewrite (removeAll_absent _ _ Hdesc).
    rewrite <- H0. apply setActiveModals_id. }
  split; [by apply Hnoop|]. split; [|done].
  unfold onMutations, onMutation. simpl. by apply Hnoop.
Qed.

(** ** One overlay opened and closed *)

Lemma wiring_bodyPart s s' : wiringFrame s = wiringFrame s' -> bodyPart s = bodyPart s'.
Proof. unfold wiringFrame, bodyPart. intros [=]. congruence. Qed.

Lemma setModalStyles_bodyPart m s : bodyPart (setModalStyles m s) = bodyPart s.
Proof. unfold setModalStyles, addTopIndicator. by split_branches. Qed.

Lemma preventBackgroundScroll_bodyPart s s' :
  bodyPart s = bodyPart s' ->
  bodyPart (preventBackgroundScroll s) = bodyPart (preventBackgroundScroll s').
Proof.
  destruct s, s'. unfold bodyPart. simpl. intros [= -> -> ->].
  unfold preventBackgroundScroll, hasBodyAttribute. by split_branches.
Qed.

(** The declarations of the lock are the last ones made on the tracked
    properties. *)
Lemma locked_style_lookup (style : gmap string string) p v :
  (p, v) ∈ lockedStyles ->
  foldl (fun st d => <[d.1 := d.2]> st) style lockedStyles !! p = Some v.
Proof.
  intros Hin. unfold lockedStyles in Hin. simpl.
  repeat (apply elem_of_cons in Hin as [[= -> ->]|Hin]; [by simplify_map_eq|]).
  inversion Hin.
Qed.

Section Cycle.

Variable getComputedStyle :
  gmap string string -> gmap string string -> string -> string.

Lemma optimizeModal_bodyPart m s :
  includes (activeModals s) m = false ->
  bodyPart (optimizeModal getComputedStyle m s)
  = bodyPart (preventBackgroundScroll (saveBodyStyles getComputedStyle s)).
Proof.
  intros Hnew. unfold optimizeModal. rewrite Hnew.
  rewrite (wiring_bodyPart _ _ (setupModalCloseListeners_frame _ _)).
  unfold applyModalOptimizations.
  rewrite (wiring_bodyPart _ _ (optimizeModalScroll_frame _ _)).
  change (bodyPart (setStyleWrites ?w ?s0)) with (bodyPart s0).
  rewrite (wiring_bodyPart _ _ (addBackdropClose_frame _ _)).
  apply preventBackgroundScroll_bodyPart.
  rewrite setModalStyles_bodyPart. unfold saveBodyStyles. simpl.
  by case_bool_decide.
Qed.

Lemma optimizeModal_innerWidth m s :
  innerWidth (optimizeModal getComputedStyle m s) = innerWidth s.
Proof.
  unfold optimizeModal. destruct (includes (activeModals s) m); [done|].
  assert (Hw : forall a b, wiringFrame a = wiringFrame b -> innerWidth a = innerWidth b)
    by (unfold wiringFrame; intros a b [=]; congruence).
  assert (Hr : forall a b, registryFrame a = registryFrame b -> innerWidth a = innerWidth b)
    by (unfold registryFrame; intros a b [=]; congruence).
  rewrite (Hw _ _ (setupModalCloseListeners_frame _ _)).
  rewrite (Hr _ _ (applyModalOptimizations_frame _ _)).
  unfold saveBodyStyles. by case_bool_decide.
Qed.

(** X10. One overlay opened on a page with nothing open and the body
    unlocked, then closed.  While it is open the overlay is the one entry
    of the registry, the body carries the lock attribute with
    [position: fixed] and [overflow: hidden], and the snapshot holds, for
    each tracked property, the value computed for it before the overlay
    opened.  Once [doCloseModal] has run (which is what [closeModal] does
    at once on a desktop-width viewport) the registry and the snapshot are
    empty again, the body's attributes are what they were, and every
    tracked property of the inline style holds the value computed for it
    before the overlay opened. *)
Theorem open_then_close_restores_the_body m s :
  activeModals s = [] ->
  size (originalBodyStyles s) = 0 ->
  hasBodyAttribute lockAttr s = false ->
  let before := getComputedStyle (bodyAttrs s) (bodyStyle s) in
  let opened := optimizeModal getComputedStyle m s in
  let closed := doCloseModal m opened in
  (activeModals opened = [m]
   /\ hasBodyAttribute lockAttr opened = true
   /\ bodyStyle opened !! "position" = Some "fixed"
   /\ bodyStyle opened !! "overflow" = Some "hidden"
   /\ (forall p, p ∈ trackedProperties ->
         originalBodyStyles opened !! p = Some (before p)))
  /\ (isMobile s = false -> closeModal m opened = closed)
  /\ activeModals closed = []
  /\ originalBodyStyles closed = ∅
  /\ bodyAttrs closed = bodyAttrs s
  /\ (forall p, p ∈ trackedProperties -> bodyStyle closed !! p = Some (before p)).
Proof.
  intros Hreg Hsnap Hfree before opened closed.
  assert (Hnew : includes (activeModals s) m = false) by by rewrite Hreg.
  pose proof (optimizeModal_bodyPart m s Hnew) as Hopen. fold opened in Hopen.
  set (locked := foldl (fun st d => <[d.1 := d.2]> st) (bodyStyle s) lockedStyles).
  set (snapshot := (list_to_map
                      (map (fun p => (p, getComputedStyle (bodyAttrs s) (bodyStyle s) p))
                         trackedProperties) : gmap string string)).
  assert (Hbody : bodyPart (preventBackgroundScroll (saveBodyStyles getComputedStyle s))
                  = (<[lockAttr := "true"]> (bodyAttrs s), locked, snapshot)).
  { unfold preventBackgroundScroll, saveBodyStyles. fold lockAttr.
    rewrite bool_decide_eq_true_2 by done.
    change (hasBodyAttribute lockAttr (setOriginalBodyStyles ?v s))
      with (hasBodyAttribute lockAttr s). by rewrite Hfree. }
  rewrite Hbody in Hopen.
  assert (Ha : bodyAttrs opened = <[lockAttr := "true"]> (bodyAttrs s))
    by (revert Hopen; unfold bodyPart; intros [=]; congruence).
  assert (Hs : bodyStyle opened = locked)
    by (revert Hopen; unfold bodyPart; intros [=]; congruence).
  assert (Ho : originalBodyStyles opened = snapshot)
    by (revert Hopen; unfold bodyPart; intros [=]; congruence).
  assert (Hlocked : hasBodyAttribute lockAttr opened = true).
  { apply hasBodyAttribute_true. rewrite Ha, lookup_insert_eq. eauto. }
  pose proof (locked_style_lookup (bodyStyle s)) as Hl1. fold locked in Hl1.
  assert (Hregistry : activeModals opened = [m]).
  { subst opened. by rewrite optimizeModal_new, Hreg. }
  assert (Hgone : removeFirst m (activeModals opened) = []).
  { rewrite Hregistry. simpl. by rewrite bool_decide_eq_true_2. }
  pose proof (doCloseModal_bodyPart m opened) as Hclosed. fold closed in Hclosed.
  rewrite Hgone, bool_decide_eq_true_2 in Hclosed by done.
  rewrite restoreBodyStyles_locked in Hclosed by done.
  pose proof (bodyPart_attrs _ _ Hclosed) as Hca.
  pose proof (bodyPart_style _ _ Hclosed) as Hcs.
  pose proof (bodyPart_snapshot _ _ Hclosed) as Hco.
  cbn [bodyAttrs bodyStyle originalBodyStyles setOriginalBodyStyles setBodyStyle
       setBodyAttrs] in Hca, Hcs, Hco.
  rewrite Ha in Hca. rewrite Hs, Ho in Hcs.
  split.
  { split; [exact Hregistry|]. split; [exact Hlocked|].
    split; [rewrite Hs; apply Hl1; unfold lockedStyles; apply list_elem_of_here|].
    split.
    - rewrite Hs. apply Hl1. unfold lockedStyles.
      do 5 apply list_elem_of_further. apply list_elem_of_here.
    - intros p Hp. rewrite Ho. by apply snapshot_lookup. }
  split.
  { intros Hd. apply closeModal_desktop.
    unfold isMobile in *. subst opened. by rewrite optimizeModal_innerWidth. }
  split; [subst closed; by rewrite doCloseModal_activeModals|].
  split; [done|]. split.
  { rewrite Hca. apply delete_insert_id. by apply hasBodyAttribute_false. }
  intros p Hp. rewrite Hcs. apply lookup_union_Some_l. by apply snapshot_lookup.
Qed.

End Cycle.

(** ** The indicator of the bottom sheet *)

Lemma addTopIndicator_indicators c s s' :
  indicators s = indicators s' ->
  indicators (addTopIndicator c s) = indicators (addTopIndicator c s').
Proof.
  intros H. unfold addTopIndicator, hasIndicator. rewrite H.
  by split_branches; rewrite ?H.
Qed.

Lemma hasIndicator_addTopIndicator c s : hasIndicator c (addTopIndicator c s) = true.
Proof.
  unfold addTopIndicator. destruct (hasIndicator c s) eqn:E; [done|].
  unfold hasIndicator. apply orb_true_iff. right. apply existsb_exists.
  destruct (querySelector c _) as [h|] eqn:Eh.
  - exists h. split.
    + apply querySelector_Some in Eh as [Hd _]. right. by apply list_elem_of_In.
    + apply bool_decide_eq_true. simpl. apply elem_of_app. right.
      apply list_elem_of_here.
  - exists c. split; [by left|].
    apply bool_decide_eq_true. simpl. apply elem_of_app. right.
    apply list_elem_of_here.
Qed.

Lemma addTopIndicator_present c s : hasIndicator c s = true -> addTopIndicator c s = s.
Proof. unfold addTopIndicator. by intros ->. Qed.

Lemma wiring_indicators s s' : wiringFrame s = wiringFrame s' -> indicators s = indicators s'.
Proof. unfold wiringFrame. intros [=]. congruence. Qed.

Lemma loopFrame_indicators s s' : loopFrame s = loopFrame s' -> indicators s = indicators s'.
Proof. unfold loopFrame. intros [=]. congruence. Qed.

Section Indicator.

Variable getComputedStyle :
  gmap string string -> gmap string string -> string -> string.

Lemma optimizeModal_indicators m s :
  includes (activeModals s) m = false ->
  indicators (optimizeModal getComputedStyle m s)
  = if isMobile s then indicators (addTopIndicator (findModalContent m) s)
    else indicators s.
Proof.
  intros Hnew. unfold optimizeModal. rewrite Hnew.
  rewrite (wiring_indicators _ _ (setupModalCloseListeners_frame _ _)).
  unfold applyModalOptimizations.
  rewrite (wiring_indicators _ _ (optimizeModalScroll_frame _ _)).
  change (indicators (setStyleWrites ?w ?s0)) with (indicators s0).
  rewrite (wiring_indicators _ _ (addBackdropClose_frame _ _)).
  assert (Hp : forall x, indicators (preventBackgroundScroll x) = indicators x)
    by (intros x; unfold preventBackgroundScroll; by split_branches).
  rewrite Hp. unfold setModalStyles.
  assert (Hm : forall x, isMobile (setOptimized x (saveBodyStyles getComputedStyle
                 (setActiveModals (activeModals s ++ [m]) s))) = isMobile s)
    by (intros x; unfold isMobile, saveBodyStyles; simpl; by case_bool_decide).
  rewrite Hm. destruct (isMobile s).
  - apply addTopIndicator_indicators. unfold saveBodyStyles. simpl.
    by case_bool_decide.
  - unfold saveBodyStyles. simpl. by case_bool_decide.
Qed.

(** X11. The indicator is inserted once.  [addTopIndicator] leaves a
    content region with an indicator below it, does nothing when there is
    one already, and so is idempotent; and an overlay that is registered
    on a mobile-width viewport, closed and registered again has no second
    indicator inserted. *)
Theorem indicator_inserted_once content m s :
  hasIndicator content (addTopIndicator content s) = true
  /\ (hasIndicator content s = true -> addTopIndicator content s = s)
  /\ addTopIndicator content (addTopIndicator content s) = addTopIndicator content s
  /\ (includes (activeModals s) m = false -> isMobile s = true ->
      let opened := optimizeModal getComputedStyle m s in
      indicators (optimizeModal getComputedStyle m (doCloseModal m opened))
      = indicators opened).
Proof.
  split; [apply hasIndicator_addTopIndicator|].
  split; [apply addTopIndicator_present|].
  split; [apply addTopIndicator_present, hasIndicator_addTopIndicator|].
  intros Hnew Hm opened.
  assert (Hopened : indicators opened
                    = indicators (addTopIndicator (findModalContent m) s)).
  { subst opened. by rewrite optimizeModal_indicators, Hm. }
  assert (Hclosed : indicators (doCloseModal m opened) = indicators opened)
    by apply loopFrame_indicators, doCloseModal_loopFrame.
  rewrite optimizeModal_indicators.
  - rewrite doCloseModal_isMobile.
    replace (isMobile opened) with true
      by (unfold isMobile in *; subst opened; by rewrite optimizeModal_innerWidth).
    rewrite (addTopIndicator_indicators _ _ (addTopIndicator (findModalContent m) s))
      by by rewrite Hclosed.
    rewrite Hopened.
    by rewrite addTopIndicator_present by apply hasIndicator_addTopIndicator.
  - rewrite doCloseModal_activeModals. subst opened.
    rewrite optimizeModal_new by done.
    apply includes_false_ids in Hnew. rewrite removeFirst_last by done.
    by apply includes_false_ids.
Qed.

End Indicator.

(** ** From the wiring to the close sequence *)

Lemma filter_none {A} (f : A -> bool) (l : list A) :
  (forall y, y ∈ l -> f y = false) -> List.filter f l = [].
Proof.
  induction l as [|a l IH]; intros H; simpl; [done|].
  rewrite (H a) by apply list_elem_of_here. apply IH.
  intros y Hy. apply H. by apply elem_of_cons; right.
Qed.

Lemma filter_only {A} (f : A -> bool) (l : list A) x :
  NoDup l -> x ∈ l -> f x = true ->
  (forall y, y ∈ l -> f y = true -> y = x) ->
  List.filter f l = [x].
Proof.
  induction l as [|a l IH]; intros Hnd Hin Hx Hall; [inversion Hin|].
  apply NoDup_cons in Hnd as [Ha Hnd]. simpl.
  destruct (f a) eqn:Efa.
  - assert (a = x) as -> by (apply Hall; [apply list_elem_of_here | done]).
    f_equal. apply filter_none. intros y Hy.
    destruct (f y) eqn:Efy; [|done].
    assert (y = x) as -> by (apply Hall; [by apply elem_of_cons; right | done]).
    done.
  - apply IH; try done.
    + apply elem_of_cons in Hin as [->|Hin]; [congruence | done].
    + intros y Hy. apply Hall. by apply elem_of_cons; right.
Qed.

(** Wiring the close buttons, exactly: one listener for each identity
    among the buttons that are not yet marked. *)
Lemma wireCloseButtons_exact m btns : forall s,
  exists added,
    listeners (foldl (wireCloseButton m) s btns) = listeners s ++ added
    /\ NoDup added
    /\ (forall l, l ∈ added ->
          l = mkListener (target l) "click" (OnCloseButton m)
          /\ target l ∈ ids btns
          /\ closeMark (target l) ∉ marks s)
    /\ (forall b, b ∈ btns -> closeMark (eid b) ∉ marks s ->
          mkListener (eid b) "click" (OnCloseButton m) ∈ added).
Proof.
  induction btns as [|b btns IH]; intros s; simpl.
  - exists []. rewrite app_nil_r. split; [done|]. split; [constructor|].
    split; [intros l Hl; inversion Hl | intros b Hb; inversion Hb].
  - unfold wireCloseButton at 2. fold (closeMark (eid b)).
    case_bool_decide as Hb; simpl.
    + destruct (IH s) as (added & Hl & Hnd & Hshape & Hmem).
      exists added. split; [done|]. split; [done|]. split.
      * intros l Hin. destruct (Hshape l Hin) as (? & ? & ?).
        split; [done|]. split; [by apply elem_of_cons; right | done].
      * intros b' [->|Hb']%elem_of_cons Hfree; [done | by apply Hmem].
    + destruct (IH (setListeners
                      (listeners s ++ [mkListener (eid b) "click" (OnCloseButton m)])
                      (setMarks ({[closeMark (eid b)]} ∪ marks s) s)))
        as (added & Hl & Hnd & Hshape & Hmem).
      simpl in Hshape, Hmem.
      exists (mkListener (eid b) "click" (OnCloseButton m) :: added).
      split; [rewrite Hl; simpl; by rewrite <- app_assoc|].
      split; [|split].
      * apply NoDup_cons. split; [|done]. intros Hin.
        destruct (Hshape _ Hin) as (_ & _ & Hm). simpl in Hm.
        apply Hm, elem_of_union_l, elem_of_singleton. reflexivity.
      * intros l [->|Hin]%elem_of_cons.
        { simpl. split; [done|]. split; [apply list_elem_of_here | done]. }
        destruct (Hshape _ Hin) as (? & ? & Hm).
        split; [done|]. split; [by apply elem_of_cons; right|].
        intros Hin'. by apply Hm, elem_of_union_r.
      * intros b' Hb' Hfree.
        destruct (decide (eid b' = eid b)) as [Heq|Hne].
        { rewrite Heq. apply list_elem_of_here. }
        apply elem_of_cons; right. apply elem_of_cons in Hb' as [->|Hb']; [done|].
        apply Hmem; [done|].
        intros [Hin|Hin]%elem_of_union; [|done].
        apply elem_of_singleton in Hin. unfold closeMark in Hin. congruence.
Qed.

Lemma listenerFrame_marks s s' : listenerFrame s = listenerFrame s' -> marks s = marks s'.
Proof. unfold listenerFrame. intros [=]. congruence. Qed.

Section Triggers.

Variable getComputedStyle :
  gmap string string -> gmap string string -> string -> string.

(** The listeners a registration adds, in the order it adds them: the
    backdrop's (if there is an unmarked backdrop), the close buttons',
    the root's. *)
Lemma optimizeModal_listeners_exact m s :
  includes (activeModals s) m = false ->
  exists buttons,
    listeners (optimizeModal getComputedStyle m s)
    = listeners s
      ++ match backdropOf m with
         | Some bd => if bool_decide (backdropMark (eid bd) ∈ marks s) then []
                      else [mkListener (eid bd) "click" (OnBackdrop (eid bd) m)]
         | None => []
         end
      ++ buttons ++ [mkListener (eid m) "close" (OnCloseSignal m)]
    /\ NoDup buttons
    /\ (forall l, l ∈ buttons ->
          l = mkListener (target l) "click" (OnCloseButton m)
          /\ target l ∈ ids (closeButtonsOf m))
    /\ (forall b, b ∈ closeButtonsOf m -> closeMark (eid b) ∉ marks s ->
          mkListener (eid b) "click" (OnCloseButton m) ∈ buttons).
Proof.
  intros Hnew. unfold optimizeModal. rewrite Hnew.
  unfold setupModalCloseListeners. fold (closeButtonsOf m). simpl.
  match goal with
  | |- context [foldl (wireCloseButton m) ?s0 _] =>
      destruct (wireCloseButtons_exact m (closeButtonsOf m) s0)
        as (buttons & -> & Hnd & Hshape & Hmem);
      assert (Hl0 : listeners s0
                    = listeners s
                      ++ match backdropOf m with
                         | Some bd =>
                             if bool_decide (backdropMark (eid bd) ∈ marks s) then []
                             else [mkListener (eid bd) "click" (OnBackdrop (eid bd) m)]
                         | None => []
                         end);
      [|assert (Hm0 : forall b, closeMark (eid b) ∉ marks s ->
                                closeMark (eid b) ∉ marks s0)]
  end.
  - unfold applyModalOptimizations.
    rewrite (listenerFrame_listeners _ _ (listenerFrame_scroll _ _)).
    unfold addBackdropClose. fold (backdropOf m).
    assert (Hpre : forall x,
              listenerFrame (preventBackgroundScroll (setModalStyles m
                (setOptimized x (saveBodyStyles getComputedStyle
                   (setActiveModals (activeModals s ++ [m]) s)))))
              = listenerFrame s).
    { intros x. rewrite listenerFrame_prevent, listenerFrame_setModalStyles.
      unfold saveBodyStyles. simpl. by case_bool_decide. }
    destruct (backdropOf m) as [bd|]; [|by rewrite (listenerFrame_listeners _ _ (Hpre _)), app_nil_r].
    fold (backdropMark (eid bd)).
    rewrite (listenerFrame_marks _ _ (Hpre _)).
    case_bool_decide; simpl.
    + by rewrite (listenerFrame_listeners _ _ (Hpre _)), app_nil_r.
    + by rewrite (listenerFrame_listeners _ _ (Hpre _)).
  - intros b Hfree. unfold applyModalOptimizations.
    rewrite (listenerFrame_marks _ _ (listenerFrame_scroll _ _)).
    unfold addBackdropClose. fold (backdropOf m).
    assert (Hpre : forall x,
              listenerFrame (preventBackgroundScroll (setModalStyles m
                (setOptimized x (saveBodyStyles getComputedStyle
                   (setActiveModals (activeModals s ++ [m]) s)))))
              = listenerFrame s).
    { intros x. rewrite listenerFrame_prevent, listenerFrame_setModalStyles.
      unfold saveBodyStyles. simpl. by case_bool_decide. }
    destruct (backdropOf m) as [bd|]; [|by rewrite (listenerFrame_marks _ _ (Hpre _))].
    fold (backdropMark (eid bd)).
    rewrite (listenerFrame_marks _ _ (Hpre _)).
    case_bool_decide; simpl; rewrite ?(listenerFrame_marks _ _ (Hpre _)); [done|].
    intros [Hin|Hin]%elem_of_union; [|done].
    apply elem_of_singleton in Hin. unfold closeMark, backdropMark in Hin.
    congruence.
  - exists buttons. rewrite Hl0. split; [by rewrite <- !app_assoc|].
    split; [done|]. split.
    + intros l Hl. destruct (Hshape l Hl) as (? & ? & _). done.
    + intros b Hb Hfree. apply Hmem; [done|]. by apply Hm0.
Qed.

End Triggers.

Lemma dispatch_listening ty current tgt s :
  dispatch ty current tgt s = foldl (runHandler tgt) s (listening ty current s).
Proof. reflexivity. Qed.

Section TriggersClose.

Variable getComputedStyle :
  gmap string string -> gmap string string -> string -> string.

(** X12. From the wiring to the close sequence.  After an overlay has
    been registered: a ['close'] signal on its root runs [closeModal] on
    it, once; a click on one of its close buttons that was not yet wired
    runs [closeModal] on it, once; a click on its backdrop runs
    [closeModal] on it when the backdrop itself is the target and does
    nothing when the click comes from an element inside the backdrop.
    (Each trigger is taken on an element that had no listener of that
    kind before, and the backdrop is not also a close button.) *)
Theorem wired_triggers_run_the_close_sequence m s :
  includes (activeModals s) m = false ->
  let s' := optimizeModal getComputedStyle m s in
  ((forall l, l ∈ listeners s -> target l = eid m -> eventType l ≠ "close") ->
     forall tgt, dispatch "close" (eid m) tgt s' = closeModal m s')
  /\ (forall b, b ∈ closeButtonsOf m ->
        closeMark (eid b) ∉ marks s ->
        (forall l, l ∈ listeners s -> target l = eid b -> eventType l ≠ "click") ->
        (forall bd, backdropOf m = Some bd -> eid bd ≠ eid b) ->
        forall tgt, dispatch "click" (eid b) tgt s' = closeModal m s')
  /\ (forall bd, backdropOf m = Some bd ->
        backdropMark (eid bd) ∉ marks s ->
        (forall l, l ∈ listeners s -> target l = eid bd -> eventType l ≠ "click") ->
        eid bd ∉ ids (closeButtonsOf m) ->
        dispatch "click" (eid bd) (eid bd) s' = closeModal m s'
        /\ forall tgt, tgt ≠ eid bd -> dispatch "click" (eid bd) tgt s' = s').
Proof.
  intros Hnew s'.
  destruct (optimizeModal_listeners_exact getComputedStyle m s Hnew)
    as (buttons & Hl & Hnd & Hshape & Hmem).
  fold s' in Hl.
  assert (Hold : forall ty current,
            (forall l, l ∈ listeners s -> target l = current -> eventType l ≠ ty) ->
            List.filter (fun l => bool_decide (target l = current)
                                  && bool_decide (eventType l = ty)) (listeners s) = []).
  { intros ty current H. apply filter_none. intros l Hin.
    destruct (bool_decide (target l = current)) eqn:E1; [|done].
    apply bool_decide_eq_true in E1. simpl.
    apply bool_decide_eq_false. by apply H. }
  split; [|split].
  - intros Hfree tgt. rewrite dispatch_listening. unfold listening.
    rewrite Hl, !List.filter_app, (Hold _ _ Hfree).
    rewrite (filter_none _ buttons).
    2:{ intros l Hin. destruct (Hshape l Hin) as [-> _]. simpl.
        by rewrite andb_false_r. }
    rewrite filter_none.
    2:{ intros l Hin. destruct (backdropOf m); [|inversion Hin].
        case_bool_decide; [inversion Hin|].
        apply list_elem_of_singleton in Hin as ->. simpl. by rewrite andb_false_r. }
    simpl. rewrite bool_decide_eq_true_2 by done. reflexivity.
  - intros b Hb Hmark Hfree Hbd tgt. rewrite dispatch_listening. unfold listening.
    rewrite Hl, !List.filter_app, (Hold _ _ Hfree).
    rewrite (filter_only _ buttons (mkListener (eid b) "click" (OnCloseButton m))).
    + rewrite filter_none.
      2:{ intros l Hin. destruct (backdropOf m) as [bd|] eqn:E; [|inversion Hin].
          case_bool_decide; [inversion Hin|].
          apply list_elem_of_singleton in Hin as ->. simpl.
          rewrite bool_decide_eq_false_2; [done|]. by apply Hbd. }
      simpl. destruct (bool_decide (eid m = eid b)); reflexivity.
    + done.
    + by apply Hmem.
    + simpl. by rewrite bool_decide_eq_true_2.
    + intros l Hin Hf. destruct (Hshape l Hin) as [Heq _]. rewrite Heq in *.
      simpl in Hf. apply andb_true_iff in Hf as [Ht%bool_decide_eq_true _].
      simpl. by rewrite Ht.
  - intros bd Hbd Hmark Hfree Hnotbtn.
    assert (Hrun : listening "click" (eid bd) s'
                   = [mkListener (eid bd) "click" (OnBackdrop (eid bd) m)]).
    { unfold listening. rewrite Hl, !List.filter_app, (Hold _ _ Hfree).
      rewrite (filter_none _ buttons).
      2:{ intros l Hin. destruct (Hshape l Hin) as [Heq Hid].
          rewrite bool_decide_eq_false_2; [done|]. intros Heq'.
          apply Hnotbtn. by rewrite <- Heq'. }
      rewrite Hbd. rewrite bool_decide_eq_false_2 by done. simpl.
      rewrite bool_decide_eq_true_2 by done. simpl.
      destruct (bool_decide (eid m = eid bd)); reflexivity. }
    split.
    + rewrite dispatch_listening, Hrun. simpl. unfold runHandler. simpl.
      by rewrite bool_decide_eq_true_2.
    + intros tgt Hne. rewrite dispatch_listening, Hrun. simpl. unfold runHandler.
      simpl. by rewrite bool_decide_eq_false_2.
Qed.

End TriggersClose.

(** ** The entrance timer *)

Lemma setModalStyles_timers m s :
  clock (setModalStyles m s) = clock s
  /\ timers (setModalStyles m s)
     = if isMobile s
       then enqueue (mkTimer (clock s + 10) (ShowContent (eid (findModalContent m))))
              (timers s)
       else timers s.
Proof.
  unfold setModalStyles. destruct (isMobile s); [|done].
  unfold addTopIndicator. by split_branches.
Qed.

Lemma setClock_fields c s :
  styleWrites (setClock c s) = styleWrites s
  /\ activeModals (setClock c s) = activeModals s
  /\ timers (setClock c s) = timers s.
Proof. done. Qed.

Section Entrance.

Variable getComputedStyle :
  gmap string string -> gmap string string -> string -> string.

Lemma optimizeModal_timers m s :
  includes (activeModals s) m = false ->
  clock (optimizeModal getComputedStyle m s) = clock s
  /\ timers (optimizeModal getComputedStyle m s)
     = if isMobile s
       then enqueue (mkTimer (clock s + 10) (ShowContent (eid (findModalContent m))))
              (timers s)
       else timers s.
Proof.
  intros Hnew. unfold optimizeModal. rewrite Hnew.
  assert (Hw : forall a b, wiringFrame a = wiringFrame b ->
                           clock a = clock b /\ timers a = timers b)
    by (unfold wiringFrame; intros a b [=]; split; congruence).
  destruct (Hw _ _ (setupModalCloseListeners_frame m
              (applyModalOptimizations m (saveBodyStyles getComputedStyle
                 (setActiveModals (activeModals s ++ [m]) s))))) as [-> ->].
  unfold applyModalOptimizations.
  destruct (Hw _ _ (optimizeModalScroll_frame m (addBackdropClose m
              (preventBackgroundScroll (setModalStyles m
                 (setOptimized ({[eid m]} ∪ optimized (saveBodyStyles getComputedStyle
                    (setActiveModals (activeModals s ++ [m]) s)))
                    (saveBodyStyles getComputedStyle
                       (setActiveModals (activeModals s ++ [m]) s)))))))) as [-> ->].
  change (clock (setStyleWrites ?w ?s0)) with (clock s0).
  change (timers (setStyleWrites ?w ?s0)) with (timers s0).
  match goal with
  | |- context [addBackdropClose m ?s0] =>
      destruct (Hw _ _ (addBackdropClose_frame m s0)) as [-> ->]
  end.
  assert (Hp : forall x, clock (preventBackgroundScroll x) = clock x
                         /\ timers (preventBackgroundScroll x) = timers x)
    by (intros x; unfold preventBackgroundScroll; by split_branches).
  match goal with
  | |- context [preventBackgroundScroll ?s0] => destruct (Hp s0) as [-> ->]
  end.
  match goal with
  | |- context [setModalStyles m ?s0] =>
      destruct (setModalStyles_timers m s0) as [-> ->]
  end.
  unfold isMobile, saveBodyStyles. simpl. by case_bool_decide.
Qed.

(** X13. On a mobile-width viewport with no timer pending, registering an
    overlay sets one timer, the entrance callback, due 10 ms later.  A
    close triggered before these 10 ms are over cancels nothing: the
    entrance timer is still pending, before the 300 ms timer of the
    close.  The entrance callback then runs with the overlay still
    registered, and 300 ms after the trigger the overlay is out of the
    registry and no timer is left. *)
Theorem entrance_timer_outlives_an_early_close m d s :
  includes (activeModals s) m = false ->
  isMobile s = true -> timers s = [] ->
  (0 <= d < 10)%Z ->
  let content := eid (findModalContent m) in
  let opened := optimizeModal getComputedStyle m s in
  let closing := closeModal m (advance d opened) in
  let entered := advance (10 - d) closing in
  let closed := advance 300 closing in
  timers opened = [mkTimer (clock s + 10) (ShowContent content)]
  /\ timers closing
     = [mkTimer (clock s + 10) (ShowContent content);
        mkTimer (clock s + d + 300) (DoClose m)]
  /\ activeModals closing = activeModals s ++ [m]
  /\ timers entered = [mkTimer (clock s + d + 300) (DoClose m)]
  /\ activeModals entered = activeModals s ++ [m]
  /\ activeModals closed = activeModals s
  /\ timers closed = [].
Proof.
  intros Hnew Hm Hq Hd content opened closing entered closed.
  destruct (optimizeModal_timers m s Hnew) as [Hclock Htimers].
  fold opened in Hclock, Htimers. rewrite Hm, Hq in Htimers. simpl in Htimers.
  fold content in Htimers.
  set (show := mkTimer (clock s + 10) (ShowContent content)) in *.
  assert (Hmob : isMobile opened = true).
  { unfold isMobile in *. subst opened. by rewrite optimizeModal_innerWidth. }
  assert (Hregistry : activeModals opened = activeModals s ++ [m]).
  { subst opened. by rewrite optimizeModal_new. }
  split; [done|].
  assert (Hearly : advance d opened = setClock (clock s + d) opened).
  { unfold advance. rewrite Htimers, Hclock.
    rewrite runTimers_later by (simpl; lia). reflexivity. }
  set (close := mkTimer (clock s + d + 300) (DoClose m)).
  set (exit := writeStyles content [("transform", "translateY(100%) !important")]
                 (setClock (clock s + d) opened)).
  assert (Hclosing : closing = setTimers [show; close] exit).
  { subst closing. rewrite Hearly.
    rewrite closeModal_mobile by exact Hmob. fold content. fold exit.
    unfold setTimeout. subst exit. simpl. rewrite Htimers. simpl.
    by replace (clock s + 10 <=? clock s + d + 300)%Z with true
      by (symmetry; apply Z.leb_le; lia). }
  assert (Hexit : activeModals exit = activeModals s ++ [m]) by exact Hregistry.
  split; [by rewrite Hclosing|]. split; [by rewrite Hclosing|].
  assert (Hentered : entered
                     = setClock (clock s + d + (10 - d))
                         (runCallback (ShowContent content)
                            (setTimers [close] (setClock (clock s + 10) (setTimers [show; close] exit))))).
  { subst entered. rewrite Hclosing. unfold advance.
    change (timers (setTimers [show; close] exit)) with [show; close].
    change (clock (setTimers [show; close] exit)) with (clock s + d)%Z.
    rewrite runTimers_due by (simpl; lia).
    rewrite runTimers_later by (simpl; lia). reflexivity. }
  split; [by rewrite Hentered|]. split; [by rewrite Hentered|].
  subst closed. rewrite Hclosing. unfold advance.
  change (timers (setTimers [show; close] exit)) with [show; close].
  change (clock (setTimers [show; close] exit)) with (clock s + d)%Z.
  rewrite runTimers_due by (simpl; lia).
  rewrite runTimers_due by (simpl; lia).
  change (runTimers _ [] ?x) with x.
  change (callback show) with (ShowContent content).
  change (callback close) with (DoClose m).
  unfold runCallback.
  split.
  - rewrite (proj1 (proj2 (setClock_fields _ _))).
    rewrite doCloseModal_activeModals.
    cbn [activeModals setTimers setClock writeStyles setStyleWrites].
    rewrite Hexit.
    apply removeFirst_last. by apply includes_false_ids.
  - rewrite (proj2 (proj2 (setClock_fields _ _))).
    by rewrite (loopFrame_timers _ _ (doCloseModal_loopFrame _ _)).
Qed.

End Entrance.

(** ** The further properties on the concrete page *)

(** An Escape press on the optimizer constructed on [page]. *)
Lemma registry_never_holds_a_node_twice_witness :
  let s := construct inlineCascade page ∅ ∅ 1024 in
  rtc (happens inlineCascade) s (keydown "Escape" s)
  /\ NoDup (ids (activeModals (keydown "Escape" s))).
Proof.
  intros s.
  assert (H : rtc (happens inlineCascade) s (keydown "Escape" s))
    by (apply rtc_once; constructor).
  split; [exact H|].
  exact (registry_never_holds_a_node_twice inlineCascade page ∅ ∅ 1024 _ H).
Defined.

(** The removal of [wrapper] from the optimizer constructed on [page]. *)
Lemma snapshot_lives_with_the_lock_witness :
  let s := construct inlineCascade page ∅ ∅ 1024 in
  let s' := onMutations inlineCascade [mkMutation [] [ElementNode sheet]] s in
  (∅ : gmap string string) !! lockAttr = None
  /\ rtc (happens inlineCascade) s s'
  /\ hasBodyAttribute lockAttr s' = false
  /\ originalBodyStyles s' = ∅.
Proof.
  intros s s'.
  assert (H1 : (∅ : gmap string string) !! lockAttr = None) by reflexivity.
  assert (H2 : rtc (happens inlineCascade) s s') by (apply rtc_once; constructor).
  assert (H3 : hasBodyAttribute lockAttr s' = false) by by_evaluation.
  destruct (snapshot_lives_with_the_lock inlineCascade page ∅ ∅ 1024 s' H1 H2)
    as [_ Hempty].
  split; [exact H1|]. split; [exact H2|]. split; [exact H3 | exact (Hempty H3)].
Defined.

(** [dialog] opened on the optimizer constructed on [page]. *)
Lemma lock_flag_tracks_registry_without_removals_witness :
  let s := construct inlineCascade page ∅ ∅ 1024 in
  let s' := optimizeModal inlineCascade dialog s in
  (∅ : gmap string string) !! lockAttr = None
  /\ rtc (opensOrCloses inlineCascade) s s'
  /\ (hasBodyAttribute lockAttr s' = true <-> activeModals s' ≠ []).
Proof.
  intros s s'.
  assert (H1 : (∅ : gmap string string) !! lockAttr = None) by reflexivity.
  assert (H2 : rtc (opensOrCloses inlineCascade) s s') by (apply rtc_once; constructor).
  split; [exact H1|]. split; [exact H2|].
  exact (lock_flag_tracks_registry_without_removals inlineCascade page ∅ ∅ 1024 s' H1 H2).
Defined.

(** [dialog] has no content region, [drawer] has one. *)
Lemma findModalContent_falls_back_to_root_witness :
  findModalContent dialog = dialog
  /\ drawerContent ∈ descendants drawer
  /\ matchesAny contentSelectors drawerContent = true
  /\ contains drawerContent "modal-content" = true
  /\ findModalContent drawer ∈ descendants drawer
  /\ querySelector drawer [ByClass "modal-content"] = Some (findModalContent drawer).
Proof.
  destruct (findModalContent_falls_back_to_root dialog) as (Hroot & _ & _).
  destruct (findModalContent_falls_back_to_root drawer) as (_ & Hfound & Hfirst).
  assert (H1 : forall d, d ∈ descendants dialog -> matchesAny contentSelectors d = false)
    by (intros d Hd; vm_compute in Hd; inversion Hd).
  assert (H2 : drawerContent ∈ descendants drawer)
    by (vm_compute; apply list_elem_of_further, list_elem_of_here).
  assert (H3 : matchesAny contentSelectors drawerContent = true) by by_evaluation.
  assert (H4 : contains drawerContent "modal-content" = true) by by_evaluation.
  split; [exact (Hroot H1)|]. split; [exact H2|]. split; [exact H3|].
  split; [exact H4|]. split; [exact (proj1 (Hfound _ H2 H3)) | exact (Hfirst _ H2 H4)].
Defined.

(** [dialog] has no scrollable region, [drawer] has one. *)
Lemma optimizeModalScroll_needs_a_region_witness :
  optimizeModalScroll dialog desktopPage = desktopPage
  /\ drawerBody ∈ descendants drawer
  /\ matchesAny scrollSelectors drawerBody = true
  /\ exists c, c ∈ descendants drawer
               /\ matchesAny scrollSelectors c = true
               /\ optimizeModalScroll drawer desktopPage
                  = writeStyles (eid c) scrollStyles desktopPage.
Proof.
  destruct (optimizeModalScroll_needs_a_region dialog desktopPage) as [Hnone _].
  destruct (optimizeModalScroll_needs_a_region drawer desktopPage) as [_ Hsome].
  assert (H1 : forall d, d ∈ descendants dialog -> matchesAny scrollSelectors d = false)
    by (intros d Hd; vm_compute in Hd; inversion Hd).
  assert (H2 : drawerBody ∈ descendants drawer)
    by (vm_compute; do 4 apply list_elem_of_further; apply list_elem_of_here).
  assert (H3 : matchesAny scrollSelectors drawerBody = true) by by_evaluation.
  split; [exact (Hnone H1)|]. split; [exact H2|]. split; [exact H3|].
  exact (Hsome _ H2 H3).
Defined.

(** [wrapper] added to the empty desktop page. *)
Lemma checkForModal_registers_what_matches_witness :
  sheet ∈ descendants wrapper
  /\ matchesAny modalSelectors sheet = true
  /\ includes (activeModals (checkForModal inlineCascade wrapper desktopPage)) sheet
     = true.
Proof.
  assert (H1 : sheet ∈ descendants wrapper) by (vm_compute; apply list_elem_of_here).
  assert (H2 : matchesAny modalSelectors sheet = true) by by_evaluation.
  destruct (checkForModal_registers_what_matches inlineCascade wrapper desktopPage)
    as (_ & Hdesc & _).
  split; [exact H1|]. split; [exact H2 | exact (Hdesc _ H1 H2)].
Defined.

(** The optimizer constructed on [page]. *)
Lemma construct_registers_visible_overlays_witness :
  let s := construct inlineCascade page ∅ ∅ 1024 in
  sheet ∈ descendants page
  /\ matchesAny existingSelectors sheet = true
  /\ displayNone sheet = false
  /\ includes (activeModals s) sheet = true
  /\ sheet ∈ activeModals s
  /\ activeModals s = [sheet].
Proof.
  intros s.
  assert (H1 : sheet ∈ descendants page) by (vm_compute; apply list_elem_of_here).
  assert (H2 : matchesAny existingSelectors sheet = true) by by_evaluation.
  assert (H3 : displayNone sheet = false) by reflexivity.
  assert (H4 : sheet ∈ activeModals s) by (vm_compute; apply list_elem_of_here).
  assert (H5 : activeModals s = [sheet]) by by_evaluation.
  destruct (construct_registers_visible_overlays inlineCascade page ∅ ∅ 1024)
    as [Hall Honly].
  split; [exact H1|]. split; [exact H2|]. split; [exact H3|].
  split; [exact (Hall _ H1 H2 H3)|]. split; [exact H4 | exact H5].
Defined.

(** [dialog] while [sheet] is removed or closed. *)
Lemma removal_and_close_are_local_witness :
  eid dialog ∈ ids (activeModals desktopWithBoth)
  /\ eid dialog ≠ eid sheet
  /\ (eid dialog ∉ ids (querySelectorAll sheet removalSelectors))
  /\ eid dialog ∈ ids (activeModals (checkForModalRemoval sheet desktopWithBoth))
  /\ eid dialog ∈ ids (activeModals (doCloseModal sheet desktopWithBoth)).
Proof.
  assert (H1 : eid dialog ∈ ids (activeModals desktopWithBoth)) by decided.
  assert (H2 : eid dialog ≠ eid sheet) by (vm_compute; lia).
  assert (H3 : eid dialog ∉ ids (querySelectorAll sheet removalSelectors)) by decided.
  destruct (removal_and_close_are_local dialog desktopWithBoth H1)
    as (Hremoval & Hclose & _).
  split; [exact H1|]. split; [exact H2|]. split; [exact H3|].
  split; [exact (Hremoval sheet H2 H3) | exact (Hclose sheet H2)].
Defined.

(** The removal of [dialog], which is not open, while [sheet] is. *)
Lemma removal_of_unknown_node_is_noop_witness :
  (eid dialog ∉ ids (activeModals desktopWithSheet))
  /\ (forall d, d ∈ querySelectorAll dialog removalSelectors ->
                eid d ∉ ids (activeModals desktopWithSheet))
  /\ checkForModalRemoval dialog desktopWithSheet = desktopWithSheet.
Proof.
  assert (H1 : eid dialog ∉ ids (activeModals desktopWithSheet)) by decided.
  assert (H2 : forall d, d ∈ querySelectorAll dialog removalSelectors ->
                         eid d ∉ ids (activeModals desktopWithSheet))
    by (intros d Hd; vm_compute in Hd; inversion Hd).
  split; [exact H1|]. split; [exact H2|].
  exact (proj1 (removal_of_unknown_node_is_noop inlineCascade dialog 0
                  desktopWithSheet H1 H2)).
Defined.

(** [sheet] opened and closed on the page whose body has an inline
    [position]. *)
Lemma open_then_close_restores_the_body_witness :
  activeModals styledPage = []
  /\ size (originalBodyStyles styledPage) = 0
  /\ hasBodyAttribute lockAttr styledPage = false
  /\ "position" ∈ trackedProperties
  /\ let closed := doCloseModal sheet (optimizeModal inlineCascade sheet styledPage) in
     bodyAttrs closed = bodyAttrs styledPage
     /\ bodyStyle closed !! "position" = Some "relative".
Proof.
  assert (H1 : activeModals styledPage = []) by reflexivity.
  assert (H2 : size (originalBodyStyles styledPage) = 0) by by_evaluation.
  assert (H3 : hasBodyAttribute lockAttr styledPage = false) by by_evaluation.
  assert (H4 : "position" ∈ trackedProperties) by decided.
  destruct (open_then_close_restores_the_body inlineCascade sheet styledPage H1 H2 H3)
    as (_ & _ & _ & _ & Hattrs & Htracked).
  split; [exact H1|]. split; [exact H2|]. split; [exact H3|]. split; [exact H4|].
  split; [exact Hattrs | exact (Htracked _ H4)].
Defined.

(** [drawer] opened, closed and opened again on the mobile page. *)
Lemma indicator_inserted_once_witness :
  includes (activeModals mobilePage) drawer = false
  /\ isMobile mobilePage = true
  /\ hasIndicator drawerContent mobileWithDrawer = true
  /\ addTopIndicator drawerContent mobileWithDrawer = mobileWithDrawer
  /\ indicators (optimizeModal inlineCascade drawer (doCloseModal drawer mobileWithDrawer))
     = indicators mobileWithDrawer.
Proof.
  assert (H1 : includes (activeModals mobilePage) drawer = false) by by_evaluation.
  assert (H2 : isMobile mobilePage = true) by by_evaluation.
  assert (H3 : hasIndicator drawerContent mobileWithDrawer = true) by by_evaluation.
  destruct (indicator_inserted_once inlineCascade drawerContent drawer mobileWithDrawer)
    as (_ & Hpresent & _).
  destruct (indicator_inserted_once inlineCascade drawerContent drawer mobilePage)
    as (_ & _ & _ & Hreopen).
  split; [exact H1|]. split; [exact H2|]. split; [exact H3|].
  split; [exact (Hpresent H3) | exact (Hreopen H1 H2)].
Defined.

(** The triggers of [drawer], registered on the desktop page. *)
Lemma wired_triggers_run_the_close_sequence_witness :
  let s' := optimizeModal inlineCascade drawer desktopPage in
  includes (activeModals desktopPage) drawer = false
  /\ drawerClose ∈ closeButtonsOf drawer
  /\ backdropOf drawer = Some drawerMask
  /\ dispatch "close" (eid drawer) (eid drawer) s' = closeModal drawer s'
  /\ dispatch "click" (eid drawerClose) (eid drawerClose) s' = closeModal drawer s'
  /\ dispatch "click" (eid drawerMask) (eid drawerMask) s' = closeModal drawer s'
  /\ dispatch "click" (eid drawerMask) (eid drawerContent) s' = s'.
Proof.
  intros s'.
  assert (H1 : includes (activeModals desktopPage) drawer = false) by by_evaluation.
  assert (H2 : drawerClose ∈ closeButtonsOf drawer)
    by (vm_compute; apply list_elem_of_here).
  assert (H3 : backdropOf drawer = Some drawerMask) by by_evaluation.
  assert (Hquiet : forall i ty l, l ∈ listeners desktopPage -> target l = i ->
                                  eventType l ≠ ty)
    by (intros i ty l Hl; vm_compute in Hl; inversion Hl).
  assert (H4 : closeMark (eid drawerClose) ∉ marks desktopPage) by decided.
  assert (H5 : backdropMark (eid drawerMask) ∉ marks desktopPage) by decided.
  assert (H6 : forall bd, backdropOf drawer = Some bd -> eid bd ≠ eid drawerClose)
    by (intros bd Hbd; rewrite H3 in Hbd; injection Hbd as <-; vm_compute; lia).
  assert (H7 : eid drawerMask ∉ ids (closeButtonsOf drawer)) by decided.
  destruct (wired_triggers_run_the_close_sequence inlineCascade drawer desktopPage H1)
    as (Hsignal & Hbutton & Hbackdrop).
  destruct (Hbackdrop _ H3 H5 (Hquiet _ _) H7) as [Hself Hinside].
  split; [exact H1|]. split; [exact H2|]. split; [exact H3|].
  split; [exact (Hsignal (Hquiet _ _) _)|].
  split; [exact (Hbutton _ H2 H4 (Hquiet _ _) H6 _)|].
  split; [exact Hself|]. apply Hinside. vm_compute. lia.
Defined.

(** [drawer] opened on the mobile page and closed 5 ms later. *)
Lemma entrance_timer_outlives_an_early_close_witness :
  includes (activeModals mobilePage) drawer = false
  /\ isMobile mobilePage = true /\ timers mobilePage = []
  /\ (0 <= 5 < 10)%Z
  /\ timers (closeModal drawer (advance 5 (optimizeModal inlineCascade drawer mobilePage)))
     = [mkTimer 10 (ShowContent (eid drawerContent)); mkTimer 305 (DoClose drawer)]
  /\ activeModals
       (advance 300
          (closeModal drawer (advance 5 (optimizeModal inlineCascade drawer mobilePage))))
     = [].
Proof.
  assert (H1 : includes (activeModals mobilePage) drawer = false) by by_evaluation.
  assert (H2 : isMobile mobilePage = true) by by_evaluation.
  assert (H3 : timers mobilePage = []) by reflexivity.
  assert (H4 : (0 <= 5 < 10)%Z) by lia.
  destruct (entrance_timer_outlives_an_early_close inlineCascade drawer 5 mobilePage
              H1 H2 H3 H4) as (_ & Hqueue & _ & _ & _ & Hreg & _).
  split; [exact H1|]. split; [exact H2|]. split; [exact H3|]. split; [exact H4|].
  split; [exact Hqueue | exact Hreg].
Defined.

(** * The image optimizer *)

Import Assets.

(** ** Lazy loading *)

(** What [loadImage] does to the attributes, as a function of the
    attributes. *)
Lemma loadImage_attributes img :
  attributes (loadImage img)
  = let a := attributes img in
    let a := match a !! "data-src" with
             | Some v => if truthy (Some v) then delete "data-src" (<["src" := v]> a) else a
             | None => a
             end in
    match attributes img !! "data-srcset" with
    | Some v => if truthy (Some v) then delete "data-srcset" (<["srcset" := v]> a) else a
    | None => a
    end.
Proof.
  unfold loadImage, getAttribute. simpl.
  destruct (attributes img !! "data-src") as [v|];
    destruct (attributes img !! "data-srcset") as [w|]; simpl;
    repeat case_bool_decide; reflexivity.
Qed.

Lemma loadImage_classNames img :
  classNames (loadImage img) = {["loaded"]} ∪ classNames img.
Proof.
  unfold loadImage, getAttribute. simpl.
  destruct (attributes img !! "data-src") as [v|];
    destruct (attributes img !! "data-srcset") as [w|]; simpl;
    repeat case_bool_decide; reflexivity.
Qed.

Lemma loadImage_handlers img :
  handlers (loadImage img) = handlers img ++ [("load", MarkLoaded); ("error", MarkError)].
Proof.
  unfold loadImage, getAttribute. simpl.
  destruct (attributes img !! "data-src") as [v|];
    destruct (attributes img !! "data-srcset") as [w|]; simpl;
    repeat case_bool_decide; simpl; by rewrite <- app_assoc.
Qed.


Lemma loadImage_sameData a b : sameData a b -> sameData (loadImage a) (loadImage b).
Proof.
  intros [Ha Hc]. split.
  - by rewrite !loadImage_attributes, Ha.
  - by rewrite !loadImage_classNames, Hc.
Qed.

Lemma loadImage_twice img : sameData (loadImage (loadImage img)) (loadImage img).
Proof.
  split.
  - rewrite (loadImage_attributes (loadImage img)), (loadImage_attributes img).
    cbv zeta.
    destruct (attributes img !! "data-src") as [v|] eqn:E1;
      destruct (attributes img !! "data-srcset") as [w|] eqn:E2; simpl;
      repeat case_bool_decide; simpl; simplify_map_eq; simpl;
      rewrite ?bool_decide_eq_true_2 by done; reflexivity.
  - rewrite !loadImage_classNames. by rewrite (assoc_L (∪)), (idemp_L (∪) _).
Qed.

(** The step of the observer's callback. *)
Lemma onIntersection_cons doc e entries :
  onIntersection doc (e :: entries)
  = onIntersection
      (if isIntersecting e
       then mkDocument (alter loadImage (entryTarget e) (images doc))
                       (observed doc ∖ {[entryTarget e]})
       else doc) entries.
Proof. reflexivity. Qed.

Lemma onIntersection_observed entries : forall doc id,
  id ∈ observed (onIntersection doc entries)
  <-> id ∈ observed doc /\ intersects id entries = false.
Proof.
  induction entries as [|e entries IH]; intros doc id.
  - simpl. tauto.
  - rewrite onIntersection_cons, IH. simpl.
    destruct (isIntersecting e); simpl.
    + rewrite elem_of_difference, elem_of_singleton.
      case_bool_decide; simpl; intuition congruence.
    + rewrite andb_false_r. simpl. tauto.
Qed.

Lemma onIntersection_images entries : forall doc id img,
  images doc !! id = Some img ->
  exists img',
    images (onIntersection doc entries) !! id = Some img'
    /\ (intersects id entries = true -> sameData img' (loadImage img))
    /\ (intersects id entries = false -> img' = img).
Proof.
  induction entries as [|e entries IH]; intros doc id img Himg.
  - exists img. by repeat split.
  - rewrite onIntersection_cons. simpl.
    destruct (isIntersecting e) eqn:Ei; simpl.
    + case_bool_decide as Ht; simpl.
      * destruct (IH (mkDocument (alter loadImage (entryTarget e) (images doc))
                        (observed doc ∖ {[entryTarget e]})) id (loadImage img))
          as (img' & Hl & Hhit & Hmiss).
        { simpl. rewrite Ht, lookup_alter_eq, Himg. reflexivity. }
        exists img'. split; [done|]. split; [|done]. intros _.
        destruct (intersects id entries).
        -- destruct (Hhit eq_refl) as [Ha Hc].
           destruct (loadImage_twice img) as [Ha' Hc']. split; congruence.
        -- by rewrite (Hmiss eq_refl).
      * apply IH. simpl. by rewrite lookup_alter_ne.
    + rewrite andb_false_r. simpl. by apply IH.
Qed.

(** X15. The callback of the lazy-load observer.  After it has run, the
    images it still observes are those it observed that no entry reported
    as intersecting; an image reported as intersecting has the attributes
    and classes [loadImage] gives it (however many entries reported it),
    and every other image is untouched.  Once the observer has stopped
    observing an image, no later run of the callback observes it
    again. *)
Theorem onIntersection_loads_and_unobserves doc entries id img :
  images doc !! id = Some img ->
  let doc' := onIntersection doc entries in
  (id ∈ observed doc' <-> id ∈ observed doc /\ intersects id entries = false)
  /\ (intersects id entries = true ->
        (id ∉ observed doc')
        /\ exists img', images doc' !! id = Some img'
                        /\ attributes img' = attributes (loadImage img)
                        /\ classNames img' = classNames (loadImage img))
  /\ (intersects id entries = false -> images doc' !! id = Some img)
  /\ (forall more, (id ∉ observed doc') ->
        observed (onIntersection doc' more) ⊆ observed doc'
        /\ (id ∉ observed (onIntersection doc' more))).
Proof.
  intros Himg doc'. subst doc'.
  destruct (onIntersection_images entries doc id img Himg) as (img' & Hl & Hhit & Hmiss).
  split; [apply onIntersection_observed|]. split; [|split].
  - intros Hi. split.
    + rewrite onIntersection_observed, Hi. by intros [_ ?].
    + exists img'. split; [done|]. by apply Hhit.
  - intros Hi. by rewrite Hl, (Hmiss Hi).
  - intros more Hout. split.
    + intros x Hx. by apply onIntersection_observed in Hx as [? _].
    + rewrite onIntersection_observed. by intros [? _].
Qed.

(** ** The steps of [optimizeImage] *)

Lemma prefix_includesString needle s :
  String.prefix needle s = true -> includesString needle s = true.
Proof. intros H. destruct s; simpl; simpl in H; by rewrite H. Qed.

Section OptimizeSteps.

Variable resolveURL : string -> string.

Lemma src_setAttribute name value img :
  name ≠ "src" ->
  src resolveURL (setAttribute name value img) = src resolveURL img.
Proof.
  intros H. unfold src, getAttribute, setAttribute, setAttributes.
  cbn [attributes]. by rewrite lookup_insert_ne.
Qed.

Lemma getAttribute_setAttribute_ne name name' value img :
  name ≠ name' ->
  getAttribute name (setAttribute name' value img) = getAttribute name img.
Proof.
  intros H. unfold getAttribute, setAttribute, setAttributes.
  cbn [attributes]. by rewrite lookup_insert_ne.
Qed.

Lemma setResponsiveSize_fields img :
  classNames (setResponsiveSize img) = classNames img
  /\ handlers (setResponsiveSize img) = handlers img.
Proof. unfold setResponsiveSize. by destruct (negb (hasAttribute "sizes" img)). Qed.

Lemma convertToWebP_fields img :
  classNames (convertToWebP resolveURL img) = classNames img
  /\ handlers (convertToWebP resolveURL img) = handlers img.
Proof. unfold convertToWebP. cbv zeta. by destruct (_ && _). Qed.

Lemma updateImageQuality_fields img quality :
  classNames (updateImageQuality resolveURL img quality) = classNames img
  /\ handlers (updateImageQuality resolveURL img quality) = handlers img.
Proof. unfold updateImageQuality. cbv zeta. by destruct (_ && _). Qed.

Lemma src_setResponsiveSize img :
  src resolveURL (setResponsiveSize img) = src resolveURL img.
Proof.
  unfold setResponsiveSize. destruct (negb (hasAttribute "sizes" img)); [|done].
  by apply src_setAttribute.
Qed.

Lemma src_convertToWebP img :
  src resolveURL (convertToWebP resolveURL img) = src resolveURL img.
Proof.
  unfold convertToWebP. cbv zeta.
  destruct (_ && _); [|done]. by apply src_setAttribute.
Qed.

Lemma getAttribute_setResponsiveSize name img :
  name ≠ "sizes" -> getAttribute name (setResponsiveSize img) = getAttribute name img.
Proof.
  intros H. unfold setResponsiveSize. destruct (negb (hasAttribute "sizes" img)); [|done].
  by apply getAttribute_setAttribute_ne.
Qed.

Lemma getAttribute_updateImageQuality name img quality :
  name ≠ "data-quality" ->
  getAttribute name (updateImageQuality resolveURL img quality) = getAttribute name img.
Proof.
  intros H. unfold updateImageQuality, compressDataURLImage. cbv zeta.
  destruct (_ && _); [|done]. by apply getAttribute_setAttribute_ne.
Qed.

Lemma getAttribute_convertToWebP name img :
  name ≠ "data-webp-src" ->
  getAttribute name (convertToWebP resolveURL img) = getAttribute name img.
Proof.
  intros H. unfold convertToWebP. cbv zeta. destruct (_ && _); [|done].
  by apply getAttribute_setAttribute_ne.
Qed.

Lemma optimizeImage_handlers img quality webPSupported :
  handlers (optimizeImage resolveURL img quality webPSupported)
  = handlers img ++ [("error", Fallback); ("load", MarkLoaded)].
Proof.
  unfold optimizeImage. cbv zeta.
  change (handlers (addEventListener ?a ?b (addEventListener ?c ?d ?x)))
    with ((handlers x ++ [(c, d)]) ++ [(a, b)]).
  rewrite (proj2 (updateImageQuality_fields _ _)).
  destruct webPSupported; [rewrite (proj2 (convertToWebP_fields _))|];
    rewrite (proj2 (setResponsiveSize_fields _));
    change (handlers (addClass "loading" img)) with (handlers img);
    by rewrite <- app_assoc.
Qed.

Lemma optimizeImage_classNames img quality webPSupported :
  classNames (optimizeImage resolveURL img quality webPSupported)
  = {["loading"]} ∪ classNames img.
Proof.
  unfold optimizeImage. cbv zeta.
  change (classNames (addEventListener ?a ?b (addEventListener ?c ?d ?x)))
    with (classNames x).
  rewrite (proj1 (updateImageQuality_fields _ _)).
  destruct webPSupported; [rewrite (proj1 (convertToWebP_fields _))|];
    by rewrite (proj1 (setResponsiveSize_fields _)).
Qed.

Lemma optimizeImage_attributes img quality webPSupported name :
  name ∉ ["sizes"; "data-webp-src"; "data-quality"] ->
  getAttribute name (optimizeImage resolveURL img quality webPSupported)
  = getAttribute name img.
Proof.
  intros Hname. repeat (apply not_elem_of_cons in Hname as [? Hname]).
  unfold optimizeImage. cbv zeta.
  change (getAttribute name (addEventListener ?a ?b (addEventListener ?c ?d ?x)))
    with (getAttribute name x).
  rewrite getAttribute_updateImageQuality by done.
  destruct webPSupported; [rewrite getAttribute_convertToWebP by done|];
    by rewrite getAttribute_setResponsiveSize.
Qed.

End OptimizeSteps.

(** ** Errors and the fallback image *)


Lemma fallback_is_data_url btoa img :
  String.prefix "data:" (getFallbackImage btoa img) = true
  /\ getFallbackImage btoa img ≠ "".
Proof. unfold getFallbackImage. split; [reflexivity | discriminate]. Qed.

Lemma handleImageError_unfold btoa img :
  handleImageError btoa img
  = let img1 := addClass "error" img in
    if hasAttribute "data-fallback-src" img then img1
    else setAttribute "data-fallback-src" (getFallbackImage btoa img)
           (setAttribute "src" (getFallbackImage btoa img) img1).
Proof.
  unfold handleImageError.
  change (hasAttribute "data-fallback-src" (addClass "error" img))
    with (hasAttribute "data-fallback-src" img).
  change (getFallbackImage btoa (addClass "error" img)) with (getFallbackImage btoa img).
  destruct (fallback_is_data_url btoa img) as [_ Hne].
  unfold truthy. rewrite (bool_decide_eq_false_2 _ Hne).
  by destruct (hasAttribute "data-fallback-src" img).
Qed.


Section ImageEvents.

Variable resolveURL : string -> string.
Variable btoa : string -> string.


Lemma runHandler_keeps_loaded img h :
  "loaded" ∈ classNames img -> "loaded" ∈ classNames (runHandler btoa img h).
Proof.
  intros H. unfold runHandler. destruct h.2; simpl.
  - apply elem_of_difference. split; [by apply elem_of_union_r|].
    by intros ?%elem_of_singleton.
  - apply elem_of_difference. split; [by apply elem_of_union_r|].
    by intros ?%elem_of_singleton.
  - rewrite handleImageError_unfold. cbv zeta.
    destruct (hasAttribute "data-fallback-src" img); simpl; by apply elem_of_union_r.
Qed.

(** X17. [loadImage] adds the class [loaded] before anything is loaded,
    and no listener removes it: when the image then fails to load, it
    carries both [loaded] and [error] after the ['error'] event, and it
    still carries [loaded] after any event. *)
Theorem failed_lazy_image_is_loaded_and_error img ty :
  let failed := dispatchEvent btoa "error" (loadImage img) in
  "loaded" ∈ classNames failed
  /\ "error" ∈ classNames failed
  /\ ("loading" ∉ classNames failed)
  /\ "loaded" ∈ classNames (dispatchEvent btoa ty (loadImage img)).
Proof.
  assert (Hkeep : forall l x, "loaded" ∈ classNames x ->
                              "loaded" ∈ classNames (foldl (runHandler btoa) x l)).
  { induction l as [|h l IH]; intros x Hx; simpl; [done|].
    by apply IH, runHandler_keeps_loaded. }
  assert (Hloaded : "loaded" ∈ classNames (loadImage img)).
  { rewrite loadImage_classNames. apply elem_of_union_l, elem_of_singleton.
    reflexivity. }
  intros failed. split; [by apply Hkeep|].
  assert (Hlast : failed
                  = runHandler btoa
                      (foldl (runHandler btoa) (loadImage img)
                         (List.filter (fun h => bool_decide (h.1 = "error")) (handlers img)))
                      ("error", MarkError)).
  { subst failed. unfold dispatchEvent. rewrite loadImage_handlers.
    rewrite !List.filter_app. simpl. by rewrite foldl_app. }
  split; [|split; [|by apply Hkeep]].
  - rewrite Hlast. unfold runHandler. simpl.
    apply elem_of_difference. split.
    + apply elem_of_union_l, elem_of_singleton. reflexivity.
    + by intros ?%elem_of_singleton.
  - rewrite Hlast. unfold runHandler. simpl.
    intros [_ Hn]%elem_of_difference. by apply Hn, elem_of_singleton.
Qed.

End ImageEvents.

(** ** WebP candidates *)

Lemma lowerString_app a b :
  lowerString (a +:+ b) = lowerString a +:+ lowerString b.
Proof. induction a as [|c a IH]; simpl; [done|]. by rewrite IH. Qed.

Lemma isImageExtension_cases e :
  isImageExtension e = true ->
  lowerString e = ".jpg" \/ lowerString e = ".jpeg" \/ lowerString e = ".png".
Proof.
  unfold isImageExtension. intros H%bool_decide_eq_true.
  repeat (apply elem_of_cons in H as [H|H]; [tauto|]).
  by apply elem_of_nil in H.
Qed.

(** An extension is no proper suffix of another one. *)
Lemma extension_is_first c p e :
  isImageExtension e = true -> isImageExtension (String c (p +:+ e)) = false.
Proof.
  intros He. apply bool_decide_eq_false. intros H.
  change (String c (p +:+ e)) with (String c p +:+ e) in H.
  rewrite lowerString_app in H.
  apply isImageExtension_cases in He.
  change (lowerString (String c p))
    with (String (lowerAscii c) (lowerString p)) in H.
  destruct He as [He | [He | He]]; rewrite He in H; clear He;
    destruct (lowerString p) as [|c1 [|c2 [|c3 [|c4 [|c5 q]]]]];
    repeat (apply elem_of_cons in H as [H|H]; [simpl in H; discriminate|]);
    by apply elem_of_nil in H.
Qed.

Lemma replaceExtension_unfold s :
  replaceExtension s
  = if isImageExtension s then ".webp"
    else match s with
         | EmptyString => EmptyString
         | String c rest => String c (replaceExtension rest)
         end.
Proof. by destruct s. Qed.

Lemma replaceExtension_app p e :
  isImageExtension e = true -> replaceExtension (p +:+ e) = p +:+ ".webp".
Proof.
  intros He. induction p as [|c p IH].
  - change ("" +:+ e) with e. by rewrite replaceExtension_unfold, He.
  - change (String c p +:+ e) with (String c (p +:+ e)).
    rewrite replaceExtension_unfold, (extension_is_first c p e He).
    by rewrite IH.
Qed.

Lemma replaceExtension_cases s :
  replaceExtension s = s
  \/ exists p e, s = p +:+ e /\ isImageExtension e = true
                 /\ replaceExtension s = p +:+ ".webp".
Proof.
  induction s as [|c s IH]; rewrite replaceExtension_unfold.
  - left. reflexivity.
  - destruct (isImageExtension (String c s)) eqn:E.
    + right. exists "", (String c s). by rewrite E.
    + destruct IH as [-> | (p & e & -> & He & ->)]; [by left|].
      right. exists (String c p), e. by rewrite He.
Qed.

Section WebP.

Variable resolveURL : string -> string.

(** X18. [convertToWebP] never changes [src] or any attribute but
    [data-webp-src].  It does nothing for an image whose source is empty
    or contains [.webp] or [data:]; for any other it records a candidate:
    the source with its final [.jpg], [.jpeg] or [.png], in any case of
    letters, replaced by [.webp], and the source itself when it does not
    end in one of them. *)
Theorem convertToWebP_records_a_candidate img :
  let img' := convertToWebP resolveURL img in
  let url := src resolveURL img in
  (forall name, name ≠ "data-webp-src" -> getAttribute name img' = getAttribute name img)
  /\ classNames img' = classNames img
  /\ handlers img' = handlers img
  /\ (url = "" \/ includesString ".webp" url = true \/ includesString "data:" url = true ->
      img' = img)
  /\ (url ≠ "" -> includesString ".webp" url = false ->
      includesString "data:" url = false ->
      (forall p e, url = p +:+ e -> isImageExtension e = true ->
         getAttribute "data-webp-src" img' = Some (p +:+ ".webp"))
      /\ (getAttribute "data-webp-src" img' = Some url
          \/ exists p e, url = p +:+ e /\ isImageExtension e = true
                         /\ getAttribute "data-webp-src" img' = Some (p +:+ ".webp"))).
Proof.
  intros img' url. subst img' url. unfold convertToWebP.
  split; [|split; [|split; [|split]]].
  - intros name Hname. split_branches; [|done].
    unfold getAttribute. simpl. by rewrite lookup_insert_ne.
  - by split_branches.
  - by split_branches.
  - intros [-> | [-> | ->]]; [done| |];
      by rewrite ?andb_false_r.
  - intros Hne Hwebp Hdata.
    rewrite Hwebp, Hdata, (bool_decide_eq_false_2 _ Hne). simpl.
    unfold getAttribute. simpl. rewrite lookup_insert_eq. split.
    + intros p e -> He. by rewrite replaceExtension_app.
    + destruct (replaceExtension_cases (src resolveURL img))
        as [-> | (p & e & Hs & He & ->)]; [by left|].
      right. by exists p, e.
Qed.

End WebP.

(** ** An optimized image and its events *)

Section OptimizedImages.

Variable resolveURL : string -> string.
Variable btoa : string -> string.

Lemma runHandler_keeps c img h :
  c ≠ "loading" -> c ∈ classNames img -> c ∈ classNames (runHandler btoa img h).
Proof.
  intros Hc H. unfold runHandler. destruct h.2; simpl.
  - apply elem_of_difference. split; [by apply elem_of_union_r|].
    by intros ?%elem_of_singleton.
  - apply elem_of_difference. split; [by apply elem_of_union_r|].
    by intros ?%elem_of_singleton.
  - rewrite handleImageError_unfold. cbv zeta.
    destruct (hasAttribute "data-fallback-src" img); simpl; by apply elem_of_union_r.
Qed.

Lemma foldl_runHandler_keeps c l img :
  c ≠ "loading" -> c ∈ classNames img ->
  c ∈ classNames (foldl (runHandler btoa) img l).
Proof.
  intros Hc. revert img. induction l as [|h l IH]; intros img H; simpl; [done|].
  by apply IH, runHandler_keeps.
Qed.

Lemma dispatchEvent_last ty h l img :
  handlers img = l ++ [(ty, h)] ->
  dispatchEvent btoa ty img
  = runHandler btoa
      (foldl (runHandler btoa) img (List.filter (fun h => bool_decide (h.1 = ty)) l))
      (ty, h).
Proof.
  intros H. unfold dispatchEvent. rewrite H, List.filter_app. simpl.
  rewrite bool_decide_eq_true_2 by done. by rewrite foldl_app.
Qed.

Lemma runHandler_handlers img h : handlers (runHandler btoa img h) = handlers img.
Proof.
  unfold runHandler. destruct h.2; simpl; try done.
  rewrite handleImageError_unfold. cbv zeta.
  by destruct (hasAttribute "data-fallback-src" img).
Qed.

Lemma dispatchEvent_handlers ty img :
  handlers (dispatchEvent btoa ty img) = handlers img.
Proof.
  unfold dispatchEvent. generalize (List.filter (fun h => bool_decide (h.1 = ty)) (handlers img)).
  intros l. revert img. induction l as [|h l IH]; intros img; simpl; [done|].
  by rewrite IH, runHandler_handlers.
Qed.

Lemma markLoaded_classes img :
  "loaded" ∈ classNames (runHandler btoa img ("load", MarkLoaded))
  /\ ("loading" ∉ classNames (runHandler btoa img ("load", MarkLoaded))).
Proof.
  unfold runHandler. simpl. split.
  - apply elem_of_difference. split.
    + apply elem_of_union_l, elem_of_singleton. reflexivity.
    + by intros ?%elem_of_singleton.
  - intros [_ Hn]%elem_of_difference. by apply Hn, elem_of_singleton.
Qed.

Lemma convertToWebP_skips_data img :
  String.prefix "data:" (src resolveURL img) = true ->
  convertToWebP resolveURL img = img.
Proof.
  intros H%prefix_includesString. unfold convertToWebP. cbv zeta.
  by rewrite H, andb_false_r.
Qed.

Lemma updateImageQuality_skips_others img quality :
  String.prefix "data:" (src resolveURL img) = false ->
  updateImageQuality resolveURL img quality = img.
Proof.
  intros H. unfold updateImageQuality. cbv zeta. by rewrite H, andb_false_r.
Qed.

(** X19. [optimizeImage] marks the image with the class [loading] and
    leaves [src], [srcset], [data-src] and [data-srcset] alone, and a
    [sizes] attribute the image already has.  It records a WebP candidate
    or a quality for a [data:] source, never both.  The ['load'] event
    replaces [loading] by [loaded].  The ['error'] event does not: the
    listener added here calls [handleImageError], which leaves [loading]
    in place, and the class goes only when the placeholder has loaded,
    with [error] staying beside [loaded]. *)
Theorem optimizeImage_loading_ends_with_load img quality webPSupported :
  let optimized := optimizeImage resolveURL img quality webPSupported in
  "loading" ∈ classNames optimized
  /\ (forall name, name ∈ ["src"; "srcset"; "data-src"; "data-srcset"] ->
        getAttribute name optimized = getAttribute name img)
  /\ (hasAttribute "sizes" img = true ->
        getAttribute "sizes" optimized = getAttribute "sizes" img)
  /\ (getAttribute "data-webp-src" optimized = getAttribute "data-webp-src" img
      \/ getAttribute "data-quality" optimized = getAttribute "data-quality" img)
  /\ ("loaded" ∈ classNames (dispatchEvent btoa "load" optimized)
      /\ ("loading" ∉ classNames (dispatchEvent btoa "load" optimized)))
  /\ ((forall h, h ∈ handlers img -> h.1 ≠ "error") ->
      let failed := dispatchEvent btoa "error" optimized in
      let replaced := dispatchEvent btoa "load" failed in
      "error" ∈ classNames failed
      /\ "loading" ∈ classNames failed
      /\ "error" ∈ classNames replaced
      /\ "loaded" ∈ classNames replaced
      /\ ("loading" ∉ classNames replaced)).
Proof.
  intros optimized.
  assert (Hloading : "loading" ∈ classNames optimized).
  { subst optimized. rewrite optimizeImage_classNames.
    apply elem_of_union_l, elem_of_singleton. reflexivity. }
  assert (Hhandlers : handlers optimized
                      = (handlers img ++ [("error", Fallback)]) ++ [("load", MarkLoaded)]).
  { subst optimized. rewrite optimizeImage_handlers. by rewrite <- app_assoc. }
  split; [exact Hloading|]. split; [|split; [|split; [|split]]].
  - intros name Hname. apply optimizeImage_attributes.
    repeat (apply elem_of_cons in Hname as [-> | Hname]; [by compute_done|]).
    by apply elem_of_nil in Hname.
  - intros Hsizes. subst optimized. unfold optimizeImage. cbv zeta.
    change (getAttribute "sizes" (addEventListener ?a ?b (addEventListener ?c ?d ?x)))
      with (getAttribute "sizes" x).
    rewrite getAttribute_updateImageQuality by done.
    assert (Hkeep : getAttribute "sizes" (setResponsiveSize (addClass "loading" img))
                    = getAttribute "sizes" img).
    { unfold setResponsiveSize.
      change (hasAttribute "sizes" (addClass "loading" img))
        with (hasAttribute "sizes" img).
      by rewrite Hsizes. }
    destruct webPSupported; [rewrite getAttribute_convertToWebP by done|]; exact Hkeep.
  - subst optimized. unfold optimizeImage. cbv zeta.
    change (getAttribute ?n (addEventListener ?a ?b (addEventListener ?c ?d ?x)))
      with (getAttribute n x).
    destruct (String.prefix "data:" (src resolveURL img)) eqn:Hdata.
    + left. rewrite getAttribute_updateImageQuality by done.
      destruct webPSupported.
      * rewrite convertToWebP_skips_data
          by (by rewrite src_setResponsiveSize).
        by rewrite getAttribute_setResponsiveSize.
      * by rewrite getAttribute_setResponsiveSize.
    + right. rewrite updateImageQuality_skips_others.
      * destruct webPSupported; [rewrite getAttribute_convertToWebP by done|];
          by rewrite getAttribute_setResponsiveSize.
      * destruct webPSupported; [rewrite src_convertToWebP|];
          by rewrite src_setResponsiveSize.
  - rewrite (dispatchEvent_last _ _ _ _ Hhandlers). apply markLoaded_classes.
  - intros Hquiet failed replaced.
    assert (Hfailed : failed = handleImageError btoa optimized).
    { subst failed. unfold dispatchEvent. rewrite Hhandlers, !List.filter_app.
      rewrite (filter_none _ (handlers img)).
      - reflexivity.
      - intros h Hh. apply bool_decide_eq_false. by apply Hquiet. }
    assert (Herror : "error" ∈ classNames failed).
    { rewrite Hfailed, handleImageError_unfold. cbv zeta.
      destruct (hasAttribute "data-fallback-src" optimized); simpl;
        apply elem_of_union_l, elem_of_singleton; reflexivity. }
    assert (Hstill : "loading" ∈ classNames failed).
    { rewrite Hfailed, handleImageError_unfold. cbv zeta.
      destruct (hasAttribute "data-fallback-src" optimized); simpl;
        by apply elem_of_union_r. }
    assert (Hh : handlers failed
                 = (handlers img ++ [("error", Fallback)]) ++ [("load", MarkLoaded)]).
    { subst failed. by rewrite dispatchEvent_handlers. }
    split; [exact Herror|]. split; [exact Hstill|].
    subst replaced. rewrite (dispatchEvent_last _ _ _ _ Hh).
    split; [|apply markLoaded_classes].
    apply runHandler_keeps; [done|]. by apply foldl_runHandler_keeps.
Qed.

End OptimizedImages.

(** ** The image optimizer on the concrete images *)


(** The observer reports [lazyCoin] as intersecting. *)
Lemma onIntersection_loads_and_unobserves_witness :
  images gallery !! 1 = Some lazyCoin
  /\ 1 ∈ observed gallery
  /\ intersects 1 [mkEntry 1 true] = true
  /\ (1 ∉ observed (onIntersection gallery [mkEntry 1 true])).
Proof.
  assert (H1 : images gallery !! 1 = Some lazyCoin) by by_evaluation.
  assert (H2 : 1 ∈ observed gallery) by decided.
  assert (H3 : intersects 1 [mkEntry 1 true] = true) by by_evaluation.
  destruct (onIntersection_loads_and_unobserves gallery [mkEntry 1 true] 1 lazyCoin H1)
    as (_ & Hhit & _).
  destruct (Hhit H3) as [Hout _].
  split; [exact H1|]. split; [exact H2|]. split; [exact H3 | exact Hout].
Defined.


(** The WebP candidate of [logo]. *)
Lemma convertToWebP_records_a_candidate_witness :
  src againstBase logo = "https://swap.example/img/logo" +:+ ".JPG"
  /\ isImageExtension ".JPG" = true
  /\ getAttribute "data-webp-src" (convertToWebP againstBase logo)
     = Some ("https://swap.example/img/logo" +:+ ".webp").
Proof.
  assert (H1 : src againstBase logo = "https://swap.example/img/logo" +:+ ".JPG")
    by by_evaluation.
  assert (H2 : isImageExtension ".JPG" = true) by by_evaluation.
  assert (H3 : src againstBase logo ≠ "") by (rewrite H1; discriminate).
  assert (H4 : includesString ".webp" (src againstBase logo) = false) by by_evaluation.
  assert (H5 : includesString "data:" (src againstBase logo) = false) by by_evaluation.
  destruct (convertToWebP_records_a_candidate againstBase logo)
    as (_ & _ & _ & _ & Hrecord).
  destruct (Hrecord H3 H4 H5) as [Hext _].
  split; [exact H1|]. split; [exact H2 | exact (Hext _ _ H1 H2)].
Defined.

(** [logo] optimized, then failing, then showing the placeholder. *)
Lemma optimizeImage_loading_ends_with_load_witness :
  (forall h, h ∈ handlers logo -> h.1 ≠ "error")
  /\ "src" ∈ ["src"; "srcset"; "data-src"; "data-srcset"]
  /\ getAttribute "src" (optimizeImage againstBase logo high true)
     = getAttribute "src" logo
  /\ "loading" ∈ classNames
                   (dispatchEvent plainText "error" (optimizeImage againstBase logo high true))
  /\ ("loading" ∉ classNames
                    (dispatchEvent plainText "load"
                       (dispatchEvent plainText "error"
                          (optimizeImage againstBase logo high true)))).
Proof.
  assert (H1 : forall h, h ∈ handlers logo -> h.1 ≠ "error")
    by (intros h Hh; by apply elem_of_nil in Hh).
  assert (H2 : "src" ∈ ["src"; "srcset"; "data-src"; "data-srcset"]) by decided.
  destruct (optimizeImage_loading_ends_with_load againstBase plainText logo high true)
    as (_ & Hframe & _ & _ & _ & Hfail).
  destruct (Hfail H1) as (_ & Hstill & _ & _ & Hgone).
  split; [exact H1|]. split; [exact H2|]. split; [exact (Hframe _ H2)|].
  split; [exact Hstill | exact Hgone].
Defined.
